(** * sbpg: the schema conversion service (server/services/converter.ts)

    A shallow embedding of the conversion orchestration and output-assembly
    engine: export detection, the import splitter and the two import mergers,
    the two enum extractors, the error formatter, and [convertZodSchema] with
    its per-request workspace, together with the properties the specification
    states about them.

    JavaScript strings are sequences of UTF-16 code units; they are modelled
    as lists of code units ([N]).  The regular expressions of the source are
    written as terms of a small regular-expression syntax and run by a
    backtracking matcher with the greedy, leftmost-first discipline of
    ECMAScript. *)

From Stdlib Require Import NArith String Ascii List Lia DecimalString Sorted.
From stdpp Require Import base option list gmap.

(** ** JavaScript strings *)

Module JS.

Definition char := N.
Definition jsstring := list N.

(** An ASCII literal as a sequence of code units. *)
Definition js (s : string) : jsstring :=
  List.map N_of_ascii (list_ascii_of_string s).
Arguments js s%_string : simpl never.

Definition chr (a : ascii) : char := N_of_ascii a.
Arguments chr a%_char.

Definition showN (n : N) : jsstring :=
  js (NilEmpty.string_of_uint (N.to_uint n)).

Definition showNat (n : nat) : jsstring := showN (N.of_nat n).

(** [WhiteSpace] and [LineTerminator] of ECMAScript: what [\s] matches and
    what [trim] removes. *)
Definition isSpace (c : char) : bool :=
  ((9 <=? c) && (c <=? 13) || (c =? 32) || (c =? 160) || (c =? 5760)
   || (8192 <=? c) && (c <=? 8202) || (c =? 8232) || (c =? 8233)
   || (c =? 8239) || (c =? 8287) || (c =? 12288) || (c =? 65279))%N.

Definition isNotSpace (c : char) : bool := negb (isSpace c).

(** [\w] is [[A-Za-z0-9_]]. *)
Definition isWord (c : char) : bool :=
  ((65 <=? c) && (c <=? 90) || (97 <=? c) && (c <=? 122)
   || (48 <=? c) && (c <=? 57) || (c =? 95))%N.

(** [.] matches everything but the four line terminators. *)
Definition isDot (c : char) : bool :=
  negb ((c =? 10) || (c =? 13) || (c =? 8232) || (c =? 8233))%N.

Definition isNotQuote (c : char) : bool := negb (c =? 34)%N.

Definition eqs (a b : jsstring) : bool := bool_decide (a = b).

Fixpoint dropWhile (p : char -> bool) (s : jsstring) : jsstring :=
  match s with
  | [] => []
  | c :: s' => if p c then dropWhile p s' else s
  end.

Definition trimStart (s : jsstring) : jsstring := dropWhile isSpace s.
Definition trimEnd (s : jsstring) : jsstring := rev (dropWhile isSpace (rev s)).
Definition trim (s : jsstring) : jsstring := trimEnd (trimStart s).

(** [s.startsWith(p)], returning the remainder. *)
Fixpoint stripPrefix (p s : jsstring) : option jsstring :=
  match p, s with
  | [], _ => Some s
  | _ :: _, [] => None
  | a :: p', b :: s' => if (a =? b)%N then stripPrefix p' s' else None
  end.

Definition startsWith (s p : jsstring) : bool :=
  match stripPrefix p s with Some _ => true | None => false end.


(** [s.split(c)] for a one-character separator: never empty. *)
Fixpoint splitOn (sep : char) (s : jsstring) : list jsstring :=
  match s with
  | [] => [[]]
  | c :: s' =>
      if (c =? sep)%N then [] :: splitOn sep s'
      else match splitOn sep s' with
           | l :: ls => (c :: l) :: ls
           | [] => [[c]]
           end
  end.

Definition splitLines (s : jsstring) : list jsstring := splitOn 10%N s.

(** [arr.join(sep)]. *)
Fixpoint join (sep : jsstring) (l : list jsstring) : jsstring :=
  match l with
  | [] => []
  | [x] => x
  | x :: xs => x ++ sep ++ join sep xs
  end.

(** The order of [Array.prototype.sort] without a comparator: code units,
    lexicographically. *)
Fixpoint leStr (a b : jsstring) : bool :=
  match a, b with
  | [], _ => true
  | _ :: _, [] => false
  | x :: a', y :: b' => (x <? y)%N || ((x =? y)%N && leStr a' b')
  end.

Fixpoint insertSorted (x : jsstring) (l : list jsstring) : list jsstring :=
  match l with
  | [] => [x]
  | y :: l' => if leStr x y then x :: l else y :: insertSorted x l'
  end.

Definition sortStr (l : list jsstring) : list jsstring :=
  fold_right insertSorted [] l.

End JS.
Export JS.

(** ** Regular expressions *)

Module Regex.

(** The fragment the source uses: literals, greedy repetition of a character
    class, sequence, alternation, numbered capture groups and the two
    anchors. *)
Inductive regex :=
| RLit (l : jsstring)
| RPlus (p : char -> bool)
| RStar (p : char -> bool)
| RSeq (a b : regex)
| RAlt (a b : regex)
| RGroup (i : nat) (a : regex)
| RBol
| REol.

Definition caps := list (nat * jsstring).

Definition capture (i : nat) (cs : caps) : option jsstring :=
  snd <$> List.find (fun c => Nat.eqb (fst c) i) cs.

Section Matcher.
Context {R : Type}.

(** Greedy repetition: the longest run first, giving characters back one
    at a time when the continuation fails. *)
Fixpoint repGreedy (p : char -> bool) (least : nat) (pos : nat) (s : jsstring)
    (k : nat -> jsstring -> option R) : option R :=
  let stop := match least with O => k pos s | S _ => None end in
  match s with
  | c :: s' =>
      if p c then
        match repGreedy p (pred least) (S pos) s' k with
        | Some r => Some r
        | None => stop
        end
      else stop
  | [] => stop
  end.

Fixpoint rmatch (r : regex) (pos : nat) (s : jsstring) (cs : caps)
    (k : nat -> jsstring -> caps -> option R) : option R :=
  match r with
  | RLit l =>
      match stripPrefix l s with
      | Some s' => k (pos + length l) s' cs
      | None => None
      end
  | RPlus p => repGreedy p 1 pos s (fun pos' s' => k pos' s' cs)
  | RStar p => repGreedy p 0 pos s (fun pos' s' => k pos' s' cs)
  | RSeq a b => rmatch a pos s cs (fun pos' s' cs' => rmatch b pos' s' cs' k)
  | RAlt a b =>
      match rmatch a pos s cs k with
      | Some x => Some x
      | None => rmatch b pos s cs k
      end
  | RGroup i a =>
      rmatch a pos s cs
        (fun pos' s' cs' => k pos' s' ((i, take (pos' - pos) s) :: cs'))
  | RBol => match pos with O => k pos s cs | S _ => None end
  | REol => match s with [] => k pos s cs | _ :: _ => None end
  end.
End Matcher.

(** A match: where it ends, what follows it, and the captures. *)
Record found := { mEnd : nat; mRest : jsstring; mCaps : caps }.

Definition matchAt (r : regex) (pos : nat) (s : jsstring) : option found :=
  rmatch r pos s [] (fun e rest cs => Some {| mEnd := e; mRest := rest; mCaps := cs |}).

(** The leftmost match at or after [pos] ([s] is the text from [pos] on). *)
Fixpoint search (r : regex) (pos : nat) (s : jsstring) : option (nat * found) :=
  match matchAt r pos s with
  | Some m => Some (pos, m)
  | None =>
      match s with
      | [] => None
      | _ :: s' => search r (S pos) s'
      end
  end.

(** [str.match(re)] for a regular expression without the [g] flag. *)
Definition exec (r : regex) (s : jsstring) : option caps :=
  (fun m => mCaps (snd m)) <$> search r 0 s.

Definition test (r : regex) (s : jsstring) : bool :=
  match search r 0 s with Some _ => true | None => false end.

(** [str.replace(re, repl)] with the [g] flag: the matches are found left to
    right, each search resuming where the previous match ended (one
    character further after an empty match). *)
Fixpoint replaceFrom (fuel : nat) (r : regex) (repl : jsstring) (pos : nat)
    (s : jsstring) : jsstring :=
  match fuel with
  | O => s
  | S fuel' =>
      match search r pos s with
      | None => s
      | Some (st, m) =>
          take (st - pos) s ++ repl ++
          (if Nat.eqb (mEnd m) st then
             match mRest m with
             | [] => []
             | c :: rest' => c :: replaceFrom fuel' r repl (S (mEnd m)) rest'
             end
           else replaceFrom fuel' r repl (mEnd m) (mRest m))
      end
  end.

Definition replaceAll (r : regex) (repl : jsstring) (s : jsstring) : jsstring :=
  replaceFrom (S (length s)) r repl 0 s.

(** [Array.from(str.matchAll(re))], one capture list per match. *)
Fixpoint matchAllFrom (fuel : nat) (r : regex) (pos : nat) (s : jsstring) : list caps :=
  match fuel with
  | O => []
  | S fuel' =>
      match search r pos s with
      | None => []
      | Some (st, m) =>
          mCaps m ::
          (if Nat.eqb (mEnd m) st then
             match mRest m with
             | [] => []
             | _ :: rest' => matchAllFrom fuel' r (S (mEnd m)) rest'
             end
           else matchAllFrom fuel' r (mEnd m) (mRest m))
      end
  end.

Definition matchAll (r : regex) (s : jsstring) : list caps :=
  matchAllFrom (S (length s)) r 0 s.

Fixpoint rseq (l : list regex) : regex :=
  match l with
  | [] => RLit []
  | [r] => r
  | r :: l' => RSeq r (rseq l')
  end.

End Regex.
Export Regex.

(** ** The pure part of the converter *)

Module Converter.

Definition nl : jsstring := [10%N].
Definition dq : jsstring := [34%N].

Inductive language := pydantic | typescript.

Inductive zodVersion := V3 | V4.

Definition showVersion (v : zodVersion) : jsstring :=
  match v with V3 => js "3" | V4 => js "4" end.

Definition group (i : nat) (cs : caps) : jsstring := default [] (capture i cs).

Definition nonEmpty (s : jsstring) : bool :=
  match s with [] => false | _ :: _ => true end.

(** *** detectAllZodSchemas *)

(** [/export\s+const\s+(\w+)\s*=\s*z\./g] *)
Definition exportedRegex : regex :=
  rseq [RLit (js "export"); RPlus isSpace; RLit (js "const"); RPlus isSpace;
        RGroup 1 (RPlus isWord); RStar isSpace; RLit (js "="); RStar isSpace;
        RLit (js "z.")].

(** [/const\s+(\w+)\s*=\s*z\./g] *)
Definition allRegex : regex :=
  rseq [RLit (js "const"); RPlus isSpace;
        RGroup 1 (RPlus isWord); RStar isSpace; RLit (js "="); RStar isSpace;
        RLit (js "z.")].

Definition arrIncludes (l : list jsstring) (x : jsstring) : bool :=
  existsb (eqs x) l.

Record ExportCatalog := { exported : list jsstring; nonExported : list jsstring }.

Definition detectAllZodSchemas (schemaCode : jsstring) : ExportCatalog :=
  let exported := List.map (group 1) (matchAll exportedRegex schemaCode) in
  let all := List.map (group 1) (matchAll allRegex schemaCode) in
  {| exported := exported;
     nonExported := List.filter (fun name => negb (arrIncludes exported name)) all |}.

Definition getCommentPrefix (l : language) : jsstring :=
  match l with pydantic => js "#" | typescript => js "//" end.

(** *** The output splitter *)

Record ImportScan := {
  scanImports : list jsstring;
  scanBody : list jsstring;
  inImports : bool
}.

Definition scanStart : ImportScan :=
  {| scanImports := []; scanBody := []; inImports := true |}.

Definition importStep (isImport : jsstring -> bool) (st : ImportScan)
    (line : jsstring) : ImportScan :=
  let trimmed := trim line in
  if inImports st && isImport trimmed then
    {| scanImports := scanImports st ++ [line];
       scanBody := scanBody st;
       inImports := inImports st |}
  else
    {| scanImports := scanImports st;
       scanBody := scanBody st ++ [line];
       inImports := false |}.

Record SplitOutput := { imports : list jsstring; body : jsstring }.

Definition splitWith (isImport : jsstring -> bool) (output : jsstring) : SplitOutput :=
  let st := fold_left (importStep isImport) (splitLines output) scanStart in
  {| imports := scanImports st; body := trim (join nl (scanBody st)) |}.

Definition isPythonImport (trimmed : jsstring) : bool :=
  startsWith trimmed (js "from ") || startsWith trimmed (js "import ").

Definition isTypeScriptImport (trimmed : jsstring) : bool :=
  startsWith trimmed (js "import ").

Definition extractPythonImports : jsstring -> SplitOutput := splitWith isPythonImport.
Definition extractTypeScriptImports : jsstring -> SplitOutput := splitWith isTypeScriptImport.

(** *** The import mergers *)

(** A [Set<string>] in insertion order. *)
Definition setAdd (x : jsstring) (s : list jsstring) : list jsstring :=
  if arrIncludes s x then s else s ++ [x].

(** A [Map<string, V>] in insertion order: [has], [get] and [set]. *)
Section JsMap.
Context {V : Type}.

Definition mapHas (k : jsstring) (m : list (jsstring * V)) : bool :=
  existsb (fun e => eqs (fst e) k) m.

Definition mapGet (k : jsstring) (m : list (jsstring * V)) : option V :=
  snd <$> List.find (fun e => eqs (fst e) k) m.

Fixpoint mapSet (k : jsstring) (v : V) (m : list (jsstring * V)) : list (jsstring * V) :=
  match m with
  | [] => [(k, v)]
  | e :: m' => if eqs (fst e) k then (k, v) :: m' else e :: mapSet k v m'
  end.

Definition mapKeys (m : list (jsstring * V)) : list jsstring := List.map fst m.
Definition mapValues (m : list (jsstring * V)) : list V := List.map snd m.
End JsMap.

(** [/^from\s+(\S+)\s+import\s+(.+)$/] *)
Definition fromImportRegex : regex :=
  rseq [RBol; RLit (js "from"); RPlus isSpace; RGroup 1 (RPlus isNotSpace);
        RPlus isSpace; RLit (js "import"); RPlus isSpace; RGroup 2 (RPlus isDot);
        REol].

(** [/^import\s+(.+)$/] *)
Definition plainImportRegex : regex :=
  rseq [RBol; RLit (js "import"); RPlus isSpace; RGroup 1 (RPlus isDot); REol].

Record PyImports := {
  importsByModule : list (jsstring * list jsstring);
  standaloneImports : list jsstring
}.

Definition pyImportLine (acc : PyImports) (importLine : jsstring) : PyImports :=
  let trimmed := trim importLine in
  match exec fromImportRegex trimmed with
  | Some cs =>
      let module := group 1 cs in
      let items := group 2 cs in
      let byModule :=
        if mapHas module (importsByModule acc) then importsByModule acc
        else mapSet module [] (importsByModule acc) in
      let itemList := List.map trim (splitOn (chr ",") items) in
      let byModule' :=
        fold_left (fun m item => mapSet module (setAdd item (default [] (mapGet module m))) m)
          itemList byModule in
      {| importsByModule := byModule'; standaloneImports := standaloneImports acc |}
  | None =>
      match exec plainImportRegex trimmed with
      | Some _ =>
          {| importsByModule := importsByModule acc;
             standaloneImports := setAdd trimmed (standaloneImports acc) |}
      | None => acc
      end
  end.

Definition mergePythonImports (importArrays : list (list jsstring)) : list jsstring :=
  let acc := fold_left (fun a arr => fold_left pyImportLine arr a) importArrays
               {| importsByModule := []; standaloneImports := [] |} in
  let sortedModules := sortStr (mapKeys (importsByModule acc)) in
  let grouped :=
    fold_left (fun merged module =>
      let items := sortStr (default [] (mapGet module (importsByModule acc))) in
      if (0 <? length items)%nat then
        merged ++ [js "from " ++ module ++ js " import " ++ join (js ", ") items]
      else merged) sortedModules [] in
  grouped ++ sortStr (standaloneImports acc).

Record TsImports := { seen : gset jsstring; merged : list jsstring }.

Definition tsImportLine (acc : TsImports) (importLine : jsstring) : TsImports :=
  let trimmed := trim importLine in
  if bool_decide (trimmed ∈ seen acc) then acc
  else {| seen := {[trimmed]} ∪ seen acc; merged := merged acc ++ [importLine] |}.

Definition mergeTypeScriptImports (importArrays : list (list jsstring)) : list jsstring :=
  merged (fold_left (fun a arr => fold_left tsImportLine arr a) importArrays
            {| seen := ∅; merged := [] |}).

Definition mergeImports (importArrays : list (list jsstring)) (l : language) : list jsstring :=
  match l with
  | pydantic => mergePythonImports importArrays
  | typescript => mergeTypeScriptImports importArrays
  end.

(** *** The enum extractors *)

(** The enum registry: value signature to definition text, in insertion
    order. *)
Definition EnumMap := list (jsstring * jsstring).

(** [if (!enumMap.has(sig)) enumMap.set(sig, def)] *)
Definition register (sig def : jsstring) (m : EnumMap) : EnumMap :=
  if mapHas sig m then m else mapSet sig def m.

(** [if (currentEnum !== null && enumSignature) { ... }]: an open block is
    stored under its signature when the signature is not the empty string. *)
Definition saveEnum (currentEnum : option (list jsstring)) (enumSignature : jsstring)
    (m : EnumMap) : EnumMap :=
  match currentEnum with
  | Some block => if nonEmpty enumSignature then register enumSignature (join nl block) m else m
  | None => m
  end.

Arguments saveEnum : simpl never.

(** [if (enumSignature) enumSignature += ','; enumSignature += value] *)
Definition extendSignature (valueRegex : regex) (trimmed sig : jsstring) : jsstring :=
  match exec valueRegex trimmed with
  | Some cs => (if nonEmpty sig then sig ++ js "," else sig) ++ group 2 cs
  | None => sig
  end.

Definition indentOf (line : jsstring) : nat :=
  length line - length (trimStart line).

Record EnumExtraction := { enums : EnumMap; bodyWithoutEnums : jsstring }.

(** [/^class\s+(\w+Enum)\(str,\s*Enum\):/] *)
Definition pyEnumHeader : regex :=
  rseq [RBol; RLit (js "class"); RPlus isSpace;
        RGroup 1 (RSeq (RPlus isWord) (RLit (js "Enum")));
        RLit (js "(str,"); RStar isSpace; RLit (js "Enum):")].

(** [/^\w+\s*=\s*\x22/] (here and below [\x22] stands for the double quote
    of the source's pattern) *)
Definition pyAssignStart : regex :=
  rseq [RBol; RPlus isWord; RStar isSpace; RLit (js "="); RStar isSpace; RLit dq].

(** [/^(\w+)\s*=\s*\x22([^\x22]+)\x22/] *)
Definition pyEnumValue : regex :=
  rseq [RBol; RGroup 1 (RPlus isWord); RStar isSpace; RLit (js "="); RStar isSpace;
        RLit dq; RGroup 2 (RPlus isNotQuote); RLit dq].

Record PyEnumState := {
  pyEnumMap : EnumMap;
  pyBodyLines : list jsstring;
  pyCurrentEnum : option (list jsstring);
  pyEnumIndent : nat;
  pyEnumSignature : jsstring;
  pyInEnum : bool
}.

Definition pyEnumStart : PyEnumState :=
  {| pyEnumMap := []; pyBodyLines := []; pyCurrentEnum := None;
     pyEnumIndent := 0; pyEnumSignature := []; pyInEnum := false |}.

(** The test that closes a block: a non-blank line, indented no deeper than
    the header, that does not begin like a string assignment. *)
Definition pyLeavesEnum (enumIndent : nat) (line : jsstring) : bool :=
  let trimmed := trim line in
  nonEmpty trimmed && (indentOf line <=? enumIndent)%nat
  && negb (test pyAssignStart trimmed).

Definition pyEnumStep (st : PyEnumState) (line : jsstring) : PyEnumState :=
  let trimmed := trim line in
  let currentIndent := indentOf line in
  if test pyEnumHeader trimmed then
    {| pyEnumMap := saveEnum (pyCurrentEnum st) (pyEnumSignature st) (pyEnumMap st);
       pyBodyLines := pyBodyLines st;
       pyCurrentEnum := Some [line];
       pyEnumIndent := currentIndent;
       pyEnumSignature := [];
       pyInEnum := true |}
  else
    match pyInEnum st, pyCurrentEnum st with
    | true, Some block =>
        if pyLeavesEnum (pyEnumIndent st) line then
          {| pyEnumMap := saveEnum (Some block) (pyEnumSignature st) (pyEnumMap st);
             pyBodyLines := pyBodyLines st ++ [line];
             pyCurrentEnum := None;
             pyEnumIndent := pyEnumIndent st;
             pyEnumSignature := pyEnumSignature st;
             pyInEnum := false |}
        else
          {| pyEnumMap := pyEnumMap st;
             pyBodyLines := pyBodyLines st;
             pyCurrentEnum := Some (block ++ [line]);
             pyEnumIndent := pyEnumIndent st;
             pyEnumSignature := extendSignature pyEnumValue trimmed (pyEnumSignature st);
             pyInEnum := true |}
    | _, _ =>
        {| pyEnumMap := pyEnumMap st;
           pyBodyLines := pyBodyLines st ++ [line];
           pyCurrentEnum := pyCurrentEnum st;
           pyEnumIndent := pyEnumIndent st;
           pyEnumSignature := pyEnumSignature st;
           pyInEnum := pyInEnum st |}
    end.

Definition pyEnumFinish (st : PyEnumState) : EnumExtraction :=
  {| enums := saveEnum (pyCurrentEnum st) (pyEnumSignature st) (pyEnumMap st);
     bodyWithoutEnums := trim (join nl (pyBodyLines st)) |}.

Definition pyEnumLines (lines : list jsstring) : EnumExtraction :=
  pyEnumFinish (fold_left pyEnumStep lines pyEnumStart).

Definition extractPythonEnums (body : jsstring) : EnumExtraction :=
  pyEnumLines (splitLines body).

(** [/^enum\s+(\w+)\s*\{/] *)
Definition tsEnumHeader : regex :=
  rseq [RBol; RLit (js "enum"); RPlus isSpace; RGroup 1 (RPlus isWord);
        RStar isSpace; RLit (js "{")].

(** [/^\s*(\w+)\s*=\s*\x22([^\x22]+)\x22/] *)
Definition tsEnumValue : regex :=
  rseq [RBol; RStar isSpace; RGroup 1 (RPlus isWord); RStar isSpace; RLit (js "=");
        RStar isSpace; RLit dq; RGroup 2 (RPlus isNotQuote); RLit dq].

Record TsEnumState := {
  tsEnumMap : EnumMap;
  tsBodyLines : list jsstring;
  tsCurrentEnum : option (list jsstring);
  tsEnumSignature : jsstring
}.

Definition tsEnumStart : TsEnumState :=
  {| tsEnumMap := []; tsBodyLines := []; tsCurrentEnum := None; tsEnumSignature := [] |}.

Definition tsEnumStep (st : TsEnumState) (line : jsstring) : TsEnumState :=
  let trimmed := trim line in
  if test tsEnumHeader trimmed then
    {| tsEnumMap := saveEnum (tsCurrentEnum st) (tsEnumSignature st) (tsEnumMap st);
       tsBodyLines := tsBodyLines st;
       tsCurrentEnum := Some [line];
       tsEnumSignature := [] |}
  else
    match tsCurrentEnum st with
    | Some block =>
        let block' := block ++ [line] in
        if eqs trimmed (js "}") then
          {| tsEnumMap := saveEnum (Some block') (tsEnumSignature st) (tsEnumMap st);
             tsBodyLines := tsBodyLines st;
             tsCurrentEnum := None;
             tsEnumSignature := tsEnumSignature st |}
        else
          {| tsEnumMap := tsEnumMap st;
             tsBodyLines := tsBodyLines st;
             tsCurrentEnum := Some block';
             tsEnumSignature := extendSignature tsEnumValue trimmed (tsEnumSignature st) |}
    | None =>
        {| tsEnumMap := tsEnumMap st;
           tsBodyLines := tsBodyLines st ++ [line];
           tsCurrentEnum := None;
           tsEnumSignature := tsEnumSignature st |}
    end.

Definition tsEnumFinish (st : TsEnumState) : EnumExtraction :=
  {| enums := saveEnum (tsCurrentEnum st) (tsEnumSignature st) (tsEnumMap st);
     bodyWithoutEnums := trim (join nl (tsBodyLines st)) |}.

Definition tsEnumLines (lines : list jsstring) : EnumExtraction :=
  tsEnumFinish (fold_left tsEnumStep lines tsEnumStart).

Definition extractTypeScriptEnums (body : jsstring) : EnumExtraction :=
  tsEnumLines (splitLines body).

(** *** The error formatter *)

(** What a [catch] clause can receive: an [Error] with its message and stack
    trace, or any other thrown value. *)
Inductive thrown :=
| ThrownError (message stack : jsstring)
| ThrownValue (value : jsstring).

(** [error instanceof Error ? error.message : fallback] *)
Definition messageOr (fallback : jsstring) (error : thrown) : jsstring :=
  match error with
  | ThrownError message _ => message
  | ThrownValue _ => fallback
  end.

(** [/z\.(\w+) is not a function/] *)
Definition notFunctionRegex : regex :=
  rseq [RLit (js "z."); RGroup 1 (RPlus isWord); RLit (js " is not a function")].

(** [/Failed to import schema module \x22([^\x22]+)\x22: (.+)/] *)
Definition importFailRegex : regex :=
  rseq [RLit (js "Failed to import schema module " ++ dq); RGroup 1 (RPlus isNotQuote);
        RLit (dq ++ js ": "); RGroup 2 (RPlus isDot)].

(** [/\/var\/folders\/[^\s]+\/schema\.(ts|mjs)/g] *)
Definition tempPathRegex : regex :=
  rseq [RLit (js "/var/folders/"); RPlus isNotSpace; RLit (js "/schema.");
        RGroup 1 (RAlt (RLit (js "ts")) (RLit (js "mjs")))].

(** [/import_zod\./g] *)
Definition aliasRegex : regex := RLit (js "import_zod.").

Definition cleanError (errorMessage : jsstring) : jsstring :=
  replaceAll aliasRegex [] (replaceAll tempPathRegex (js "schema file") errorMessage).

Definition formatConversionError (exportName : jsstring) (error : thrown)
    (l : language) : jsstring :=
  let errorMessage := messageOr (js "Unknown error") error in
  let commentPrefix := getCommentPrefix l in
  match exec notFunctionRegex errorMessage with
  | Some cs =>
      commentPrefix ++ js " Invalid Zod method 'z." ++ group 1 cs ++ js "()' in schema '"
      ++ exportName
      ++ js "'. This method may not exist in the selected Zod version. Check the Zod documentation for valid methods."
  | None =>
      match exec importFailRegex errorMessage with
      | Some cs =>
          commentPrefix ++ js " Failed to load schema '" ++ exportName ++ js "': "
          ++ group 2 cs
      | None =>
          commentPrefix ++ js " Error in schema '" ++ exportName ++ js "': "
          ++ cleanError errorMessage
      end
  end.

End Converter.
Export Converter.

(** ** The runtime: file system, console, delegate *)

Module Runtime.

(** Absolute paths, as their segments; [path.join] appends segments and
    [path.dirname] drops the last one (the root is its own parent). *)
Definition path := list jsstring.

Definition pjoin (p : path) (segments : list jsstring) : path := p ++ segments.
Definition dirname (p : path) : path := removelast p.

Definition showPath (p : path) : jsstring :=
  match p with
  | [] => js "/"
  | _ => List.concat (List.map (fun seg => js "/" ++ seg) p)
  end.

(** What a path names: a directory, a file with its content, or a symbolic
    link with the absolute path it points to. *)
Inductive node :=
| Dir
| File (content : jsstring)
| Link (target : path).

(** The file system: what is found at each path, that is, the entry the
    path names once the links in its directory part are resolved; a
    symbolic link is found as the link itself.  Every entry is recorded
    under the path by which the program reaches it.  An operation that
    fails leaves the file system as it was. *)
Abbreviation FS := (gmap path node).

(** Whether [p] leads to a directory or a file when symbolic links are
    followed, at most [links] of them in a row. *)
Fixpoint follow (links : nat) (fs : FS) (p : path) : bool :=
  match fs !! p with
  | None => false
  | Some (Link target) =>
      match links with
      | O => false
      | S links' => follow links' fs target
      end
  | Some _ => true
  end.

(** [existsSync(p)]: symbolic links are followed (the operating system
    gives up after 40), so a link whose target is missing does not exist. *)
Definition existsSync (fs : FS) (p : path) : bool := follow 40 fs p.

Definition addDir (fs : FS) (p : path) : FS :=
  match fs !! p with Some _ => fs | None => <[p := Dir]> fs end.

(** [mkdir(p, { recursive: true })], when it succeeds: the directory and
    its missing parents. *)
Definition mkdirRec (p : path) (fs : FS) : FS :=
  fold_left addDir (List.map (fun n => take n p) (seq 1 (length p))) fs.

(** [symlink(target, link)] and [writeFile(p, content)], when they succeed. *)
Definition symlinkTo (target link : path) (fs : FS) : FS := <[link := Link target]> fs.
Definition writeTo (p : path) (content : jsstring) (fs : FS) : FS := <[p := File content]> fs.

(** [rm(p, { recursive: true, force: true })]: [p] and everything below. *)
Definition rmRec (p : path) (fs : FS) : FS :=
  filter (fun e => ¬ p `prefix_of` e.1) fs.

(** The operations [convertZodSchema] asks of [fs/promises]. *)
Inductive fsop :=
| OpMkdir (p : path)
| OpSymlink (target link : path)
| OpWriteFile (p : path)
| OpRm (p : path).

(** What a run did, in order: the file-system operations it attempted and
    the calls it made to the transpiler and to the delegate.  The source
    keeps no such record; it is here so that "never invoked" and "before"
    can be stated. *)
Inductive Event :=
| EvFs (op : fsop)
| EvTranspile
| EvLoad (file : path) (exportName : jsstring)
| EvGenerate (l : language) (exportName : jsstring).

(** What the converter writes with [console.error] and [console.warn],
    with the arguments. *)
Inductive LogEntry :=
| ConsoleError (text : jsstring) (error : thrown)
| ConsoleWarn (text : jsstring) (error : thrown)
| ConsoleWarnings (text : jsstring) (warnings : list jsstring).

(** What one invocation reads from its process: the environment variable,
    the two start directories, the system temp directory, the clock and the
    random source, and which file-system operations fail in this run (with
    what error): for lack of permission, because something is in the way,
    and so on.  The failures are taken from the environment and not worked
    out from the file system, so every run the operating system allows is a
    run of the model. *)
Record Env := {
  moduleRootOverride : option path;
  cwd : path;
  moduleDir : path;
  tmpdir : path;
  now : N;
  random36 : jsstring;
  fault : fsop -> option thrown
}.

(** The state a run changes. *)
Record World := {
  fs : FS;
  console : list LogEntry;
  events : list Event
}.

(** The external delegate library (schemabridge) and the TypeScript
    transpiler.  The loader imports the module file, which runs the user's
    code, and a generator may run the functions a schema holds: such a call
    works on the file system, which it may change before it throws or
    returns.  The transpiler only maps text to text. *)
Class Delegate := {
  Schema : Type;
  loadZodSchema : path -> jsstring -> FS -> (thrown + (Schema * list jsstring)) * FS;
  convertZodToPydantic : Schema -> jsstring -> FS -> (thrown + jsstring) * FS;
  convertZodToTypescript : Schema -> jsstring -> FS -> (thrown + jsstring) * FS;
  transpileModule : jsstring -> thrown + jsstring
}.

(** *** Computations that read and write the world and may throw *)

(** A computation ends with an exception or a value, in a new world; what
    was done before an exception stays done. *)
Definition M (A : Type) : Type := World -> (thrown + A) * World.

Definition ret {A} (x : A) : M A := fun w => (inr x, w).
Definition throw {A} (e : thrown) : M A := fun w => (inl e, w).

Definition bind {A B} (c : M A) (f : A -> M B) : M B :=
  fun w => match c w with
           | (inl e, w') => (inl e, w')
           | (inr x, w') => f x w'
           end.

Declare Scope js_scope.
Delimit Scope js_scope with js.
Notation "x <- c ;; k" := (bind c (fun x => k))
  (at level 100, c at next level, right associativity) : js_scope.
Notation "c ;; k" := (bind c (fun _ => k))
  (at level 100, right associativity) : js_scope.
Local Open Scope js_scope.

(** [try { c } catch (e) { h e }] *)
Definition tryCatch {A} (c : M A) (h : thrown -> M A) : M A :=
  fun w => match c w with
           | (inl e, w') => h e w'
           | (inr x, w') => (inr x, w')
           end.

(** [try { c } finally { f }]: [f] runs on every exit of [c]; the outcome
    is that of [c] unless [f] itself throws. *)
Definition tryFinally {A} (c : M A) (f : M unit) : M A :=
  fun w => let '(r, w') := c w in
           match f w' with
           | (inl e, w'') => (inl e, w'')
           | (inr _, w'') => (r, w'')
           end.

Definition liftSum {A} (r : thrown + A) : M A :=
  match r with inl e => throw e | inr x => ret x end.

Definition emit (ev : Event) : M unit :=
  fun w => (inr tt, {| fs := fs w; console := console w; events := events w ++ [ev] |}).

Definition logEntry (entry : LogEntry) : M unit :=
  fun w => (inr tt, {| fs := fs w; console := console w ++ [entry]; events := events w |}).

Definition exists_ (p : path) : M bool := fun w => (inr (existsSync (fs w) p), w).

(** One file-system operation: recorded, then failing as the environment
    says or applied to the file system. *)
Definition fsCall (env : Env) (op : fsop) (apply : FS -> FS) : M unit :=
  emit (EvFs op) ;;
  match fault env op with
  | Some e => throw e
  | None => fun w => (inr tt, {| fs := apply (fs w); console := console w; events := events w |})
  end.

Definition mkdir env (p : path) : M unit := fsCall env (OpMkdir p) (mkdirRec p).
Definition symlink env (target link : path) : M unit :=
  fsCall env (OpSymlink target link) (symlinkTo target link).
Definition writeFile env (p : path) (content : jsstring) : M unit :=
  fsCall env (OpWriteFile p) (writeTo p content).
Definition rm env (p : path) : M unit := fsCall env (OpRm p) (rmRec p).

Definition whenM (b : bool) (c : M unit) : M unit := if b then c else ret tt.

Fixpoint foldM {A S} (f : S -> A -> M S) (l : list A) (st : S) : M S :=
  match l with
  | [] => ret st
  | x :: l' => st' <- f st x ;; foldM f l' st'
  end.

(** [new Error(message)]; the stack trace is the engine's business, some
    text that begins with the message. *)
Definition newError (message : jsstring) : thrown :=
  ThrownError message (js "Error: " ++ message ++ nl ++ js "    at converter.js").

(** *** findNodeModulesRoot *)

Definition nodeModulesIn (fs : FS) (dir : path) : bool :=
  existsSync fs (pjoin dir [js "node_modules"]).

(** The [while (true)] loop, on the reversed segments of [dir]: up to the
    root, where [dirname] is the identity. *)
Fixpoint walkUp (fs : FS) (revDir : list jsstring) : option path :=
  if nodeModulesIn fs (rev revDir) then Some (rev revDir)
  else match revDir with
       | [] => None
       | _ :: parent => walkUp fs parent
       end.

Definition findNodeModulesRootIn (env : Env) (fs : FS) : thrown + path :=
  let search :=
    match walkUp fs (rev (cwd env)) with
    | Some dir => inr dir
    | None =>
        match walkUp fs (rev (dirname (moduleDir env))) with
        | Some dir => inr dir
        | None =>
            inl (newError (js "Could not locate node_modules. Set SCHEMABRIDGE_MODULE_ROOT to override."))
        end
    end in
  match moduleRootOverride env with
  | Some override => if nodeModulesIn fs override then inr override else search
  | None => search
  end.

Definition findNodeModulesRoot (env : Env) : M path :=
  fun w => liftSum (findNodeModulesRootIn env (fs w)) w.

(** *** convertZodSchema *)

Inductive Result :=
| ROutput (output : jsstring)
| RError (error : jsstring).

Record Batch := {
  allImports : list (list jsstring);
  allEnums : EnumMap;
  bodyOutputs : list jsstring
}.

Definition batchStart : Batch := {| allImports := []; allEnums := []; bodyOutputs := [] |}.

Definition extractImports (l : language) : jsstring -> SplitOutput :=
  match l with pydantic => extractPythonImports | typescript => extractTypeScriptImports end.

Definition extractEnums (l : language) : jsstring -> EnumExtraction :=
  match l with pydantic => extractPythonEnums | typescript => extractTypeScriptEnums end.

(** [for (const [enumSig, enumDef] of enums.entries()) ...] *)
Definition mergeEnums (found : EnumMap) (all : EnumMap) : EnumMap :=
  fold_left (fun m e => register e.1 e.2 m) found all.

Section Convert.
Context `{Delegate}.
Variable env : Env.

Definition tempDirOf : path :=
  pjoin (tmpdir env) [js "sb-playground-" ++ showN (now env) ++ js "-" ++ random36 env].

(** A call of the delegate: it throws or returns, in the file system it
    leaves. *)
Definition delegated {A} (call : FS -> (thrown + A) * FS) : M A :=
  fun w => let r := call (fs w) in
           (r.1, {| fs := r.2; console := console w; events := events w |}).

Definition callLoad (file : path) (exportName : jsstring) : M (Schema * list jsstring) :=
  emit (EvLoad file exportName) ;;
  delegated (loadZodSchema file exportName).

(** [convertZodToPydantic] or [convertZodToTypescript], by the target. *)
Definition generate (l : language) (schema : Schema) (exportName : jsstring)
    : FS -> (thrown + jsstring) * FS :=
  match l with
  | pydantic => convertZodToPydantic schema exportName
  | typescript => convertZodToTypescript schema exportName
  end.

Definition callGenerate (l : language) (schema : Schema) (exportName : jsstring) : M jsstring :=
  emit (EvGenerate l exportName) ;;
  delegated (generate l schema exportName).

(** What a binding that loaded and converted contributes. *)
Definition addOutput (l : language) (st : Batch) (output : jsstring) : Batch :=
  let sp := extractImports l output in
  let ex := extractEnums l (body sp) in
  {| allImports := allImports st ++ [imports sp];
     allEnums := mergeEnums (enums ex) (allEnums st);
     bodyOutputs := bodyOutputs st ++ [bodyWithoutEnums ex] |}.

(** What a binding that failed contributes. *)
Definition addFailure (l : language) (st : Batch) (exportName : jsstring) (err : thrown) : Batch :=
  {| allImports := allImports st ++ [[]];
     allEnums := allEnums st;
     bodyOutputs := bodyOutputs st ++ [formatConversionError exportName err l] |}.

(** The body of the [for (const exportName of exportNames)] loop. *)
Definition convertExport (tempFile : path) (l : language) (st : Batch)
    (exportName : jsstring) : M Batch :=
  tryCatch
    (loaded <- callLoad tempFile exportName ;;
     whenM (0 <? length loaded.2)%nat
       (logEntry (ConsoleWarnings (js "Warnings for " ++ exportName ++ js ":") loaded.2)) ;;
     output <- callGenerate l loaded.1 exportName ;;
     ret (addOutput l st output))
    (fun err =>
       logEntry (ConsoleError (js "Error converting " ++ exportName ++ js ":") err) ;;
       ret (addFailure l st exportName err)).

Definition unhandledComment (l : language) (nonExported : list jsstring) : jsstring :=
  if (0 <? length nonExported)%nat then
    let commentPrefix := getCommentPrefix l in
    nl ++ nl ++ commentPrefix
    ++ js " Note: The following Zod schemas were detected but not converted because they are not exported:"
    ++ nl ++ commentPrefix ++ js " " ++ join (js ", ") nonExported ++ nl ++ commentPrefix
    ++ js " To convert them, add 'export' before their declaration (e.g., export const "
    ++ List.hd [] nonExported ++ js " = z....)"
  else [].

Definition importsSection (l : language) (st : Batch) : jsstring :=
  let mergedImports := mergeImports (allImports st) l in
  if (0 <? length mergedImports)%nat then join nl mergedImports ++ nl else [].

Definition enumSection (st : Batch) : jsstring :=
  if (0 <? length (allEnums st))%nat
  then join (nl ++ nl) (mapValues (allEnums st)) ++ nl ++ nl else [].

Definition bodySection (st : Batch) : jsstring := join (nl ++ nl) (bodyOutputs st).

Definition finalOutput (l : language) (nonExported : list jsstring) (st : Batch) : jsstring :=
  let spacingAfterImports :=
    if nonEmpty (importsSection l st) && (nonEmpty (enumSection st) || nonEmpty (bodySection st))
    then nl else [] in
  importsSection l st ++ spacingAfterImports ++ enumSection st ++ bodySection st
  ++ unhandledComment l nonExported.

Definition noExportsError : jsstring :=
  js "No Zod schema exports found. Make sure to export your schemas with: export const schemaName = z.object(...)".

Definition tooManyError (n : nat) : jsstring :=
  js "Too many schema exports. Maximum 10 schemas allowed, found " ++ showNat n ++ js ".".

Definition notInstalledError (v : zodVersion) (zodVersionPath : path) : jsstring :=
  js "Zod v" ++ showVersion v ++ js " is not installed at " ++ showPath zodVersionPath.

Definition tempFileOf : path := pjoin tempDirOf [js "schema.mjs"].
Definition tempNodeModulesOf : path := pjoin tempDirOf [js "node_modules"].
Definition zodLinkOf : path := pjoin tempDirOf [js "node_modules"; js "zod"].
Definition zodVersionPathOf (moduleRoot : path) (version : zodVersion) : path :=
  pjoin moduleRoot [js "node_modules"; js "zod-v" ++ showVersion version].

(** The [try] block of [convertZodSchema]. *)
Definition convertBody (moduleRoot : path) (schemaCode : jsstring)
    (targetLanguage : language) (version : zodVersion) : M Result :=
  let tempDir := tempDirOf in
  let tempFile := tempFileOf in
  let zodLink := zodLinkOf in
  let zodVersionPath := zodVersionPathOf moduleRoot version in
  let catalog := detectAllZodSchemas schemaCode in
  let exportNames := exported catalog in
  if (length exportNames =? 0)%nat then ret (RError noExportsError)
  else if (10 <? length exportNames)%nat then ret (RError (tooManyError (length exportNames)))
  else
    hasTemp <- exists_ tempDir ;;
    whenM (negb hasTemp) (mkdir env tempDir) ;;
    let tempNodeModules := tempNodeModulesOf in
    hasModules <- exists_ tempNodeModules ;;
    whenM (negb hasModules) (mkdir env tempNodeModules) ;;
    hasVersion <- exists_ zodVersionPath ;;
    if negb hasVersion then ret (RError (notInstalledError version zodVersionPath))
    else
      hasLink <- exists_ zodLink ;;
      whenM (negb hasLink) (symlink env zodVersionPath zodLink) ;;
      emit EvTranspile ;;
      transpiled <- liftSum (transpileModule schemaCode) ;;
      writeFile env tempFile transpiled ;;
      st <- foldM (convertExport tempFile targetLanguage) exportNames batchStart ;;
      ret (ROutput (finalOutput targetLanguage (nonExported catalog) st)).

(** The [try] block with its [catch] clause. *)
Definition convertGuarded (moduleRoot : path) (schemaCode : jsstring)
    (targetLanguage : language) (version : zodVersion) : M Result :=
  tryCatch
    (convertBody moduleRoot schemaCode targetLanguage version)
    (fun error =>
       logEntry (ConsoleError (js "Schema conversion error:") error) ;;
       ret (RError (messageOr (js "Conversion failed") error))).

(** The [finally] clause. *)
Definition cleanup : M unit :=
  tryCatch
    (rm env tempDirOf)
    (fun err => logEntry (ConsoleWarn (js "Failed to delete temporary files:") err)).

Definition convertZodSchema (schemaCode : jsstring) (targetLanguage : language)
    (version : zodVersion) : M Result :=
  moduleRoot <- findNodeModulesRoot env ;;
  tryFinally (convertGuarded moduleRoot schemaCode targetLanguage version) cleanup.

End Convert.

End Runtime.
Export Runtime.

(** ** What a run computes, stated without the monad

    The per-binding outcome of the delegate, the state of the batch after a
    list of bindings, and the workspace as the loop finds it.  The theorems
    below relate [convertZodSchema] to these. *)

Module Blocks.

(** The signature a block's lines build up, from [sig] on. *)
Definition signatureFrom (valueRegex : regex) (sig : jsstring) (block : list jsstring) : jsstring :=
  fold_left (fun sig line => extendSignature valueRegex (trim line) sig) block sig.

Definition signatureOf (valueRegex : regex) (block : list jsstring) : jsstring :=
  signatureFrom valueRegex [] block.

Definition isPyHeader (line : jsstring) : bool := test pyEnumHeader (trim line).

(** A line that stays in a class-dialect block whose header is indented by
    [enumIndent]. *)
Definition pyContinues (enumIndent : nat) (line : jsstring) : bool :=
  negb (isPyHeader line) && negb (pyLeavesEnum enumIndent line).

(** A line that ends such a block and goes to the body. *)
Definition pyCloses (enumIndent : nat) (line : jsstring) : bool :=
  negb (isPyHeader line) && pyLeavesEnum enumIndent line.

Definition isTsHeader (line : jsstring) : bool := test tsEnumHeader (trim line).

(** A line inside a structural-dialect block, and the line that ends it. *)
Definition tsContinues (line : jsstring) : bool :=
  negb (isTsHeader line) && negb (eqs (trim line) (js "}")).

Definition tsCloses (line : jsstring) : bool :=
  negb (isTsHeader line) && eqs (trim line) (js "}").

(** A line that carries no string-valued member. *)
Definition noValue (valueRegex : regex) (line : jsstring) : Prop :=
  exec valueRegex (trim line) = None.

(** [lines] contains a block: a header, the lines that continue it, and then
    the end of the text or a line that does not continue it. *)
Definition pyBlockIn (lines : list jsstring) (hdr : jsstring) (block : list jsstring) : Prop :=
  exists before after,
    lines = before ++ hdr :: block ++ after
    /\ isPyHeader hdr = true
    /\ Forall (fun line => pyContinues (indentOf hdr) line = true) block
    /\ match after with
       | [] => True
       | next :: _ => pyContinues (indentOf hdr) next = false
       end.

Definition tsBlockIn (lines : list jsstring) (hdr : jsstring) (block : list jsstring) : Prop :=
  exists before after,
    lines = before ++ hdr :: block ++ after
    /\ isTsHeader hdr = true
    /\ Forall (fun line => tsContinues line = true) block
    /\ match after with
       | [] => True
       | next :: _ => tsContinues next = false
       end.

(** The generated body has an enum block whose value signature is [sig]. *)
Definition hasEnumBlock (l : language) (bodyText : jsstring) (sig : jsstring) : Prop :=
  match l with
  | pydantic =>
      exists hdr block,
        pyBlockIn (splitLines bodyText) hdr block /\ signatureOf pyEnumValue block = sig
  | typescript =>
      exists hdr block,
        tsBlockIn (splitLines bodyText) hdr block /\ signatureOf tsEnumValue block = sig
  end.

(** The number of definitions the registry holds for a signature. *)
Definition definitionsFor (sig : jsstring) (m : EnumMap) : nat :=
  length (List.filter (fun e => eqs e.1 sig) m).

(** The specification's reading of a block line: blank, or one string
    assignment indented at least as deep as the header. *)
Definition specBlockLine (valueRegex : regex) (headerIndent : nat) (line : jsstring) : bool :=
  negb (nonEmpty (trim line))
  || (test valueRegex (trim line) && (headerIndent <=? indentOf line)%nat).

(** The specification's reading of the import merge of the structural
    dialect: the first occurrence of every exact line text. *)
Fixpoint dedupExact (seenLines : list jsstring) (lines : list jsstring) : list jsstring :=
  match lines with
  | [] => []
  | line :: rest =>
      if arrIncludes seenLines line then dedupExact seenLines rest
      else line :: dedupExact (line :: seenLines) rest
  end.

(** What the code does: the first occurrence of every trimmed line text,
    the line itself kept as it is. *)
Fixpoint dedupTrimmed (seenKeys : list jsstring) (lines : list jsstring) : list jsstring :=
  match lines with
  | [] => []
  | line :: rest =>
      if arrIncludes seenKeys (trim line) then dedupTrimmed seenKeys rest
      else line :: dedupTrimmed (trim line :: seenKeys) rest
  end.






(** [c] occurs in [s] as a contiguous piece. *)
Definition within (c s : jsstring) : Prop := exists a b, s = a ++ c ++ b.

(** The registry only grows. *)
Definition grows (m m' : EnumMap) : Prop :=
  forall s, mapHas s m = true -> mapHas s m' = true.

Definition pyFlushed (st : PyEnumState) : EnumMap :=
  saveEnum (pyCurrentEnum st) (pyEnumSignature st) (pyEnumMap st).

Definition tsFlushed (st : TsEnumState) : EnumMap :=
  saveEnum (tsCurrentEnum st) (tsEnumSignature st) (tsEnumMap st).

End Blocks.
Export Blocks.

Module Outcome.
Section WithDelegate.
Context `{Delegate}.

(** One binding: what the delegate throws, or the code it generates, and
    the file system its calls leave. *)
Definition bindingOutcome (file : path) (l : language) (exportName : jsstring)
    (fs : FS) : (thrown + jsstring) * FS :=
  match loadZodSchema file exportName fs with
  | (inl e, fs') => (inl e, fs')
  | (inr loaded, fs') => generate l loaded.1 exportName fs'
  end.

(** The delegate calls for one binding: the generator is called when the
    load returned. *)
Definition bindingEvents (file : path) (l : language) (exportName : jsstring)
    (fs : FS) : list Event :=
  EvLoad file exportName ::
  match (loadZodSchema file exportName fs).1 with
  | inl _ => []
  | inr _ => [EvGenerate l exportName]
  end.

(** The bindings in scan order, each on the file system the one before it
    left: every binding with its outcome, and the file system at the end. *)
Fixpoint runBindings (file : path) (l : language) (exportNames : list jsstring)
    (fs : FS) : list (jsstring * (thrown + jsstring)) * FS :=
  match exportNames with
  | [] => ([], fs)
  | exportName :: rest =>
      let first := bindingOutcome file l exportName fs in
      let others := runBindings file l rest first.2 in
      ((exportName, first.1) :: others.1, others.2)
  end.

Definition outcomesOf (file : path) (l : language) (exportNames : list jsstring)
    (fs : FS) : list (jsstring * (thrown + jsstring)) :=
  (runBindings file l exportNames fs).1.

(** The delegate calls of the loop, in order. *)
Fixpoint loopEvents (file : path) (l : language) (exportNames : list jsstring)
    (fs : FS) : list Event :=
  match exportNames with
  | [] => []
  | exportName :: rest =>
      bindingEvents file l exportName fs
      ++ loopEvents file l rest (bindingOutcome file l exportName fs).2
  end.
End WithDelegate.

(** The body slot of a binding with its outcome. *)
Definition slotOf (l : language) (result : jsstring * (thrown + jsstring)) : jsstring :=
  match result.2 with
  | inl e => formatConversionError result.1 e l
  | inr output => bodyWithoutEnums (extractEnums l (body (extractImports l output)))
  end.

Definition addBinding (l : language) (st : Batch)
    (result : jsstring * (thrown + jsstring)) : Batch :=
  match result.2 with
  | inl e => addFailure l st result.1 e
  | inr output => addOutput l st output
  end.

Definition batchOf (l : language) (results : list (jsstring * (thrown + jsstring)))
    (st : Batch) : Batch :=
  fold_left (addBinding l) results st.

(** The enum blocks one binding contributes to the registry. *)
Definition enumsOf (l : language) (outcome : thrown + jsstring) : EnumMap :=
  match outcome with
  | inl _ => []
  | inr output => enums (extractEnums l (body (extractImports l output)))
  end.

(** The definition of the first binding, in scan order, that has a block
    with signature [sig]. *)
Fixpoint firstDefinition (l : language) (sig : jsstring)
    (results : list (jsstring * (thrown + jsstring))) : option jsstring :=
  match results with
  | [] => None
  | result :: rest =>
      match mapGet sig (enumsOf l result.2) with
      | Some def => Some def
      | None => firstDefinition l sig rest
      end
  end.

Definition ensureDir (p : path) (fs : FS) : FS :=
  if existsSync fs p then fs else mkdirRec p fs.

Definition ensureLink (target link : path) (fs : FS) : FS :=
  if existsSync fs link then fs else symlinkTo target link fs.

(** The file system once the two directories exist. *)
Definition withDirs (env : Env) (fs : FS) : FS :=
  ensureDir (tempNodeModulesOf env) (ensureDir (tempDirOf env) fs).

(** The file system the loop runs against. *)
Definition prepared (env : Env) (moduleRoot : path) (version : zodVersion)
    (transpiled : jsstring) (fs : FS) : FS :=
  writeTo (tempFileOf env) transpiled
    (ensureLink (zodVersionPathOf moduleRoot version) (zodLinkOf env) (withDirs env fs)).

(** Nothing exists at or below [p]. *)
Definition vacant (fs : FS) (p : path) : Prop :=
  forall q, p `prefix_of` q -> fs !! q = None.

(** No file-system operation that builds the workspace fails (the removal
    still may). *)
Definition quiet (env : Env) : Prop :=
  forall op, match op with OpRm _ => True | _ => fault env op = None end.

Definition afterFs (op : fsop) (apply : FS -> FS) (w : World) : World :=
  {| fs := apply (fs w); console := console w; events := events w ++ [EvFs op] |}.

Section Pure.
Context `{Delegate}.

(** The result of the [try] block when no file-system operation fails. *)
Definition bodyOutcome (env : Env) (moduleRoot : path) (schemaCode : jsstring)
    (l : language) (version : zodVersion) (fs : FS) : thrown + Result :=
  let catalog := detectAllZodSchemas schemaCode in
  let exportNames := exported catalog in
  let zodVersionPath := zodVersionPathOf moduleRoot version in
  if (length exportNames =? 0)%nat then inr (RError noExportsError)
  else if (10 <? length exportNames)%nat then inr (RError (tooManyError (length exportNames)))
  else if negb (existsSync (withDirs env fs) zodVersionPath)
  then inr (RError (notInstalledError version zodVersionPath))
  else
    match transpileModule schemaCode with
    | inl e => inl e
    | inr transpiled =>
        inr (ROutput (finalOutput l (nonExported catalog)
               (batchOf l
                  (outcomesOf (tempFileOf env) l exportNames
                     (prepared env moduleRoot version transpiled fs))
                  batchStart)))
    end.

(** The result of [convertZodSchema] when no file-system operation fails. *)
Definition convertOutcome (env : Env) (schemaCode : jsstring) (l : language)
    (version : zodVersion) (fs : FS) : thrown + Result :=
  match findNodeModulesRootIn env fs with
  | inl e => inl e
  | inr moduleRoot =>
      match bodyOutcome env moduleRoot schemaCode l version fs with
      | inl e => inr (RError (messageOr (js "Conversion failed") e))
      | inr res => inr res
      end
  end.
End Pure.

End Outcome.
Export Outcome.

(** ** A concrete delegate and process, for running the model *)

Module Demo.

Definition lines (l : list jsstring) : jsstring := join nl l.

Definition assign (name value : jsstring) : jsstring :=
  js "    " ++ name ++ js " = " ++ dq ++ value ++ dq.

(** Generated code of the class-based dialect: an enum block for the names
    [Role] and [Kind] (same values, different names), an enum block without
    members for [Void] and [Nil], a model otherwise. *)
Definition pydanticCode (name : jsstring) : jsstring :=
  if eqs name (js "Void") || eqs name (js "Nil") then
    lines [js "from enum import Enum"; js "from pydantic import BaseModel"; js "";
           js "class " ++ name ++ js "Enum(str, Enum):";
           js "    pass"; js "";
           js "class " ++ name ++ js "(BaseModel):";
           js "    value: " ++ name ++ js "Enum"]
  else if eqs name (js "Role") || eqs name (js "Kind") then
    lines [js "from enum import Enum"; js "from pydantic import BaseModel"; js "";
           js "class " ++ name ++ js "Enum(str, Enum):";
           assign (js "ADMIN") (js "admin"); assign (js "USER") (js "user"); js "";
           js "class " ++ name ++ js "(BaseModel):";
           js "    value: " ++ name ++ js "Enum"]
  else
    lines [js "from pydantic import BaseModel"; js "";
           js "class " ++ name ++ js "(BaseModel):"; js "    id: int"].

Definition typescriptCode (name : jsstring) : jsstring :=
  lines [js "import { z } from 'zod';"; js "";
         js "export interface " ++ name ++ js " {"; js "  id: number;"; js "}"].

(** A delegate whose loader leaves a note next to the module file, fails
    for the binding [Broken] with the message [failure] makes of the module
    file, and whose generators give fixed code for every other binding. *)
Definition delegateFailing (failure : path -> jsstring) : Delegate := {|
  Schema := jsstring;
  loadZodSchema := fun file exportName fs =>
    let fs' := writeTo (pjoin (dirname file) [js "loaded.log"]) exportName fs in
    if eqs exportName (js "Broken")
    then (inl (newError (failure file)), fs')
    else (inr (exportName, []), fs');
  convertZodToPydantic := fun schema _ fs => (inr (pydanticCode schema), fs);
  convertZodToTypescript := fun schema _ fs => (inr (typescriptCode schema), fs);
  transpileModule := fun code => inr code
|}.

(** The failure names the module file. *)
Definition delegate : Delegate :=
  delegateFailing (fun file => js "Cannot find export Broken in " ++ showPath file).

(** The failure is a message of two lines. *)
Definition delegateTwoLines : Delegate :=
  delegateFailing (fun _ => js "Unexpected token" ++ nl ++ js "import os").

Definition installed : FS :=
  {[ [js "app"] := Dir;
     [js "app"; js "node_modules"] := Dir;
     [js "app"; js "node_modules"; js "zod-v4"] := Dir;
     [js "tmp"] := Dir ]}.

Definition process (clock : N) (rnd : jsstring) (faults : fsop -> option thrown) : Env :=
  {| moduleRootOverride := None;
     cwd := [js "app"; js "dist"];
     moduleDir := [js "app"; js "dist"; js "services"];
     tmpdir := [js "tmp"];
     now := clock;
     random36 := rnd;
     fault := faults |}.

Definition noFault : fsop -> option thrown := fun _ => None.

Definition rmFault : fsop -> option thrown :=
  fun op => match op with
            | OpRm _ => Some (newError (js "EBUSY: resource busy or locked"))
            | _ => None
            end.

Definition boot : World := {| fs := installed; console := []; events := [] |}.

(** The same, with version 3 installed as a symbolic link whose target is
    missing: it names the workspace a later run will make. *)
Definition linked : FS :=
  <[ [js "app"; js "node_modules"; js "zod-v3"]
     := Link [js "tmp"; js "sb-playground-1700000000000-k3x9q"] ]> installed.

Definition bootLinked : World := {| fs := linked; console := []; events := [] |}.

Definition env1 : Env := process 1700000000000 (js "k3x9q") noFault.
Definition env2 : Env := process 1700000000001 (js "p0m2z") noFault.

(** A process in which the removal of the workspace fails, and one in which
    no directory can be made. *)
Definition envBusy : Env := process 1700000000000 (js "k3x9q") rmFault.



Definition threeExports : jsstring :=
  js "export const User = z.object({}); export const Broken = z.object({}); export const Team = z.object({});".

Definition twoEnums : jsstring :=
  js "export const Role = z.enum(['admin','user']); export const Kind = z.enum(['admin','user']);".

Definition twoVoids : jsstring :=
  js "export const Void = z.enum([]); export const Nil = z.enum([]);".

Definition elevenExports : jsstring :=
  List.concat (List.map (fun n => js "export const S" ++ showNat n ++ js " = z.string();") (seq 0 11)).

(** An enum class with a member and a method-like line, then a statement. *)
Definition statusHeader : jsstring := js "class StatusEnum(str, Enum):".
Definition statusMember : jsstring := assign (js "ACTIVE") (js "active").
Definition statusExtra : jsstring := js "    pass".
Definition statusNext : jsstring := js "x = 1".

(** An enum of the structural dialect, then a statement. *)
Definition colorHeader : jsstring := js "enum Color {".
Definition colorMember : jsstring := js "  Red = " ++ dq ++ js "red" ++ dq ++ js ",".
Definition colorClose : jsstring := js "}".
Definition colorNext : jsstring := js "const x = 1;".

End Demo.

(** * Further notions, for the properties beyond the specification *)

(** ** What a run leaves behind, for any failure of the file system *)

Module Footprint.

(** What a run may do to the file system outside the workspace of [env]:
    nothing, except that a missing ancestor of the temp directory may have
    been made. *)
Definition spares (env : Env) (before after : FS) : Prop :=
  forall q : path, ¬ tempDirOf env `prefix_of` q ->
    after !! q = before !! q
    \/ (before !! q = None /\ q `prefix_of` tmpdir env /\ q <> [] /\ after !! q = Some Dir).

(** The computation keeps to the workspace, whatever its outcome. *)
Definition confined (env : Env) {A} (c : M A) : Prop :=
  forall w, spares env (fs w) (fs (c w).2).

(** The delegate keeps to the workspace: loading the module file of [env]
    and generating code change nothing at a path outside it. *)
Definition delegateKeepsTo `{Delegate} (env : Env) : Prop :=
  (forall exportName (f : FS) (q : path),
     ¬ tempDirOf env `prefix_of` q ->
     (loadZodSchema (tempFileOf env) exportName f).2 !! q = f !! q)
  /\ (forall l schema exportName (f : FS) (q : path),
        ¬ tempDirOf env `prefix_of` q ->
        (generate l schema exportName f).2 !! q = f !! q).

(** The names the delegate was asked to load, in order. *)
Definition loadsOf (evs : list Event) : list jsstring :=
  flat_map (fun ev => match ev with EvLoad _ exportName => [exportName] | _ => [] end) evs.

(** The computation records events and asks for no load. *)
Definition loadFree {A} (c : M A) : Prop :=
  forall w, exists new, events (c w).2 = events w ++ new /\ loadsOf new = [].

Definition isOutput (r : thrown + Result) : Prop :=
  match r with inr (ROutput _) => True | _ => False end.

(** The computation asks for the loads [names], or for none and then gives no
    output. *)
Definition loadsAll (names : list jsstring) (c : M Result) : Prop :=
  forall w, exists new,
    events (c w).2 = events w ++ new
    /\ ((loadsOf new = [] /\ ¬ isOutput (c w).1) \/ loadsOf new = names).

End Footprint.
Export Footprint.

(** ** Words of the specification about texts *)

Module Texts.

Definition spaces (s : jsstring) : Prop := Forall (fun c => isSpace c = true) s.

(** A non-empty run of [[A-Za-z0-9_]]. *)
Definition identifier (s : jsstring) : Prop :=
  s <> [] /\ Forall (fun c => isWord c = true) s.

(** [code] contains the text [const name = z.], with white space as the
    pattern allows it. *)
Definition declaredIn (code name : jsstring) : Prop :=
  exists sp1 sp2 sp3,
    spaces sp1 /\ sp1 <> [] /\ spaces sp2 /\ spaces sp3
    /\ within (js "const" ++ sp1 ++ name ++ sp2 ++ js "=" ++ sp3 ++ js "z.") code.

(** [code] contains the text [export const name = z.]. *)
Definition exportedIn (code name : jsstring) : Prop :=
  exists sp0 sp1 sp2 sp3,
    spaces sp0 /\ sp0 <> [] /\ spaces sp1 /\ sp1 <> [] /\ spaces sp2 /\ spaces sp3
    /\ within (js "export" ++ sp0 ++ js "const" ++ sp1 ++ name ++ sp2 ++ js "=" ++ sp3
               ++ js "z.") code.

End Texts.
Export Texts.

(** ** Leading runs of lines *)

Module Runs.

(** The longest prefix of [lines] whose elements satisfy [p], and what
    follows it. *)
Fixpoint leading (p : jsstring -> bool) (lines : list jsstring) : list jsstring :=
  match lines with
  | [] => []
  | line :: rest => if p line then line :: leading p rest else []
  end.

Fixpoint following (p : jsstring -> bool) (lines : list jsstring) : list jsstring :=
  match lines with
  | [] => []
  | line :: rest => if p line then following p rest else lines
  end.

(** The splitter's test on a line of the given dialect. *)
Definition isImportLine (l : language) (line : jsstring) : bool :=
  match l with
  | pydantic => isPythonImport (trim line)
  | typescript => isTypeScriptImport (trim line)
  end.

End Runs.
Export Runs.

(** ** Enum blocks in a prefix of the lines *)

Module BlockScan.

Definition isEnumHeader (l : language) (line : jsstring) : bool :=
  match l with pydantic => isPyHeader line | typescript => isTsHeader line end.

(** Whether [line] stays in a block whose header is indented by [indent]
    (the structural dialect does not look at the indentation). *)
Definition continuesBlock (l : language) (indent : nat) (line : jsstring) : bool :=
  match l with pydantic => pyContinues indent line | typescript => tsContinues line end.

Definition valueOf (l : language) : regex :=
  match l with pydantic => pyEnumValue | typescript => tsEnumValue end.

(** The lines read so far contain a block with signature [sig] and the line
    that ended it. *)
Definition blockEndedIn (l : language) (done : list jsstring) (sig : jsstring) : Prop :=
  exists hdr block before next after,
    done = before ++ hdr :: block ++ next :: after
    /\ isEnumHeader l hdr = true
    /\ Forall (fun line => continuesBlock l (indentOf hdr) line = true) block
    /\ continuesBlock l (indentOf hdr) next = false
    /\ signatureOf (valueOf l) block = sig.

(** The lines read so far end inside a block: [hdr :: block] are the last
    lines read. *)
Definition blockOpenIn (l : language) (done : list jsstring) (hdr : jsstring)
    (block : list jsstring) : Prop :=
  exists before,
    done = before ++ hdr :: block
    /\ isEnumHeader l hdr = true
    /\ Forall (fun line => continuesBlock l (indentOf hdr) line = true) block.

(** What holds of the scanner's state after the lines [done]. *)
Definition pyScanned (done : list jsstring) (st : PyEnumState) : Prop :=
  (forall s, mapHas s (pyEnumMap st) = true -> s <> [] /\ blockEndedIn pydantic done s)
  /\ match pyCurrentEnum st with
     | Some cur =>
         pyInEnum st = true
         /\ exists hdr block,
              cur = hdr :: block /\ blockOpenIn pydantic done hdr block
              /\ pyEnumIndent st = indentOf hdr
              /\ pyEnumSignature st = signatureOf pyEnumValue block
     | None => pyInEnum st = false
     end.

Definition tsScanned (done : list jsstring) (st : TsEnumState) : Prop :=
  (forall s, mapHas s (tsEnumMap st) = true -> s <> [] /\ blockEndedIn typescript done s)
  /\ match tsCurrentEnum st with
     | Some cur =>
         exists hdr block,
           cur = hdr :: block /\ blockOpenIn typescript done hdr block
           /\ tsEnumSignature st = signatureOf tsEnumValue block
     | None => True
     end.

(** The line that ends a block and is stored with it: the closing brace of
    the structural dialect. *)
Definition closingLine (l : language) (after : list jsstring) : list jsstring :=
  match l, after with
  | typescript, next :: _ => if isTsHeader next then [] else [next]
  | _, _ => []
  end.

(** [lines] contain a block with signature [sig] whose text is [def]: a
    header, the lines that continue it, and then the end of the lines or a
    line that does not continue it. *)
Definition definedIn (l : language) (lines : list jsstring) (sig def : jsstring) : Prop :=
  exists hdr block before after,
    lines = before ++ hdr :: block ++ after
    /\ isEnumHeader l hdr = true
    /\ Forall (fun line => continuesBlock l (indentOf hdr) line = true) block
    /\ match after with
       | [] => True
       | next :: _ => continuesBlock l (indentOf hdr) next = false
       end
    /\ signatureOf (valueOf l) block = sig
    /\ def = join nl (hdr :: block ++ closingLine l after).

(** What the registry holds after the lines [done]: under a signature that
    is not empty, the text of a block with that signature that has ended. *)
Definition storedIn (l : language) (done : list jsstring) (m : EnumMap) : Prop :=
  forall s def, mapGet s m = Some def ->
    s <> []
    /\ exists hdr block before next after,
         done = before ++ hdr :: block ++ next :: after
         /\ isEnumHeader l hdr = true
         /\ Forall (fun line => continuesBlock l (indentOf hdr) line = true) block
         /\ continuesBlock l (indentOf hdr) next = false
         /\ signatureOf (valueOf l) block = s
         /\ def = join nl (hdr :: block ++ closingLine l (next :: after)).

End BlockScan.
Export BlockScan.

(** ** The order of the merged imports *)

Module Order.

(** Strictly before, in the order [sort()] uses. *)
Definition ltStr (a b : jsstring) : Prop := leStr a b = true /\ a <> b.

(** The line the class-dialect merger writes for a module and its items. *)
Definition fromLine (module : jsstring) (items : list jsstring) : jsstring :=
  js "from " ++ module ++ js " import " ++ join (js ", ") items.

(** One entry per module, no item twice. *)
Definition tidyMap (m : list (jsstring * list jsstring)) : Prop :=
  NoDup (mapKeys m) /\ (forall k items, mapGet k m = Some items -> NoDup items).

(** What the accumulator of the merger satisfies: one entry per module,
    items and whole-module imports without duplicates, and every
    whole-module import is the trimmed text of an input line. *)
Definition pyTidy (lines : list jsstring) (acc : PyImports) : Prop :=
  NoDup (mapKeys (importsByModule acc))
  /\ (forall k items, mapGet k (importsByModule acc) = Some items -> NoDup items)
  /\ NoDup (standaloneImports acc)
  /\ Forall (fun s => exists line, In line lines /\ s = trim line) (standaloneImports acc).

End Order.
Export Order.

(** ** Import lines as the generators write them *)

Module Lines.

(** A module path or an imported name: not empty, no white space, no comma. *)
Definition isNameChar (c : char) : bool := negb (isSpace c) && negb (c =? 44)%N.

Definition plainName (s : jsstring) : Prop :=
  s <> [] /\ Forall (fun c => isNameChar c = true) s.

(** The distinct elements, in order of first occurrence. *)
Definition distinct (l : list jsstring) : list jsstring :=
  fold_left (fun s x => setAdd x s) l [].

(** The merger's accumulator when all lines so far named [module]. *)
Definition oneModule (module : jsstring) (st : option (list jsstring)) : PyImports :=
  {| importsByModule := match st with Some s => [(module, s)] | None => [] end;
     standaloneImports := [] |}.

End Lines.
Export Lines.

(** ** The route handler: POST /convert

    What [express.json()] leaves in [req.body] is an object whose fields may
    be absent or of any JSON type; the handler only looks at whether a field
    is a string, and which, and whether it is truthy. *)

Module Route.

Inductive jsvalue :=
| VString (s : jsstring)
| VOther (truthy : bool).

Definition truthy (v : jsvalue) : bool :=
  match v with VString s => nonEmpty s | VOther t => t end.

Definition isString (v : jsvalue) : bool :=
  match v with VString _ => true | VOther _ => false end.

Definition stringOf (v : jsvalue) : jsstring :=
  match v with VString s => s | VOther _ => [] end.

(** [list.includes(v)] for a list of strings: strict equality. *)
Definition includesValue (l : list jsstring) (v : jsvalue) : bool :=
  match v with VString s => arrIncludes l s | VOther _ => false end.

Record Body := {
  bodySchemaCode : jsvalue;
  bodyTargetLanguage : jsvalue;
  bodyZodVersion : jsvalue
}.

(** [req.timedout] as the timeout middleware set it, and [req.body]
    ([None]: no body was parsed, and destructuring it throws). *)
Record Request := { timedout : bool; reqBody : option Body }.

(** [res.status(n).json({ error })] and [res.json({ output })]; an
    [undefined] output is left out of the JSON text. *)
Inductive Payload :=
| ErrorJson (error : jsstring)
| OutputJson (output : option jsstring).

Record Response := { status : nat; payload : Payload }.

(** The handler's answer, what it wrote with [console.log], and the world
    it leaves. *)
Definition Handled : Type := (Response * list jsstring) * World.

Definition lineCount (schemaCode : jsstring) : nat := length (splitLines schemaCode).

(** [/require\s*\(/], [/import\s*\(/], [/child_process/], [/fs\./],
    [/process\./], [/eval\s*\(/], [/Function\s*\(/], [/while\s*\(/] and
    [/for\s*\(\s*;\s*;\s*\)/] *)
Definition suspiciousPatterns : list regex :=
  [ rseq [RLit (js "require"); RStar isSpace; RLit (js "(")];
    rseq [RLit (js "import"); RStar isSpace; RLit (js "(")];
    RLit (js "child_process");
    RLit (js "fs.");
    RLit (js "process.");
    rseq [RLit (js "eval"); RStar isSpace; RLit (js "(")];
    rseq [RLit (js "Function"); RStar isSpace; RLit (js "(")];
    rseq [RLit (js "while"); RStar isSpace; RLit (js "(")];
    rseq [RLit (js "for"); RStar isSpace; RLit (js "("); RStar isSpace; RLit (js ";");
          RStar isSpace; RLit (js ";"); RStar isSpace; RLit (js ")")] ].

(** The strings the converter is called with, as the values of its types. *)
Definition asLanguage (s : jsstring) : language :=
  if eqs s (js "pydantic") then pydantic else typescript.

Definition asVersion (s : jsstring) : zodVersion :=
  if eqs s (js "3") then V3 else V4.

(** [result.error] and [result.output]. *)
Definition errorOf (r : Result) : option jsstring :=
  match r with RError e => Some e | ROutput _ => None end.

Definition outputOf (r : Result) : option jsstring :=
  match r with ROutput o => Some o | RError _ => None end.

Definition badRequest (message : jsstring) (w : World) : Handled :=
  (({| status := 400; payload := ErrorJson message |}, []), w).

(** The [catch] clause of the strict handler. *)
Definition caught (error : thrown) (w : World) : Handled :=
  match error with
  | ThrownError message _ =>
      if eqs message (js "Execution timeout") then
        (({| status := 408;
             payload := ErrorJson (js "Conversion timed out. Schema may be too complex.") |},
          []), w)
      else
        (({| status := 500; payload := ErrorJson message |}, []),
         {| fs := fs w;
            console := console w ++ [ConsoleError (js "Conversion error:") error];
            events := events w |})
  | ThrownValue _ =>
      (({| status := 500; payload := ErrorJson (js "Internal server error") |}, []),
       {| fs := fs w;
          console := console w ++ [ConsoleError (js "Conversion error:") error];
          events := events w |})
  end.

(** The [catch] clause of the older handler. *)
Definition caughtLegacy (error : thrown) (w : World) : Handled :=
  (({| status := 500; payload := ErrorJson (messageOr (js "Internal server error") error) |},
    []),
   {| fs := fs w;
      console := console w ++ [ConsoleError (js "Conversion error:") error];
      events := events w |}).

(** What destructuring an undefined body throws (the text is the engine's). *)
Definition destructureError : thrown :=
  newError (js "Cannot destructure property 'schemaCode' of 'req.body' as it is undefined.").

(** What follows [await]: the answer for a result of the conversion. *)
Definition answer (production : bool) (result : Result) (w : World) : Handled :=
  match errorOf result with
  | Some e =>
      if nonEmpty e then (({| status := 400; payload := ErrorJson e |}, []), w)
      else
        (({| status := 200; payload := OutputJson (outputOf result) |},
          if production then [] else [js "Conversion successful"]), w)
  | None =>
      (({| status := 200; payload := OutputJson (outputOf result) |},
        if production then [] else [js "Conversion successful"]), w)
  end.

Section Handlers.
Context `{Delegate}.
Variable env : Env.

(** [production]: [NODE_ENV] is [production].  [timerFirst]: the 25 s timer
    rejects before the conversion settles; the conversion then still runs
    to its end, and the world is the one it leaves. *)
Definition convertRoute (production timerFirst : bool) (req : Request) (w : World) : Handled :=
  if timedout req then
    (({| status := 408; payload := ErrorJson (js "Request timeout") |}, []), w)
  else
    match reqBody req with
    | None => caught destructureError w
    | Some body =>
        let schemaCode := bodySchemaCode body in
        let targetLanguage := bodyTargetLanguage body in
        let zodVersion := bodyZodVersion body in
        if negb (truthy schemaCode) || negb (isString schemaCode) then
          badRequest (js "schemaCode is required and must be a string") w
        else
          let code := stringOf schemaCode in
          if (100000 <? N.of_nat (length code))%N then
            badRequest (js "Schema too large. Maximum 100KB allowed.") w
          else if (2000 <? lineCount code)%nat then
            badRequest (js "Schema too large. Maximum 2000 lines, got "
                        ++ showNat (lineCount code) ++ js " lines.") w
          else if existsb (fun pattern => test pattern code) suspiciousPatterns then
            badRequest (js "Schema contains potentially unsafe code patterns.") w
          else if negb (truthy targetLanguage)
                  || negb (includesValue [js "pydantic"; js "typescript"] targetLanguage) then
            badRequest (js "targetLanguage must be either " ++ dq ++ js "pydantic" ++ dq
                        ++ js " or " ++ dq ++ js "typescript" ++ dq) w
          else if negb (truthy zodVersion)
                  || negb (includesValue [js "3"; js "4"] zodVersion) then
            badRequest (js "zodVersion must be either " ++ dq ++ js "3" ++ dq
                        ++ js " or " ++ dq ++ js "4" ++ dq) w
          else
            let '(settled, w') :=
              convertZodSchema env code (asLanguage (stringOf targetLanguage))
                (asVersion (stringOf zodVersion)) w in
            if timerFirst then caught (newError (js "Execution timeout")) w'
            else
              match settled with
              | inl error => caught error w'
              | inr result => answer production result w'
              end
    end.

(** The older handler: no size limit but 5000 lines, no pattern check, no
    timer. *)
Definition convertRouteLegacy (production : bool) (req : Request) (w : World) : Handled :=
  match reqBody req with
  | None => caughtLegacy destructureError w
  | Some body =>
      let schemaCode := bodySchemaCode body in
      let targetLanguage := bodyTargetLanguage body in
      let zodVersion := bodyZodVersion body in
      if negb (truthy schemaCode) || negb (isString schemaCode) then
        badRequest (js "schemaCode is required and must be a string") w
      else
        let code := stringOf schemaCode in
        if (5000 <? lineCount code)%nat then
          badRequest (js "Schema too large. Maximum 5000 lines, got "
                      ++ showNat (lineCount code) ++ js " lines.") w
        else if negb (truthy targetLanguage)
                || negb (includesValue [js "pydantic"; js "typescript"] targetLanguage) then
          badRequest (js "targetLanguage must be either " ++ dq ++ js "pydantic" ++ dq
                      ++ js " or " ++ dq ++ js "typescript" ++ dq) w
        else if negb (truthy zodVersion)
                || negb (includesValue [js "3"; js "4"] zodVersion) then
          badRequest (js "zodVersion must be either " ++ dq ++ js "3" ++ dq
                      ++ js " or " ++ dq ++ js "4" ++ dq) w
        else
          let '(settled, w') :=
            convertZodSchema env code (asLanguage (stringOf targetLanguage))
              (asVersion (stringOf zodVersion)) w in
          match settled with
          | inl error => caughtLegacy error w'
          | inr result => answer production result w'
          end
  end.

End Handlers.

(** A request that passes every check of the strict handler, with the
    arguments the converter is then called with. *)
Definition admitted (req : Request) (code : jsstring) (l : language) (v : zodVersion) : Prop :=
  timedout req = false
  /\ exists body lang ver,
       reqBody req = Some body
       /\ bodySchemaCode body = VString code
       /\ bodyTargetLanguage body = VString lang
       /\ bodyZodVersion body = VString ver
       /\ code <> []
       /\ (N.of_nat (length code) <= 100000)%N
       /\ lineCount code <= 2000
       /\ Forall (fun pattern => test pattern code = false) suspiciousPatterns
       /\ (lang = js "pydantic" \/ lang = js "typescript") /\ asLanguage lang = l
       /\ (ver = js "3" \/ ver = js "4") /\ asVersion ver = v.

Definition post (code lang ver : jsstring) : Request :=
  {| timedout := false;
     reqBody := Some {| bodySchemaCode := VString code;
                        bodyTargetLanguage := VString lang;
                        bodyZodVersion := VString ver |} |}.

End Route.
Export Route.

(** ** Requests, for running the handler *)

Module Sample.

Definition request : Request := post Demo.threeExports (js "pydantic") (js "4").

Definition unsafeCode : jsstring :=
  js "import fs from 'fs'; export const A = z.string().refine(() => eval ('1'));".

Definition unsafeRequest : Request := post unsafeCode (js "pydantic") (js "4").

End Sample.

(** ** Lines of the output *)

Module OneLine.

(** No line terminator of the target languages: line feed, carriage return,
    line separator, paragraph separator. *)
Definition oneLine (s : jsstring) : Prop := Forall (fun c => isDot c = true) s.

End OneLine.
Export OneLine.

(** ** Generated code without imports and enums *)

Module Plain.

(** The first line is not an import line, and no line of the trimmed text
    is an enum header. *)
Definition plainOutput (l : language) (output : jsstring) : Prop :=
  leading (isImportLine l) (splitLines output) = []
  /\ Forall (fun line => isEnumHeader l line = false) (splitLines (trim output)).

End Plain.
Export Plain.


(** * Properties *)

Local Open Scope js_scope.

(** ** Running the monadic code *)

Section Run.
Context `{Delegate}.
Variable env : Env.

Lemma fsCall_run op apply w :
  fsCall env op apply w =
    match fault env op with
    | Some e => (inl e, afterFs op id w)
    | None => (inr tt, afterFs op apply w)
    end.
Proof.
  unfold fsCall, bind, emit, afterFs, throw; simpl.
  destruct (fault env op); reflexivity.
Qed.

Lemma cleanup_run w :
  exists w',
    cleanup env w = (inr tt, w')
    /\ events w' = events w ++ [EvFs (OpRm (tempDirOf env))]
    /\ match fault env (OpRm (tempDirOf env)) with
       | None => fs w' = rmRec (tempDirOf env) (fs w) /\ console w' = console w
       | Some e =>
           fs w' = fs w
           /\ console w' = console w ++ [ConsoleWarn (js "Failed to delete temporary files:") e]
       end.
Proof.
  unfold cleanup, tryCatch, rm. rewrite fsCall_run.
  destruct (fault env (OpRm (tempDirOf env))) as [e|]; simpl; eauto.
Qed.

Lemma convertGuarded_returns root code l v w :
  exists res w', convertGuarded env root code l v w = (inr res, w').
Proof.
  unfold convertGuarded, tryCatch.
  destruct (convertBody env root code l v w) as [[e|res] w']; simpl; eauto.
Qed.

Lemma convertZodSchema_run root code l v w :
  findNodeModulesRootIn env (fs w) = inr root ->
  exists res w1 w',
    convertGuarded env root code l v w = (inr res, w1)
    /\ cleanup env w1 = (inr tt, w')
    /\ convertZodSchema env code l v w = (inr res, w').
Proof.
  intros Hroot.
  destruct (convertGuarded_returns root code l v w) as (res & w1 & Hg).
  destruct (cleanup_run w1) as (w' & Hc & _).
  exists res, w1, w'. repeat split; try assumption.
  unfold convertZodSchema, bind, findNodeModulesRoot, tryFinally.
  rewrite Hroot; simpl. rewrite Hg, Hc. reflexivity.
Qed.

Lemma convertZodSchema_rejects e code l v w :
  findNodeModulesRootIn env (fs w) = inl e ->
  convertZodSchema env code l v w = (inl e, w).
Proof.
  intros Hroot. unfold convertZodSchema, bind, findNodeModulesRoot.
  rewrite Hroot. reflexivity.
Qed.
End Run.

Lemma rmRec_vacant p fs : vacant (rmRec p fs) p.
Proof.
  intros q Hq. unfold rmRec. apply map_lookup_filter_None. right.
  intros x _ Hn. apply Hn. exact Hq.
Qed.

(** ** The file system *)

Lemma addDirs_lookup ps fs q :
  fold_left addDir ps fs !! q =
    match fs !! q with
    | Some x => Some x
    | None => if bool_decide (q ∈ ps) then Some Dir else None
    end.
Proof.
  revert fs. induction ps as [|p ps IH]; intros fs; simpl.
  - destruct (fs !! q); reflexivity.
  - rewrite IH. unfold addDir.
    destruct (fs !! p) eqn:Hp.
    + destruct (fs !! q) eqn:Hq; [reflexivity|].
      assert (q <> p) by congruence.
      destruct (decide (q ∈ ps)) as [Hin|Hin].
      * rewrite !bool_decide_eq_true_2 by (assumption || now right). reflexivity.
      * rewrite !bool_decide_eq_false_2
          by (assumption || (intros [?|?]%elem_of_cons; congruence)). reflexivity.
    + destruct (decide (p = q)) as [->|Hne].
      * rewrite lookup_insert_eq, Hp.
        rewrite (bool_decide_eq_true_2 (q ∈ q :: ps)); [reflexivity | now left].
      * rewrite lookup_insert_ne by assumption.
        destruct (fs !! q); [reflexivity|].
        destruct (decide (q ∈ ps)) as [Hin|Hin].
        -- rewrite !bool_decide_eq_true_2 by (assumption || now right). reflexivity.
        -- rewrite !bool_decide_eq_false_2
          by (assumption || (intros [?|?]%elem_of_cons; congruence)). reflexivity.
Qed.

Lemma mkdirRec_keeps (p : path) (fs : FS) (q : path) (x : node) : fs !! q = Some x -> mkdirRec p fs !! q = Some x.
Proof. intros Hq. unfold mkdirRec. rewrite addDirs_lookup, Hq. reflexivity. Qed.

Lemma mkdirRec_outside (p : path) (fs : FS) (q : path) :
  fs !! q = None -> ¬ q `prefix_of` p -> mkdirRec p fs !! q = None.
Proof.
  intros Hq Hn. unfold mkdirRec. rewrite addDirs_lookup, Hq.
  rewrite bool_decide_eq_false_2; [reflexivity|].
  intros Hin. apply Hn.
  apply list_elem_of_In, in_map_iff in Hin as (n & <- & _).
  apply prefix_take.
Qed.

Lemma mkdirRec_creates (p : path) (fs : FS) : p <> [] -> is_Some (mkdirRec p fs !! p).
Proof.
  intros Hp. unfold mkdirRec. rewrite addDirs_lookup.
  destruct (fs !! p); [eauto|].
  rewrite bool_decide_eq_true_2; [eauto|].
  apply list_elem_of_In, in_map_iff. exists (length p). split.
  - apply firstn_all.
  - apply in_seq. destruct p; [congruence | simpl; lia].
Qed.

Lemma ensureDir_keeps (p : path) (fs : FS) (q : path) (x : node) : fs !! q = Some x -> ensureDir p fs !! q = Some x.
Proof.
  intros Hq. unfold ensureDir. destruct (existsSync fs p); [assumption|].
  now apply mkdirRec_keeps.
Qed.

Lemma ensureDir_outside (p : path) (fs : FS) (q : path) :
  fs !! q = None -> ¬ q `prefix_of` p -> ensureDir p fs !! q = None.
Proof.
  intros Hq Hn. unfold ensureDir. destruct (existsSync fs p); [assumption|].
  now apply mkdirRec_outside.
Qed.

Lemma follow_none (links : nat) (fs : FS) (p : path) : fs !! p = None -> follow links fs p = false.
Proof. intros Hp. destruct links; simpl; now rewrite Hp. Qed.

Lemma follow_entry (links : nat) (fs : FS) (p : path) (x : node) :
  fs !! p = Some x -> (forall target, x <> Link target) -> follow links fs p = true.
Proof.
  intros Hp Hx. destruct links; simpl; rewrite Hp;
    destruct x as [|content|target]; try reflexivity; now destruct (Hx target).
Qed.

(** What exists still exists when entries are added and none is changed. *)
Lemma follow_more (links : nat) (fs fs' : FS) : forall p,
  (forall q x, fs !! q = Some x -> fs' !! q = Some x) ->
  follow links fs p = true -> follow links fs' p = true.
Proof.
  induction links as [|links IH]; intros p Hmore; simpl.
  - destruct (fs !! p) as [[|content|target]|] eqn:Hp; try discriminate;
      rewrite (Hmore p _ Hp); reflexivity.
  - destruct (fs !! p) as [[|content|target]|] eqn:Hp; try discriminate;
      rewrite (Hmore p _ Hp); try reflexivity.
    now apply IH.
Qed.

Lemma existsSync_true (fs : FS) (p : path) (x : node) :
  fs !! p = Some x -> (forall target, x <> Link target) -> existsSync fs p = true.
Proof. apply follow_entry. Qed.

Lemma existsSync_more (fs fs' : FS) (p : path) :
  (forall q x, fs !! q = Some x -> fs' !! q = Some x) ->
  existsSync fs p = true -> existsSync fs' p = true.
Proof. apply follow_more. Qed.

Lemma existsSync_false (fs : FS) (p : path) : fs !! p = None -> existsSync fs p = false.
Proof. apply follow_none. Qed.

Lemma prefix_snoc_cases {A} (q l : list A) x :
  q `prefix_of` l ++ [x] -> q `prefix_of` l \/ q = l ++ [x].
Proof.
  intros [k Hk]. destruct (decide (k = [])) as [->|Hne].
  - right. rewrite app_nil_r in Hk. congruence.
  - left. destruct (exists_last Hne) as (k' & y & ->).
    rewrite app_assoc in Hk. apply app_inj_tail in Hk as [-> _].
    now exists k'.
Qed.

(** The dependency directory is none of the workspace's directories. *)
Lemma zodVersionPath_outside (env : Env) (root : path) (v : zodVersion) :
  ¬ zodVersionPathOf root v `prefix_of` tmpdir env ->
  ¬ zodVersionPathOf root v `prefix_of` tempNodeModulesOf env.
Proof.
  intros Hn Hp. unfold tempNodeModulesOf, tempDirOf, pjoin in Hp.
  apply prefix_snoc_cases in Hp as [Hp|Hp].
  - apply prefix_snoc_cases in Hp as [Hp|Hp]; [contradiction|].
    unfold zodVersionPathOf, pjoin in Hp.
    change [js "node_modules"; js "zod-v" ++ showVersion v]
      with ([js "node_modules"] ++ [js "zod-v" ++ showVersion v]) in Hp.
    rewrite app_assoc in Hp. apply app_inj_tail in Hp as [_ Hp].
    discriminate Hp.
  - unfold zodVersionPathOf, pjoin in Hp.
    change [js "node_modules"; js "zod-v" ++ showVersion v]
      with ([js "node_modules"] ++ [js "zod-v" ++ showVersion v]) in Hp.
    rewrite app_assoc in Hp. apply app_inj_tail in Hp as [_ Hp].
    discriminate Hp.
Qed.

Lemma withDirs_keeps (env : Env) (fs : FS) (q : path) (x : node) : fs !! q = Some x -> withDirs env fs !! q = Some x.
Proof. intros. unfold withDirs. now do 2 apply ensureDir_keeps. Qed.

Lemma withDirs_outside (env : Env) (fs : FS) (q : path) :
  fs !! q = None -> ¬ q `prefix_of` tempNodeModulesOf env -> withDirs env fs !! q = None.
Proof.
  intros Hq Hn. unfold withDirs. apply ensureDir_outside; [|assumption].
  apply ensureDir_outside; [assumption|].
  intros Hp. apply Hn. etransitivity; [exact Hp|].
  unfold tempNodeModulesOf, pjoin. now apply prefix_app_r.
Qed.

Section Loop.
Context `{Delegate}.

Lemma convertExport_run file l st name w :
  exists w',
    convertExport file l st name w
    = (inr (addBinding l st (name, (bindingOutcome file l name (fs w)).1)), w')
    /\ fs w' = (bindingOutcome file l name (fs w)).2
    /\ events w' = events w ++ bindingEvents file l name (fs w).
Proof.
  unfold convertExport, callLoad, callGenerate, delegated, addBinding, bindingOutcome,
    bindingEvents, tryCatch, whenM, emit, logEntry, liftSum, bind, ret, throw; simpl.
  destruct (loadZodSchema file name (fs w)) as [[e|[schema warnings]] fs1]; simpl.
  - eexists; split; [reflexivity|]. simpl. split; reflexivity.
  - destruct (0 <? length warnings)%nat; simpl;
      destruct (generate l schema name fs1) as [[e|output] fs2]; simpl;
      (eexists; split; [reflexivity|]; simpl; split; [reflexivity|]);
      rewrite <- app_assoc; reflexivity.
Qed.

Lemma foldM_convertExport file l names : forall st w,
  exists w',
    foldM (convertExport file l) names st w
    = (inr (batchOf l (outcomesOf file l names (fs w)) st), w')
    /\ fs w' = (runBindings file l names (fs w)).2
    /\ events w' = events w ++ loopEvents file l names (fs w).
Proof.
  unfold outcomesOf.
  induction names as [|name names IH]; intros st w; cbn [foldM runBindings loopEvents fst snd].
  - exists w. unfold ret, batchOf; simpl. rewrite app_nil_r. auto.
  - destruct (convertExport_run file l st name w) as (w1 & Hrun & Hfs & Hev).
    destruct (IH (addBinding l st (name, (bindingOutcome file l name (fs w)).1)) w1)
      as (w2 & Hrun2 & Hfs2 & Hev2).
    exists w2. unfold bind. rewrite Hrun, Hrun2, Hfs. repeat split.
    + rewrite Hfs2, Hfs. reflexivity.
    + rewrite Hev2, Hev, Hfs, app_assoc. reflexivity.
Qed.
End Loop.

Section Body.
Context `{Delegate}.
Variable env : Env.
Hypothesis Hquiet : quiet env.

Lemma mkdir_quiet p w : mkdir env p w = (inr tt, afterFs (OpMkdir p) (mkdirRec p) w).
Proof. unfold mkdir. rewrite fsCall_run, (Hquiet (OpMkdir p)). reflexivity. Qed.

Lemma symlink_quiet target link w :
  symlink env target link w
  = (inr tt, afterFs (OpSymlink target link) (symlinkTo target link) w).
Proof. unfold symlink. rewrite fsCall_run, (Hquiet (OpSymlink target link)). reflexivity. Qed.

Lemma writeFile_quiet p content w :
  writeFile env p content w = (inr tt, afterFs (OpWriteFile p) (writeTo p content) w).
Proof. unfold writeFile. rewrite fsCall_run, (Hquiet (OpWriteFile p)). reflexivity. Qed.

Lemma ensureDir_run p w :
  exists w',
    whenM (negb (existsSync (fs w) p)) (mkdir env p) w = (inr tt, w')
    /\ fs w' = ensureDir p (fs w)
    /\ exists more, events w' = events w ++ more.
Proof.
  unfold whenM, ensureDir. destruct (existsSync (fs w) p); cbn [negb].
  - exists w. repeat split. exists []. now rewrite app_nil_r.
  - rewrite mkdir_quiet. eexists. repeat split. eexists. reflexivity.
Qed.

Lemma ensureLink_run target link w :
  exists w',
    whenM (negb (existsSync (fs w) link)) (symlink env target link) w = (inr tt, w')
    /\ fs w' = ensureLink target link (fs w)
    /\ exists more, events w' = events w ++ more.
Proof.
  unfold whenM, ensureLink. destruct (existsSync (fs w) link); cbn [negb].
  - exists w. repeat split. exists []. now rewrite app_nil_r.
  - rewrite symlink_quiet. eexists. repeat split. eexists. reflexivity.
Qed.

Lemma convertBody_quiet root code l v w :
  exists w',
    convertBody env root code l v w = (bodyOutcome env root code l v (fs w), w')
    /\ forall transpiled,
         length (exported (detectAllZodSchemas code)) <> 0 ->
         length (exported (detectAllZodSchemas code)) <= 10 ->
         existsSync (withDirs env (fs w)) (zodVersionPathOf root v) = true ->
         transpileModule code = inr transpiled ->
         exists before,
           events w' = before
             ++ loopEvents (tempFileOf env) l (exported (detectAllZodSchemas code))
                  (prepared env root v transpiled (fs w))
           /\ fs w' = (runBindings (tempFileOf env) l (exported (detectAllZodSchemas code))
                         (prepared env root v transpiled (fs w))).2.
Proof.
  unfold convertBody, bodyOutcome.
  destruct (Nat.eqb_spec (length (exported (detectAllZodSchemas code))) 0);
    [eexists; split; [reflexivity | intros; lia]|].
  destruct (Nat.ltb_spec 10 (length (exported (detectAllZodSchemas code))));
    [eexists; split; [reflexivity | intros; lia]|].
  unfold bind at 1. unfold exists_ at 1. unfold bind at 1.
  destruct (ensureDir_run (tempDirOf env) w) as (w1 & -> & Hfs1 & (ev1 & Hev1)).
  unfold bind at 1. unfold exists_ at 1. unfold bind at 1.
  destruct (ensureDir_run (tempNodeModulesOf env) w1) as (w2 & -> & Hfs2 & (ev2 & Hev2)).
  rewrite Hfs1 in Hfs2. fold (withDirs env (fs w)) in Hfs2.
  unfold bind at 1. unfold exists_ at 1. rewrite Hfs2.
  destruct (existsSync (withDirs env (fs w)) (zodVersionPathOf root v)); cbn [negb];
    [|eexists; split; [reflexivity | intros; discriminate]].
  unfold bind at 1. unfold exists_ at 1. unfold bind at 1.
  destruct (ensureLink_run (zodVersionPathOf root v) (zodLinkOf env) w2)
    as (w3 & -> & Hfs3 & (ev3 & Hev3)).
  rewrite Hfs2 in Hfs3.
  unfold bind at 1. unfold emit at 1.
  unfold bind at 1. unfold liftSum at 1.
  destruct (transpileModule code) as [e|transpiled];
    [eexists; split; [reflexivity | intros; discriminate]|].
  unfold ret at 1. unfold bind at 1. rewrite writeFile_quiet.
  unfold bind at 1.
  match goal with
  | |- context [foldM ?f ?names ?st ?w0] =>
      destruct (foldM_convertExport (tempFileOf env) l names st w0) as (w4 & -> & Hfs4 & Hev4)
  end.
  unfold ret. cbn [fs afterFs] in *. rewrite Hfs3 in *.
  fold (prepared env root v transpiled (fs w)) in *.
  eexists. split; [reflexivity|].
  intros t _ _ _ [= <-]. eexists. split; [exact Hev4 | exact Hfs4].
Qed.

Theorem convertZodSchema_quiet code l v w :
  (convertZodSchema env code l v w).1 = convertOutcome env code l v (fs w).
Proof.
  unfold convertOutcome.
  destruct (findNodeModulesRootIn env (fs w)) as [e|root] eqn:Hroot.
  - rewrite (convertZodSchema_rejects env e) by assumption. reflexivity.
  - destruct (convertZodSchema_run env root code l v w Hroot) as (res & w1 & w' & Hg & _ & ->).
    simpl. unfold convertGuarded, tryCatch in Hg.
    destruct (convertBody_quiet root code l v w) as (wb & Hb & _). rewrite Hb in Hg.
    destruct (bodyOutcome env root code l v (fs w)) as [e|r]; simpl in Hg.
    + unfold bind, logEntry, ret in Hg. simpl in Hg. congruence.
    + congruence.
Qed.
End Body.

Section Early.
Context `{Delegate}.
Variable env : Env.

Lemma convertBody_none root code l v w :
  length (exported (detectAllZodSchemas code)) = 0 ->
  convertBody env root code l v w = (inr (RError noExportsError), w).
Proof. intros Hn. unfold convertBody. rewrite Hn. reflexivity. Qed.

Lemma convertBody_many root code l v w :
  10 < length (exported (detectAllZodSchemas code)) ->
  convertBody env root code l v w
  = (inr (RError (tooManyError (length (exported (detectAllZodSchemas code))))), w).
Proof.
  intros Hn. unfold convertBody.
  destruct (Nat.eqb_spec (length (exported (detectAllZodSchemas code))) 0); [lia|].
  destruct (Nat.ltb_spec 10 (length (exported (detectAllZodSchemas code)))); [|lia].
  reflexivity.
Qed.

Lemma guarded_of_body root code l v w res w1 :
  convertBody env root code l v w = (inr res, w1) ->
  convertGuarded env root code l v w = (inr res, w1).
Proof. intros Hb. unfold convertGuarded, tryCatch. rewrite Hb. reflexivity. Qed.

Lemma convert_of_guarded root code l v w res w1 :
  findNodeModulesRootIn env (fs w) = inr root ->
  convertGuarded env root code l v w = (inr res, w1) ->
  exists w',
    convertZodSchema env code l v w = (inr res, w')
    /\ events w' = events w1 ++ [EvFs (OpRm (tempDirOf env))]
    /\ match fault env (OpRm (tempDirOf env)) with
       | None => fs w' = rmRec (tempDirOf env) (fs w1) /\ console w' = console w1
       | Some e =>
           fs w' = fs w1
           /\ console w' = console w1 ++ [ConsoleWarn (js "Failed to delete temporary files:") e]
       end.
Proof.
  intros Hroot Hg.
  destruct (cleanup_run env w1) as (w' & Hc & Hev & Hfs).
  exists w'. split; [|split; assumption].
  unfold convertZodSchema, bind, findNodeModulesRoot, tryFinally.
  rewrite Hroot; simpl. rewrite Hg, Hc. reflexivity.
Qed.

Lemma convert_many root code l v w :
  findNodeModulesRootIn env (fs w) = inr root ->
  10 < length (exported (detectAllZodSchemas code)) ->
  exists w',
    convertZodSchema env code l v w
    = (inr (RError (tooManyError (length (exported (detectAllZodSchemas code))))), w')
    /\ events w' = events w ++ [EvFs (OpRm (tempDirOf env))].
Proof.
  intros Hroot Hn.
  destruct (convert_of_guarded root code l v w _ w Hroot
              (guarded_of_body _ _ _ _ _ _ _ (convertBody_many root code l v w Hn)))
    as (w' & Hrun & Hev & _).
  eauto.
Qed.

(** C8.  When the export detector finds more than ten exported bindings,
    [convertZodSchema] returns the capacity error, and the only thing it does
    to the world is the unconditional removal of the (never created)
    workspace: no directory is made, nothing is transpiled or written, and
    neither [loadZodSchema] nor a generator of the delegate is called.  The
    process is one whose module root resolves: [findNodeModulesRoot] runs
    before the [try] block and throws otherwise. *)
Theorem capacity_error_before_sandbox root code l v w :
  findNodeModulesRootIn env (fs w) = inr root ->
  10 < length (exported (detectAllZodSchemas code)) ->
  exists w',
    convertZodSchema env code l v w
    = (inr (RError (tooManyError (length (exported (detectAllZodSchemas code))))), w')
    /\ events w' = events w ++ [EvFs (OpRm (tempDirOf env))].
Proof. apply convert_many. Qed.

Lemma convertBody_missing root code l v w :
  length (exported (detectAllZodSchemas code)) <> 0 ->
  length (exported (detectAllZodSchemas code)) <= 10 ->
  vacant (fs w) (tempDirOf env) ->
  fault env (OpMkdir (tempDirOf env)) = None ->
  fault env (OpMkdir (tempNodeModulesOf env)) = None ->
  (fs w : FS) !! zodVersionPathOf root v = None ->
  ¬ zodVersionPathOf root v `prefix_of` tmpdir env ->
  exists w1,
    convertBody env root code l v w
    = (inr (RError (notInstalledError v (zodVersionPathOf root v))), w1)
    /\ events w1 = events w ++ [EvFs (OpMkdir (tempDirOf env));
                                EvFs (OpMkdir (tempNodeModulesOf env))]
    /\ is_Some ((fs w1 : FS) !! tempDirOf env).
Proof.
  intros Hn0 Hn10 Hvac Hf1 Hf2 Hmiss Hout.
  unfold convertBody.
  destruct (Nat.eqb_spec (length (exported (detectAllZodSchemas code))) 0); [lia|].
  destruct (Nat.ltb_spec 10 (length (exported (detectAllZodSchemas code)))); [lia|].
  assert (Hno1 : existsSync (fs w) (tempDirOf env) = false).
  { apply existsSync_false, Hvac. reflexivity. }
  unfold bind at 1. unfold exists_ at 1. rewrite Hno1.
  unfold bind at 1. unfold whenM at 1, mkdir at 1. cbn [negb].
  rewrite fsCall_run, Hf1.
  assert (Hno2 : existsSync (mkdirRec (tempDirOf env) (fs w)) (tempNodeModulesOf env) = false).
  { apply existsSync_false, mkdirRec_outside.
    - apply Hvac. unfold tempNodeModulesOf, pjoin. now apply prefix_app_r.
    - intros Hp. apply prefix_length in Hp.
      unfold tempNodeModulesOf, pjoin in Hp. rewrite length_app in Hp. simpl in Hp. lia. }
  unfold bind at 1. unfold exists_ at 1. cbn [fs afterFs]. rewrite Hno2.
  unfold bind at 1. unfold whenM at 1, mkdir at 1. cbn [negb].
  rewrite fsCall_run, Hf2.
  unfold bind at 1. unfold exists_ at 1. cbn [fs afterFs].
  assert (Hno3 : existsSync (mkdirRec (tempNodeModulesOf env) (mkdirRec (tempDirOf env) (fs w)))
                   (zodVersionPathOf root v) = false).
  { pose proof (zodVersionPath_outside env root v Hout) as Hout2.
    apply existsSync_false, mkdirRec_outside; [|assumption].
    apply mkdirRec_outside; [assumption|].
    intros Hp. apply Hout2. etransitivity; [exact Hp|].
    unfold tempNodeModulesOf, pjoin. now apply prefix_app_r. }
  rewrite Hno3. cbn [negb].
  eexists. split; [reflexivity|]. simpl. split.
  - rewrite <- app_assoc. reflexivity.
  - destruct (mkdirRec_creates (tempDirOf env) (fs w)) as [x Hx].
    { unfold tempDirOf, pjoin. intros Heq. apply app_eq_nil in Heq as [_ Heq]. discriminate. }
    exists x. now apply mkdirRec_keeps.
Qed.

(** C2, as amended.  The no-exports error and the capacity error are
    returned before any workspace is created: the run performs nothing but
    the final removal.  The version-not-installed error is returned after
    the workspace directory and its [node_modules] directory have been
    created (in a fresh workspace, when neither [mkdir] fails), and before
    the link, the transpilation, the module file and any call of the
    delegate; the cleanup then removes the workspace. *)
Theorem errors_before_and_after_workspace_creation root code l v w :
  findNodeModulesRootIn env (fs w) = inr root ->
  (length (exported (detectAllZodSchemas code)) = 0 ->
   exists w',
     convertZodSchema env code l v w = (inr (RError noExportsError), w')
     /\ events w' = events w ++ [EvFs (OpRm (tempDirOf env))])
  /\ (10 < length (exported (detectAllZodSchemas code)) ->
      exists w',
        convertZodSchema env code l v w
        = (inr (RError (tooManyError (length (exported (detectAllZodSchemas code))))), w')
        /\ events w' = events w ++ [EvFs (OpRm (tempDirOf env))])
  /\ (length (exported (detectAllZodSchemas code)) <> 0 ->
      length (exported (detectAllZodSchemas code)) <= 10 ->
      vacant (fs w) (tempDirOf env) ->
      fault env (OpMkdir (tempDirOf env)) = None ->
      fault env (OpMkdir (tempNodeModulesOf env)) = None ->
      (fs w : FS) !! zodVersionPathOf root v = None ->
      ¬ zodVersionPathOf root v `prefix_of` tmpdir env ->
      exists w',
        convertZodSchema env code l v w
        = (inr (RError (notInstalledError v (zodVersionPathOf root v))), w')
        /\ events w' = events w ++ [EvFs (OpMkdir (tempDirOf env));
                                    EvFs (OpMkdir (tempNodeModulesOf env));
                                    EvFs (OpRm (tempDirOf env))]).
Proof.
  intros Hroot. split; [|split].
  - intros Hn.
    destruct (convert_of_guarded root code l v w _ w Hroot
                (guarded_of_body _ _ _ _ _ _ _ (convertBody_none root code l v w Hn)))
      as (w' & Hrun & Hev & _).
    eauto.
  - intros Hn. now apply convert_many with (root := root).
  - intros Hn0 Hn10 Hvac Hf1 Hf2 Hmiss Hout.
    destruct (convertBody_missing root code l v w Hn0 Hn10 Hvac Hf1 Hf2 Hmiss Hout)
      as (w1 & Hb & Hev1 & _).
    destruct (convert_of_guarded root code l v w _ w1 Hroot
                (guarded_of_body _ _ _ _ _ _ _ Hb)) as (w' & Hrun & Hev & _).
    exists w'. split; [assumption|]. rewrite Hev, Hev1, <- app_assoc. reflexivity.
Qed.

(** C4.  Whatever the [try] block does (it returns an output, returns an
    error, or throws and is caught), [convertZodSchema] returns that result
    and its last action is the recursive removal of the workspace directory.
    When the removal succeeds nothing is left at or below the workspace
    path; when the removal itself fails, the failure is written to the
    console as a warning and the caller still gets the result.  (When the
    module root does not resolve the function throws before its [try]
    block, and the world is as it was: no workspace has been created.) *)
Theorem workspace_always_reaped code l v w :
  match findNodeModulesRootIn env (fs w) with
  | inl e => convertZodSchema env code l v w = (inl e, w)
  | inr root =>
      exists res w1 w',
        convertGuarded env root code l v w = (inr res, w1)
        /\ convertZodSchema env code l v w = (inr res, w')
        /\ events w' = events w1 ++ [EvFs (OpRm (tempDirOf env))]
        /\ match fault env (OpRm (tempDirOf env)) with
           | None => vacant (fs w') (tempDirOf env) /\ console w' = console w1
           | Some e =>
               console w'
               = console w1 ++ [ConsoleWarn (js "Failed to delete temporary files:") e]
           end
  end.
Proof.
  destruct (findNodeModulesRootIn env (fs w)) as [e|root] eqn:Hroot.
  - now apply convertZodSchema_rejects.
  - destruct (convertGuarded_returns env root code l v w) as (res & w1 & Hg).
    destruct (convert_of_guarded root code l v w res w1 Hroot Hg) as (w' & Hrun & Hev & Hfs).
    exists res, w1, w'. repeat split; try assumption.
    destruct (fault env (OpRm (tempDirOf env))) as [e|].
    + tauto.
    + destruct Hfs as [-> ->]. split; [apply rmRec_vacant | reflexivity].
Qed.
End Early.

Section Batch.

Lemma addBinding_slot l st result :
  bodyOutputs (addBinding l st result) = bodyOutputs st ++ [slotOf l result].
Proof. unfold addBinding, slotOf. destruct (result.2); reflexivity. Qed.

Lemma batchOf_slots l results : forall st,
  bodyOutputs (batchOf l results st) = bodyOutputs st ++ List.map (slotOf l) results.
Proof.
  unfold batchOf.
  induction results as [|result results IH]; intros st; simpl.
  - now rewrite app_nil_r.
  - rewrite IH, addBinding_slot, <- app_assoc. reflexivity.
Qed.
End Batch.

Section Whole.
Context `{Delegate}.
Variable env : Env.

Lemma runBindings_names file l names : forall fs,
  List.map fst (outcomesOf file l names fs) = names.
Proof.
  unfold outcomesOf.
  induction names as [|name names IH]; intros fs; cbn [runBindings fst snd List.map];
    [reflexivity | now rewrite IH].
Qed.

Lemma withDirs_installed (root : path) (v : zodVersion) (fs : FS) :
  existsSync fs (zodVersionPathOf root v) = true ->
  existsSync (withDirs env fs) (zodVersionPathOf root v) = true.
Proof. apply existsSync_more. intros q x. apply withDirs_keeps. Qed.

(** A run whose setup succeeds: the output is assembled from the outcomes
    of the bindings, and the delegate calls are those of the loop. *)
Lemma convert_output root code l v w transpiled :
  quiet env ->
  findNodeModulesRootIn env (fs w) = inr root ->
  length (exported (detectAllZodSchemas code)) <> 0 ->
  length (exported (detectAllZodSchemas code)) <= 10 ->
  existsSync (fs w) (zodVersionPathOf root v) = true ->
  transpileModule code = inr transpiled ->
  exists w' w1 before,
    convertZodSchema env code l v w
    = (inr (ROutput (finalOutput l (nonExported (detectAllZodSchemas code))
              (batchOf l
                 (outcomesOf (tempFileOf env) l (exported (detectAllZodSchemas code))
                    (prepared env root v transpiled (fs w)))
                 batchStart))), w')
    /\ events w'
       = before
         ++ loopEvents (tempFileOf env) l (exported (detectAllZodSchemas code))
              (prepared env root v transpiled (fs w))
         ++ [EvFs (OpRm (tempDirOf env))]
    /\ fs w1 = (runBindings (tempFileOf env) l (exported (detectAllZodSchemas code))
                  (prepared env root v transpiled (fs w))).2
    /\ match fault env (OpRm (tempDirOf env)) with
       | None => fs w' = rmRec (tempDirOf env) (fs w1)
       | Some _ => fs w' = fs w1
       end.
Proof.
  intros Hquiet Hroot Hn0 Hn10 Hx Ht.
  pose proof (withDirs_installed root v (fs w) Hx) as Hv.
  destruct (convertBody_quiet env Hquiet root code l v w) as (w1 & Hb & Hev).
  destruct (Hev transpiled Hn0 Hn10 Hv Ht) as (before & Hev1 & Hfs1).
  assert (Hout : bodyOutcome env root code l v (fs w)
                 = inr (ROutput (finalOutput l (nonExported (detectAllZodSchemas code))
                          (batchOf l
                             (outcomesOf (tempFileOf env) l (exported (detectAllZodSchemas code))
                                (prepared env root v transpiled (fs w)))
                             batchStart)))).
  { unfold bodyOutcome.
    destruct (Nat.eqb_spec (length (exported (detectAllZodSchemas code))) 0); [lia|].
    destruct (Nat.ltb_spec 10 (length (exported (detectAllZodSchemas code)))); [lia|].
    rewrite Hv, Ht. reflexivity. }
  rewrite Hout in Hb.
  destruct (convert_of_guarded env root code l v w _ w1 Hroot
              (guarded_of_body env _ _ _ _ _ _ _ Hb)) as (w' & Hrun & Hevr & Hfsr).
  exists w', w1, before. split; [exact Hrun|]. split; [|split; [exact Hfs1|]].
  - rewrite Hevr, Hev1, <- app_assoc. reflexivity.
  - destruct (fault env (OpRm (tempDirOf env))); tauto.
Qed.
End Whole.

Section Agreement.
Context `{Delegate}.

Lemma zodVersionPath_check (env : Env) (root : path) (v : zodVersion) (fs : FS) :
  ¬ zodVersionPathOf root v `prefix_of` tmpdir env ->
  (forall target, fs !! zodVersionPathOf root v = Some (Link target) ->
     existsSync fs (zodVersionPathOf root v) = true) ->
  existsSync (withDirs env fs) (zodVersionPathOf root v)
  = existsSync fs (zodVersionPathOf root v).
Proof.
  intros Hout Hlink. pose proof (zodVersionPath_outside env root v Hout) as Hout2.
  destruct (fs !! zodVersionPathOf root v) as [x|] eqn:Hx.
  - assert (Hyes : existsSync fs (zodVersionPathOf root v) = true).
    { destruct x as [|content|target]; [| |now apply (Hlink target)];
        (eapply existsSync_true; [exact Hx | discriminate]). }
    rewrite Hyes. apply (existsSync_more fs); [|exact Hyes].
    intros q y. apply withDirs_keeps.
  - transitivity false; [|symmetry]; apply existsSync_false;
      [apply withDirs_outside|]; assumption.
Qed.

(** C9, as amended.  Two invocations on the same triple, in the same process
    and on the same file system, whose workspace names differ (the clock and
    the random source differ), return the same result provided no
    file-system operation of the setup fails, the dependency path is not a
    symbolic link whose target is missing, and the outcomes of the delegate
    for the exported bindings are the same in both workspaces. *)
Theorem results_agree_across_workspaces envA envB code l v wA wB :
  quiet envA -> quiet envB ->
  moduleRootOverride envA = moduleRootOverride envB ->
  cwd envA = cwd envB ->
  moduleDir envA = moduleDir envB ->
  fs wA = fs wB ->
  (forall root, findNodeModulesRootIn envA (fs wA) = inr root ->
     ¬ zodVersionPathOf root v `prefix_of` tmpdir envA
     /\ ¬ zodVersionPathOf root v `prefix_of` tmpdir envB) ->
  (forall root target, findNodeModulesRootIn envA (fs wA) = inr root ->
     (fs wA : FS) !! zodVersionPathOf root v = Some (Link target) ->
     existsSync (fs wA) (zodVersionPathOf root v) = true) ->
  (forall root transpiled,
     findNodeModulesRootIn envA (fs wA) = inr root ->
     transpileModule code = inr transpiled ->
     outcomesOf (tempFileOf envA) l (exported (detectAllZodSchemas code))
       (prepared envA root v transpiled (fs wA))
     = outcomesOf (tempFileOf envB) l (exported (detectAllZodSchemas code))
         (prepared envB root v transpiled (fs wB))) ->
  (convertZodSchema envA code l v wA).1 = (convertZodSchema envB code l v wB).1.
Proof.
  intros HqA HqB Hover Hcwd Hdir Hfs Hout Hlink Hsame.
  rewrite (convertZodSchema_quiet envA HqA), (convertZodSchema_quiet envB HqB).
  unfold convertOutcome.
  assert (Hroot : findNodeModulesRootIn envB (fs wB) = findNodeModulesRootIn envA (fs wA)).
  { unfold findNodeModulesRootIn. rewrite Hover, Hcwd, Hdir, Hfs. reflexivity. }
  rewrite Hroot.
  destruct (findNodeModulesRootIn envA (fs wA)) as [e|root] eqn:HrootA; [reflexivity|].
  destruct (Hout root eq_refl) as [HoA HoB].
  assert (Hbody : bodyOutcome envA root code l v (fs wA)
                  = bodyOutcome envB root code l v (fs wB)).
  { unfold bodyOutcome.
    rewrite (zodVersionPath_check envA root v (fs wA) HoA (fun t => Hlink root t eq_refl)).
    rewrite <- Hfs.
    rewrite (zodVersionPath_check envB root v (fs wA) HoB (fun t => Hlink root t eq_refl)).
    destruct (length (exported (detectAllZodSchemas code)) =? 0)%nat; [reflexivity|].
    destruct (10 <? length (exported (detectAllZodSchemas code)))%nat; [reflexivity|].
    destruct (negb (existsSync (fs wA) (zodVersionPathOf root v))); [reflexivity|].
    destruct (transpileModule code) as [e|transpiled] eqn:Ht; [reflexivity|].
    rewrite (Hsame root transpiled eq_refl eq_refl), Hfs. reflexivity. }
  rewrite Hbody. reflexivity.
Qed.
End Agreement.

(** ** Enum blocks *)

Section PyBlocks.

Lemma pyEnumStep_header st hdr :
  isPyHeader hdr = true ->
  pyEnumStep st hdr =
    {| pyEnumMap := pyFlushed st; pyBodyLines := pyBodyLines st;
       pyCurrentEnum := Some [hdr]; pyEnumIndent := indentOf hdr;
       pyEnumSignature := []; pyInEnum := true |}.
Proof. unfold isPyHeader, pyEnumStep. intros ->. reflexivity. Qed.

Lemma pyEnumStep_inside m body block indent sig line :
  pyContinues indent line = true ->
  pyEnumStep {| pyEnumMap := m; pyBodyLines := body; pyCurrentEnum := Some block;
                pyEnumIndent := indent; pyEnumSignature := sig; pyInEnum := true |} line
  = {| pyEnumMap := m; pyBodyLines := body; pyCurrentEnum := Some (block ++ [line]);
       pyEnumIndent := indent;
       pyEnumSignature := extendSignature pyEnumValue (trim line) sig;
       pyInEnum := true |}.
Proof.
  unfold pyContinues, isPyHeader, pyEnumStep. intros Hc.
  apply andb_true_iff in Hc as [Hh Hl].
  apply negb_true_iff in Hh. apply negb_true_iff in Hl.
  rewrite Hh. simpl. rewrite Hl. reflexivity.
Qed.

Lemma pyEnumStep_close m body block indent sig line :
  pyCloses indent line = true ->
  pyEnumStep {| pyEnumMap := m; pyBodyLines := body; pyCurrentEnum := Some block;
                pyEnumIndent := indent; pyEnumSignature := sig; pyInEnum := true |} line
  = {| pyEnumMap := saveEnum (Some block) sig m; pyBodyLines := body ++ [line];
       pyCurrentEnum := None; pyEnumIndent := indent; pyEnumSignature := sig;
       pyInEnum := false |}.
Proof.
  unfold pyCloses, isPyHeader, pyEnumStep. intros Hc.
  apply andb_true_iff in Hc as [Hh Hl]. apply negb_true_iff in Hh.
  rewrite Hh. simpl. rewrite Hl. reflexivity.
Qed.

Lemma py_inside_run indent lines : forall m body block sig,
  Forall (fun line => pyContinues indent line = true) lines ->
  fold_left pyEnumStep lines
    {| pyEnumMap := m; pyBodyLines := body; pyCurrentEnum := Some block;
       pyEnumIndent := indent; pyEnumSignature := sig; pyInEnum := true |}
  = {| pyEnumMap := m; pyBodyLines := body; pyCurrentEnum := Some (block ++ lines);
       pyEnumIndent := indent; pyEnumSignature := signatureFrom pyEnumValue sig lines;
       pyInEnum := true |}.
Proof.
  induction lines as [|line lines IH]; intros m body block sig Hall; simpl.
  - now rewrite app_nil_r.
  - apply Forall_cons in Hall as [Hline Hall].
    rewrite pyEnumStep_inside by assumption.
    rewrite IH by assumption. rewrite <- app_assoc. reflexivity.
Qed.

(** The state once a header and the lines of its block have been read. *)
Lemma py_block_open st hdr block :
  isPyHeader hdr = true ->
  Forall (fun line => pyContinues (indentOf hdr) line = true) block ->
  fold_left pyEnumStep (hdr :: block) st
  = {| pyEnumMap := pyFlushed st; pyBodyLines := pyBodyLines st;
       pyCurrentEnum := Some (hdr :: block); pyEnumIndent := indentOf hdr;
       pyEnumSignature := signatureOf pyEnumValue block; pyInEnum := true |}.
Proof.
  intros Hh Hall. simpl. rewrite pyEnumStep_header by assumption.
  now rewrite py_inside_run.
Qed.

Lemma py_block_closed st hdr block stop :
  isPyHeader hdr = true ->
  Forall (fun line => pyContinues (indentOf hdr) line = true) block ->
  pyCloses (indentOf hdr) stop = true ->
  fold_left pyEnumStep (hdr :: block ++ [stop]) st
  = {| pyEnumMap := saveEnum (Some (hdr :: block)) (signatureOf pyEnumValue block) (pyFlushed st);
       pyBodyLines := pyBodyLines st ++ [stop];
       pyCurrentEnum := None; pyEnumIndent := indentOf hdr;
       pyEnumSignature := signatureOf pyEnumValue block; pyInEnum := false |}.
Proof.
  intros Hh Hall Hstop.
  change (hdr :: block ++ [stop]) with ((hdr :: block) ++ [stop]).
  rewrite fold_left_app. rewrite (py_block_open st hdr block Hh Hall). simpl.
  now rewrite pyEnumStep_close.
Qed.
End PyBlocks.

Section TsBlocks.

Lemma tsEnumStep_header st hdr :
  isTsHeader hdr = true ->
  tsEnumStep st hdr =
    {| tsEnumMap := tsFlushed st; tsBodyLines := tsBodyLines st;
       tsCurrentEnum := Some [hdr]; tsEnumSignature := [] |}.
Proof. unfold isTsHeader, tsEnumStep. intros ->. reflexivity. Qed.

Lemma tsEnumStep_inside m body block sig line :
  tsContinues line = true ->
  tsEnumStep {| tsEnumMap := m; tsBodyLines := body; tsCurrentEnum := Some block;
                tsEnumSignature := sig |} line
  = {| tsEnumMap := m; tsBodyLines := body; tsCurrentEnum := Some (block ++ [line]);
       tsEnumSignature := extendSignature tsEnumValue (trim line) sig |}.
Proof.
  unfold tsContinues, isTsHeader, tsEnumStep. intros Hc.
  apply andb_true_iff in Hc as [Hh Hl].
  apply negb_true_iff in Hh. apply negb_true_iff in Hl.
  rewrite Hh. simpl. rewrite Hl. reflexivity.
Qed.

Lemma tsEnumStep_close m body block sig line :
  tsCloses line = true ->
  tsEnumStep {| tsEnumMap := m; tsBodyLines := body; tsCurrentEnum := Some block;
                tsEnumSignature := sig |} line
  = {| tsEnumMap := saveEnum (Some (block ++ [line])) sig m; tsBodyLines := body;
       tsCurrentEnum := None; tsEnumSignature := sig |}.
Proof.
  unfold tsCloses, isTsHeader, tsEnumStep. intros Hc.
  apply andb_true_iff in Hc as [Hh Hl]. apply negb_true_iff in Hh.
  rewrite Hh. simpl. rewrite Hl. reflexivity.
Qed.

Lemma ts_inside_run lines : forall m body block sig,
  Forall (fun line => tsContinues line = true) lines ->
  fold_left tsEnumStep lines
    {| tsEnumMap := m; tsBodyLines := body; tsCurrentEnum := Some block;
       tsEnumSignature := sig |}
  = {| tsEnumMap := m; tsBodyLines := body; tsCurrentEnum := Some (block ++ lines);
       tsEnumSignature := signatureFrom tsEnumValue sig lines |}.
Proof.
  induction lines as [|line lines IH]; intros m body block sig Hall; simpl.
  - now rewrite app_nil_r.
  - apply Forall_cons in Hall as [Hline Hall].
    rewrite tsEnumStep_inside by assumption.
    rewrite IH by assumption. rewrite <- app_assoc. reflexivity.
Qed.

Lemma ts_block_open st hdr block :
  isTsHeader hdr = true ->
  Forall (fun line => tsContinues line = true) block ->
  fold_left tsEnumStep (hdr :: block) st
  = {| tsEnumMap := tsFlushed st; tsBodyLines := tsBodyLines st;
       tsCurrentEnum := Some (hdr :: block);
       tsEnumSignature := signatureOf tsEnumValue block |}.
Proof.
  intros Hh Hall. simpl. rewrite tsEnumStep_header by assumption.
  now rewrite ts_inside_run.
Qed.

Lemma ts_block_closed st hdr block close :
  isTsHeader hdr = true ->
  Forall (fun line => tsContinues line = true) block ->
  tsCloses close = true ->
  fold_left tsEnumStep (hdr :: block ++ [close]) st
  = {| tsEnumMap := saveEnum (Some (hdr :: block ++ [close])) (signatureOf tsEnumValue block)
                      (tsFlushed st);
       tsBodyLines := tsBodyLines st;
       tsCurrentEnum := None;
       tsEnumSignature := signatureOf tsEnumValue block |}.
Proof.
  intros Hh Hall Hclose.
  change (hdr :: block ++ [close]) with ((hdr :: block) ++ [close]).
  rewrite fold_left_app. rewrite (ts_block_open st hdr block Hh Hall). simpl.
  now rewrite tsEnumStep_close.
Qed.
End TsBlocks.

(** The two tests, spelled out: a line continues a class block when it is
    not a header and is blank, or deeper than the header, or begins like a
    string assignment; a line is inside a structural block when it is not a
    header and is not the closing brace. *)
Lemma pyContinues_spec enumIndent line :
  pyContinues enumIndent line
  = negb (isPyHeader line)
    && (negb (nonEmpty (trim line))
        || (enumIndent <? indentOf line)%nat
        || test pyAssignStart (trim line)).
Proof.
  unfold pyContinues, pyLeavesEnum. f_equal.
  rewrite !negb_andb, negb_involutive. f_equal. f_equal.
  destruct (Nat.leb_spec (indentOf line) enumIndent), (Nat.ltb_spec enumIndent (indentOf line));
    simpl; try reflexivity; lia.
Qed.

Lemma pyCloses_spec enumIndent line :
  pyCloses enumIndent line
  = negb (isPyHeader line)
    && (nonEmpty (trim line)
        && (indentOf line <=? enumIndent)%nat
        && negb (test pyAssignStart (trim line))).
Proof. reflexivity. Qed.

(** C6, as amended.  Class dialect: after a header line, the block takes
    every following line that is not a header and is blank, or indented
    deeper than the header, or begins like a string assignment (at any
    indentation); the first line that is not a header, not blank, indented
    no deeper than the header and does not begin like a string assignment
    ends the block and goes to the remaining body.  Structural dialect:
    after a header line, the block takes every following line that is not a
    header, up to and including the first line whose trimmed text is the
    closing brace; that line ends the block and does not go to the body. *)
Theorem enum_block_extent :
  (forall st hdr block stop,
     isPyHeader hdr = true ->
     Forall (fun line => pyContinues (indentOf hdr) line = true) block ->
     pyCloses (indentOf hdr) stop = true ->
     fold_left pyEnumStep (hdr :: block ++ [stop]) st
     = {| pyEnumMap := saveEnum (Some (hdr :: block)) (signatureOf pyEnumValue block)
                         (pyFlushed st);
          pyBodyLines := pyBodyLines st ++ [stop];
          pyCurrentEnum := None; pyEnumIndent := indentOf hdr;
          pyEnumSignature := signatureOf pyEnumValue block; pyInEnum := false |})
  /\ (forall st hdr block close,
        isTsHeader hdr = true ->
        Forall (fun line => tsContinues line = true) block ->
        tsCloses close = true ->
        fold_left tsEnumStep (hdr :: block ++ [close]) st
        = {| tsEnumMap := saveEnum (Some (hdr :: block ++ [close]))
                            (signatureOf tsEnumValue block) (tsFlushed st);
             tsBodyLines := tsBodyLines st;
             tsCurrentEnum := None;
             tsEnumSignature := signatureOf tsEnumValue block |}).
Proof.
  split.
  - intros. now apply py_block_closed.
  - intros. now apply ts_block_closed.
Qed.

(** A block without string-valued members has the empty signature. *)
Lemma signatureFrom_noValue valueRegex block : forall sig,
  Forall (noValue valueRegex) block ->
  signatureFrom valueRegex sig block = sig.
Proof.
  unfold signatureFrom.
  induction block as [|line block IH]; intros sig Hall; simpl; [reflexivity|].
  apply Forall_cons in Hall as [Hline Hall].
  unfold extendSignature at 2. unfold noValue in Hline. rewrite Hline. now apply IH.
Qed.



(** ** The enum registry *)

Lemma eqs_true a b : eqs a b = true <-> a = b.
Proof. unfold eqs. apply bool_decide_eq_true. Qed.

Lemma eqs_false a b : eqs a b = false <-> a <> b.
Proof. unfold eqs. apply bool_decide_eq_false. Qed.

Lemma eqs_refl a : eqs a a = true.
Proof. now apply eqs_true. Qed.

Section Registry.

Lemma mapHas_get (sig : jsstring) (m : EnumMap) :
  mapHas sig m = true <-> is_Some (mapGet sig m).
Proof.
  unfold mapHas, mapGet. induction m as [|e m IH]; simpl.
  - split; [discriminate | intros [x Hx]; discriminate].
  - destruct (eqs e.1 sig); simpl; [split; eauto | exact IH].
Qed.

Lemma mapHas_false_get (sig : jsstring) (m : EnumMap) :
  mapHas sig m = false <-> mapGet sig m = None.
Proof.
  rewrite eq_None_not_Some, <- mapHas_get. destruct (mapHas sig m); split; congruence.
Qed.

Lemma mapHas_keys (sig : jsstring) (m : EnumMap) :
  mapHas sig m = true <-> sig ∈ mapKeys m.
Proof.
  unfold mapHas, mapKeys. induction m as [|e m IH]; simpl.
  - split; [discriminate | intros Hin; inversion Hin].
  - rewrite orb_true_iff, IH, elem_of_cons, eqs_true. split; intros [?|?]; auto.
Qed.

Lemma mapSet_fresh (sig def : jsstring) (m : EnumMap) :
  mapHas sig m = false -> mapSet sig def m = m ++ [(sig, def)].
Proof.
  unfold mapHas. induction m as [|e m IH]; simpl; [reflexivity|].
  intros Hno. apply orb_false_iff in Hno as [He Hm].
  rewrite He, IH by assumption. reflexivity.
Qed.

Lemma register_spec (sig def : jsstring) (m : EnumMap) :
  register sig def m = if mapHas sig m then m else m ++ [(sig, def)].
Proof.
  unfold register. destruct (mapHas sig m) eqn:Hhas; [reflexivity|].
  now apply mapSet_fresh.
Qed.

Lemma mapGet_snoc (s k v : jsstring) (m : EnumMap) :
  mapGet s (m ++ [(k, v)])
  = match mapGet s m with
    | Some d => Some d
    | None => if eqs k s then Some v else None
    end.
Proof.
  unfold mapGet. induction m as [|e m IH]; simpl.
  - destruct (eqs k s); reflexivity.
  - destruct (eqs e.1 s); simpl; [reflexivity | exact IH].
Qed.

Lemma mapGet_register (s k v : jsstring) (m : EnumMap) :
  mapGet s (register k v m)
  = match mapGet s m with
    | Some d => Some d
    | None => if eqs k s then Some v else None
    end.
Proof.
  rewrite register_spec. destruct (mapHas k m) eqn:Hhas.
  - destruct (mapGet s m) eqn:Hget; [reflexivity|].
    destruct (eqs k s) eqn:Hks; [|reflexivity].
    apply eqs_true in Hks as ->. apply mapHas_get in Hhas as [x Hx]. congruence.
  - apply mapGet_snoc.
Qed.

Lemma mapGet_mergeEnums (s : jsstring) (found : EnumMap) : forall m : EnumMap,
  mapGet s (mergeEnums found m)
  = match mapGet s m with
    | Some d => Some d
    | None => mapGet s found
    end.
Proof.
  unfold mergeEnums.
  induction found as [|[k v] found IH]; intros m; simpl.
  - destruct (mapGet s m); reflexivity.
  - rewrite IH, mapGet_register. simpl.
    destruct (mapGet s m); [reflexivity|].
    unfold mapGet at 2. simpl. destruct (eqs k s); reflexivity.
Qed.

Lemma register_keys_NoDup (k v : jsstring) (m : EnumMap) :
  NoDup (mapKeys m) -> NoDup (mapKeys (register k v m)).
Proof.
  intros Hnd. rewrite register_spec. destruct (mapHas k m) eqn:Hhas; [assumption|].
  unfold mapKeys. rewrite map_app. simpl.
  apply NoDup_app. split; [exact Hnd|]. split.
  - intros x Hx Hin. apply list_elem_of_singleton in Hin as ->.
    apply mapHas_keys in Hx. congruence.
  - apply NoDup_singleton.
Qed.


Lemma definitionsFor_absent (s : jsstring) (m : EnumMap) :
  s ∉ mapKeys m -> definitionsFor s m = 0.
Proof.
  unfold definitionsFor, mapKeys. induction m as [|e m IH]; simpl; [reflexivity|].
  intros Hno. rewrite not_elem_of_cons in Hno. destruct Hno as [Hne Hno].
  destruct (eqs e.1 s) eqn:He; [apply eqs_true in He; congruence|].
  now apply IH.
Qed.

Lemma definitionsFor_one (s : jsstring) (m : EnumMap) :
  NoDup (mapKeys m) -> s ∈ mapKeys m -> definitionsFor s m = 1.
Proof.
  unfold definitionsFor, mapKeys. induction m as [|e m IH]; simpl.
  - intros _ Hin. inversion Hin.
  - intros Hnd Hin. apply NoDup_cons in Hnd as [Hfresh Hnd].
    destruct (eqs e.1 s) eqn:He.
    + apply eqs_true in He. subst s. simpl.
      pose proof (definitionsFor_absent e.1 m Hfresh) as H0.
      unfold definitionsFor in H0. rewrite H0. reflexivity.
    + apply eqs_false in He. apply elem_of_cons in Hin as [?|Hin]; [congruence|].
      now apply IH.
Qed.

Lemma definitionsFor_le_one (s : jsstring) (m : EnumMap) :
  NoDup (mapKeys m) -> definitionsFor s m <= 1.
Proof.
  intros Hnd. destruct (decide (s ∈ mapKeys m)) as [Hin|Hno].
  - now rewrite definitionsFor_one.
  - rewrite definitionsFor_absent by assumption. lia.
Qed.

Lemma grows_refl m : grows m m.
Proof. intros s Hs. exact Hs. Qed.

Lemma grows_trans m1 m2 m3 : grows m1 m2 -> grows m2 m3 -> grows m1 m3.
Proof. intros H12 H23 s Hs. auto. Qed.

Lemma register_grows k v m : grows m (register k v m).
Proof.
  intros s Hs. rewrite register_spec. destruct (mapHas k m); [assumption|].
  unfold mapHas in *. rewrite existsb_app, Hs. reflexivity.
Qed.

Lemma register_has k v m : mapHas k (register k v m) = true.
Proof.
  rewrite register_spec. destruct (mapHas k m) eqn:Hhas; [assumption|].
  unfold mapHas. rewrite existsb_app. simpl. rewrite eqs_refl, orb_true_r. reflexivity.
Qed.

Lemma saveEnum_grows block sig m : grows m (saveEnum block sig m).
Proof.
  unfold saveEnum. destruct block; [|apply grows_refl].
  destruct (nonEmpty sig); [apply register_grows | apply grows_refl].
Qed.

Lemma saveEnum_has block sig m :
  sig <> [] -> mapHas sig (saveEnum (Some block) sig m) = true.
Proof.
  intros Hsig. unfold saveEnum. destruct sig; [congruence|]. simpl. apply register_has.
Qed.

Lemma saveEnum_keys_NoDup block sig m :
  NoDup (mapKeys m) -> NoDup (mapKeys (saveEnum block sig m)).
Proof.
  intros Hnd. unfold saveEnum. destruct block; [|assumption].
  destruct (nonEmpty sig); [now apply register_keys_NoDup | assumption].
Qed.
End Registry.

Section Growth.

Lemma pyEnumStep_grows st line : grows (pyEnumMap st) (pyEnumMap (pyEnumStep st line)).
Proof.
  unfold pyEnumStep.
  destruct (test pyEnumHeader (trim line)); cbn [pyEnumMap tsEnumMap]; [apply saveEnum_grows|].
  destruct (pyInEnum st), (pyCurrentEnum st); cbn [pyEnumMap tsEnumMap]; try apply grows_refl.
  destruct (pyLeavesEnum (pyEnumIndent st) line); cbn [pyEnumMap tsEnumMap];
    [apply saveEnum_grows | apply grows_refl].
Qed.

Lemma pyEnumRun_grows lines : forall st,
  grows (pyEnumMap st) (pyEnumMap (fold_left pyEnumStep lines st)).
Proof.
  induction lines as [|line lines IH]; intros st; cbn [pyEnumMap tsEnumMap]; [apply grows_refl|].
  eapply grows_trans; [apply pyEnumStep_grows | apply IH].
Qed.

Lemma pyEnumFinish_grows st : grows (pyEnumMap st) (enums (pyEnumFinish st)).
Proof. unfold pyEnumFinish; cbn [pyEnumMap tsEnumMap]. apply saveEnum_grows. Qed.

Lemma tsEnumStep_grows st line : grows (tsEnumMap st) (tsEnumMap (tsEnumStep st line)).
Proof.
  unfold tsEnumStep.
  destruct (test tsEnumHeader (trim line)); cbn [pyEnumMap tsEnumMap]; [apply saveEnum_grows|].
  destruct (tsCurrentEnum st); cbn [pyEnumMap tsEnumMap]; try apply grows_refl.
  destruct (eqs (trim line) (js "}")); cbn [pyEnumMap tsEnumMap]; [apply saveEnum_grows | apply grows_refl].
Qed.

Lemma tsEnumRun_grows lines : forall st,
  grows (tsEnumMap st) (tsEnumMap (fold_left tsEnumStep lines st)).
Proof.
  induction lines as [|line lines IH]; intros st; cbn [pyEnumMap tsEnumMap]; [apply grows_refl|].
  eapply grows_trans; [apply tsEnumStep_grows | apply IH].
Qed.

Lemma tsEnumFinish_grows st : grows (tsEnumMap st) (enums (tsEnumFinish st)).
Proof. unfold tsEnumFinish; cbn [pyEnumMap tsEnumMap]. apply saveEnum_grows. Qed.

Lemma pyEnumStep_keys st line :
  NoDup (mapKeys (pyEnumMap st)) -> NoDup (mapKeys (pyEnumMap (pyEnumStep st line))).
Proof.
  intros Hnd. unfold pyEnumStep.
  destruct (test pyEnumHeader (trim line)); cbn [pyEnumMap tsEnumMap]; [now apply saveEnum_keys_NoDup|].
  destruct (pyInEnum st), (pyCurrentEnum st); cbn [pyEnumMap tsEnumMap]; try assumption.
  destruct (pyLeavesEnum (pyEnumIndent st) line); cbn [pyEnumMap tsEnumMap];
    [now apply saveEnum_keys_NoDup | assumption].
Qed.

Lemma tsEnumStep_keys st line :
  NoDup (mapKeys (tsEnumMap st)) -> NoDup (mapKeys (tsEnumMap (tsEnumStep st line))).
Proof.
  intros Hnd. unfold tsEnumStep.
  destruct (test tsEnumHeader (trim line)); cbn [pyEnumMap tsEnumMap]; [now apply saveEnum_keys_NoDup|].
  destruct (tsCurrentEnum st); cbn [pyEnumMap tsEnumMap]; try assumption.
  destruct (eqs (trim line) (js "}")); cbn [pyEnumMap tsEnumMap];
    [now apply saveEnum_keys_NoDup | assumption].
Qed.

(** Neither extractor returns two definitions under one signature. *)
Lemma extractEnums_keys_NoDup l bodyText :
  NoDup (mapKeys (enums (extractEnums l bodyText))).
Proof.
  destruct l; simpl.
  - unfold extractPythonEnums, pyEnumLines, pyEnumFinish; simpl.
    apply saveEnum_keys_NoDup.
    assert (Hgen : forall lines st, NoDup (mapKeys (pyEnumMap st)) ->
              NoDup (mapKeys (pyEnumMap (fold_left pyEnumStep lines st)))).
    { induction lines as [|line lines IH]; intros st Hst; simpl; [assumption|].
      apply IH. now apply pyEnumStep_keys. }
    apply Hgen. apply NoDup_nil_2.
  - unfold extractTypeScriptEnums, tsEnumLines, tsEnumFinish; simpl.
    apply saveEnum_keys_NoDup.
    assert (Hgen : forall lines st, NoDup (mapKeys (tsEnumMap st)) ->
              NoDup (mapKeys (tsEnumMap (fold_left tsEnumStep lines st)))).
    { induction lines as [|line lines IH]; intros st Hst; simpl; [assumption|].
      apply IH. now apply tsEnumStep_keys. }
    apply Hgen. apply NoDup_nil_2.
Qed.

(** A block with a non-empty signature reaches the binding's registry. *)
Lemma py_block_registered lines hdr block :
  pyBlockIn lines hdr block ->
  signatureOf pyEnumValue block <> [] ->
  mapHas (signatureOf pyEnumValue block) (enums (pyEnumLines lines)) = true.
Proof.
  intros (before & after & -> & Hh & Hall & Hafter) Hsig.
  unfold pyEnumLines.
  rewrite fold_left_app.
  change (hdr :: block ++ after) with ((hdr :: block) ++ after).
  rewrite fold_left_app.
  rewrite (py_block_open _ hdr block Hh Hall).
  destruct after as [|next rest].
  - simpl. unfold pyEnumFinish; simpl. now apply saveEnum_has.
  - simpl. apply pyEnumFinish_grows, pyEnumRun_grows.
    unfold pyContinues in Hafter.
    destruct (isPyHeader next) eqn:Hnext.
    + rewrite pyEnumStep_header by assumption. simpl.
      unfold pyFlushed; simpl. now apply saveEnum_has.
    + simpl in Hafter. apply negb_false_iff in Hafter.
      rewrite pyEnumStep_close.
      * simpl. now apply saveEnum_has.
      * unfold pyCloses. rewrite Hnext, Hafter. reflexivity.
Qed.

Lemma ts_block_registered lines hdr block :
  tsBlockIn lines hdr block ->
  signatureOf tsEnumValue block <> [] ->
  mapHas (signatureOf tsEnumValue block) (enums (tsEnumLines lines)) = true.
Proof.
  intros (before & after & -> & Hh & Hall & Hafter) Hsig.
  unfold tsEnumLines.
  rewrite fold_left_app.
  change (hdr :: block ++ after) with ((hdr :: block) ++ after).
  rewrite fold_left_app.
  rewrite (ts_block_open _ hdr block Hh Hall).
  destruct after as [|next rest].
  - simpl. unfold tsEnumFinish; simpl. now apply saveEnum_has.
  - simpl. apply tsEnumFinish_grows, tsEnumRun_grows.
    unfold tsContinues in Hafter.
    destruct (isTsHeader next) eqn:Hnext.
    + rewrite tsEnumStep_header by assumption. simpl.
      unfold tsFlushed; simpl. now apply saveEnum_has.
    + simpl in Hafter. apply negb_false_iff in Hafter.
      rewrite tsEnumStep_close.
      * simpl. now apply saveEnum_has.
      * unfold tsCloses. rewrite Hnext, Hafter. reflexivity.
Qed.

Lemma block_registered l bodyText sig :
  hasEnumBlock l bodyText sig -> sig <> [] ->
  mapHas sig (enums (extractEnums l bodyText)) = true.
Proof.
  destruct l; simpl; intros (hdr & block & Hin & <-) Hsig.
  - now apply py_block_registered with (hdr := hdr).
  - now apply ts_block_registered with (hdr := hdr).
Qed.
End Growth.

Section Dedup.
Variable l : language.

Lemma allEnums_addBinding st result :
  allEnums (addBinding l st result) = mergeEnums (enumsOf l result.2) (allEnums st).
Proof. unfold addBinding, enumsOf. destruct (result.2); reflexivity. Qed.

Lemma batchOf_lookup s results : forall st,
  mapGet s (allEnums (batchOf l results st))
  = match mapGet s (allEnums st) with
    | Some d => Some d
    | None => firstDefinition l s results
    end.
Proof.
  unfold batchOf.
  induction results as [|result results IH]; intros st; simpl.
  - destruct (mapGet s (allEnums st)); reflexivity.
  - rewrite IH, allEnums_addBinding, mapGet_mergeEnums.
    destruct (mapGet s (allEnums st)); [reflexivity|].
    destruct (mapGet s (enumsOf l result.2)); reflexivity.
Qed.


End Dedup.

(** ** The import merge of the structural dialect *)

Lemma arrIncludes_true (l : list jsstring) (x : jsstring) :
  arrIncludes l x = true <-> x ∈ l.
Proof.
  unfold arrIncludes. induction l as [|y l IH]; simpl.
  - split; [discriminate | intros Hin; inversion Hin].
  - rewrite orb_true_iff, IH, elem_of_cons, eqs_true. reflexivity.
Qed.

Lemma arrIncludes_false (l : list jsstring) (x : jsstring) :
  arrIncludes l x = false <-> x ∉ l.
Proof.
  rewrite <- arrIncludes_true. destruct (arrIncludes l x); split; congruence.
Qed.

Lemma fold_left_nested {A B} (g : A -> B -> A) (ls : list (list B)) : forall a,
  fold_left (fun a l => fold_left g l a) ls a = fold_left g (List.concat ls) a.
Proof.
  induction ls as [|l ls IH]; intros a; simpl; [reflexivity|].
  rewrite fold_left_app. apply IH.
Qed.

Section TsMerge.

Lemma tsImportLines_run lines : forall (keys : list jsstring) (kept : list jsstring),
  merged (fold_left tsImportLine lines {| seen := list_to_set keys; merged := kept |})
  = kept ++ dedupTrimmed keys lines.
Proof.
  induction lines as [|line lines IH]; intros keys kept; simpl.
  - now rewrite app_nil_r.
  - unfold tsImportLine at 2. simpl.
    destruct (arrIncludes keys (trim line)) eqn:Hseen.
    + apply arrIncludes_true in Hseen.
      rewrite bool_decide_eq_true_2 by now apply elem_of_list_to_set.
      apply IH.
    + apply arrIncludes_false in Hseen.
      rewrite bool_decide_eq_false_2 by now rewrite elem_of_list_to_set.
      change ({[trim line]} ∪ list_to_set keys : gset jsstring)
        with (list_to_set (trim line :: keys) : gset jsstring).
      rewrite IH, <- app_assoc. reflexivity.
Qed.

Lemma mergeTypeScriptImports_spec importArrays :
  mergeTypeScriptImports importArrays = dedupTrimmed [] (List.concat importArrays).
Proof.
  unfold mergeTypeScriptImports. rewrite fold_left_nested.
  change (∅ : gset jsstring) with (list_to_set [] : gset jsstring).
  now rewrite tsImportLines_run.
Qed.

Lemma dedupTrimmed_keys lines : forall keys line,
  line ∈ dedupTrimmed keys lines -> trim line ∉ keys.
Proof.
  induction lines as [|x lines IH]; intros keys line Hin; simpl in Hin; [inversion Hin|].
  destruct (arrIncludes keys (trim x)) eqn:Hseen.
  - now apply IH.
  - apply arrIncludes_false in Hseen. apply elem_of_cons in Hin as [->|Hin]; [assumption|].
    apply IH in Hin. intros Hk. apply Hin. now right.
Qed.

Lemma dedupTrimmed_NoDup lines : forall keys,
  NoDup (List.map trim (dedupTrimmed keys lines)).
Proof.
  induction lines as [|x lines IH]; intros keys; simpl; [apply NoDup_nil_2|].
  destruct (arrIncludes keys (trim x)); [apply IH|].
  simpl. apply NoDup_cons_2; [|apply IH].
  intros Hin. apply list_elem_of_In, in_map_iff in Hin as (y & Hy & Hin).
  apply list_elem_of_In, dedupTrimmed_keys in Hin. apply Hin. rewrite Hy. now left.
Qed.

Lemma dedupTrimmed_covers lines : forall keys line,
  line ∈ lines ->
  trim line ∈ keys \/ trim line ∈ List.map trim (dedupTrimmed keys lines).
Proof.
  induction lines as [|x lines IH]; intros keys line Hin; [inversion Hin|].
  simpl. apply elem_of_cons in Hin as [->|Hin].
  - destruct (arrIncludes keys (trim x)) eqn:Hseen.
    + left. now apply arrIncludes_true.
    + right. simpl. now left.
  - destruct (arrIncludes keys (trim x)) eqn:Hseen; [now apply IH|].
    destruct (IH (trim x :: keys) line Hin) as [Hk|Hk].
    + apply elem_of_cons in Hk as [Hk|Hk]; [|now left].
      right. simpl. rewrite Hk. now left.
    + right. simpl. now right.
Qed.

Lemma dedupTrimmed_sublist lines : forall keys,
  dedupTrimmed keys lines `sublist_of` lines.
Proof.
  induction lines as [|x lines IH]; intros keys; simpl; [constructor|].
  destruct (arrIncludes keys (trim x)).
  - apply sublist_cons, IH.
  - apply sublist_skip, IH.
Qed.

Lemma dedupTrimmed_first lines : forall keys line,
  line ∈ dedupTrimmed keys lines ->
  exists before after,
    lines = before ++ line :: after
    /\ trim line ∉ List.map trim before.
Proof.
  induction lines as [|x lines IH]; intros keys line Hin; simpl in Hin; [inversion Hin|].
  destruct (arrIncludes keys (trim x)) eqn:Hseen.
  - pose proof (dedupTrimmed_keys _ _ _ Hin) as Hk.
    destruct (IH keys line Hin) as (before & after & -> & Hno).
    exists (x :: before), after. split; [reflexivity|].
    simpl. intros Hc. apply elem_of_cons in Hc as [Hc|Hc]; [|contradiction].
    apply arrIncludes_true in Hseen. rewrite <- Hc in Hseen. contradiction.
  - apply elem_of_cons in Hin as [->|Hin].
    + exists [], lines. split; [reflexivity|]. intros Hc. inversion Hc.
    + pose proof (dedupTrimmed_keys _ _ _ Hin) as Hk.
      destruct (IH _ line Hin) as (before & after & -> & Hno).
      exists (x :: before), after. split; [reflexivity|].
      simpl. intros Hc. apply elem_of_cons in Hc as [Hc|Hc]; [|contradiction].
      apply Hk. rewrite Hc. now left.
Qed.

(** C7, as amended.  The merged import list of the structural dialect keeps,
    for every trimmed line text, the first line with that text, as it is
    written: the trimmed texts of the result are pairwise different, the
    result is a subsequence of the concatenated import blocks (no line is
    split, merged or moved), every input line's trimmed text is represented,
    and a kept line is the first of its trimmed text. *)
Theorem typescript_imports_deduplicated_by_trimmed_text importArrays :
  mergeTypeScriptImports importArrays = dedupTrimmed [] (List.concat importArrays)
  /\ NoDup (List.map trim (mergeTypeScriptImports importArrays))
  /\ mergeTypeScriptImports importArrays `sublist_of` List.concat importArrays
  /\ (forall line, line ∈ List.concat importArrays ->
        trim line ∈ List.map trim (mergeTypeScriptImports importArrays))
  /\ (forall line, line ∈ mergeTypeScriptImports importArrays ->
        exists before after,
          List.concat importArrays = before ++ line :: after
          /\ trim line ∉ List.map trim before).
Proof.
  rewrite mergeTypeScriptImports_spec. split; [reflexivity|].
  split; [apply dedupTrimmed_NoDup|].
  split; [apply dedupTrimmed_sublist|].
  split.
  - intros line Hin. destruct (dedupTrimmed_covers _ [] line Hin) as [Hk|Hk];
      [inversion Hk | exact Hk].
  - intros line Hin. now apply dedupTrimmed_first with (keys := []).
Qed.
End TsMerge.

(** C7: two import lines that differ only by a trailing carriage return are
    different line texts, and the merge keeps one of them. *)
Lemma typescript_imports_not_by_exact_text :
  mergeTypeScriptImports
    [[js "import { A } from './a';"]; [js "import { A } from './a';" ++ [13%N]]]
  <> dedupExact []
       (List.concat [[js "import { A } from './a';"]; [js "import { A } from './a';" ++ [13%N]]]).
Proof. vm_compute. discriminate. Qed.

(** ** The matcher *)

Lemma stripPrefix_spec l : forall s s',
  stripPrefix l s = Some s' <-> s = l ++ s'.
Proof.
  induction l as [|a l IH]; intros s s'; simpl.
  - split; [intros [= ->]; reflexivity | intros ->; reflexivity].
  - destruct s as [|b s]; [split; discriminate|].
    destruct (N.eqb_spec a b) as [->|Hne].
    + rewrite IH. split; [intros ->; reflexivity | intros [= ->]; reflexivity].
    + split; [discriminate | intros [= ? ?]; congruence].
Qed.

Lemma stripPrefix_app l s : stripPrefix l (l ++ s) = Some s.
Proof. now apply stripPrefix_spec. Qed.

Lemma within_refl s : within s s.
Proof. exists [], []. now rewrite app_nil_r. Qed.


Lemma within_trans a b c : within a b -> within b c -> within a c.
Proof.
  intros (x & y & ->) (u & v & ->). exists (u ++ x), (y ++ v).
  now rewrite <- !app_assoc.
Qed.

Lemma within_take n s : within (take n s) s.
Proof. exists [], (drop n s). simpl. now rewrite take_drop. Qed.

Lemma within_drop n s : within (drop n s) s.
Proof. exists (take n s), []. now rewrite app_nil_r, take_drop. Qed.

Lemma within_cons x s : within s (x :: s).
Proof. exists [x], []. now rewrite app_nil_r. Qed.

Lemma within_Forall (P : char -> Prop) c s : within c s -> Forall P s -> Forall P c.
Proof.
  intros (a & b & ->) Hall.
  apply Forall_app in Hall as [_ Hall]. now apply Forall_app in Hall as [Hall _].
Qed.

Section Sound.
Context {R : Type}.

Lemma repGreedy_sound p : forall s least pos (k : nat -> jsstring -> option R) res,
  repGreedy p least pos s k = Some res ->
  exists n,
    n <= length s /\ least <= n
    /\ Forall (fun c => p c = true) (take n s)
    /\ k (pos + n) (drop n s) = Some res.
Proof.
  induction s as [|c s IH]; intros least pos k res Hrun; simpl in Hrun.
  - destruct least; [|discriminate]. exists 0. rewrite Nat.add_0_r.
    repeat split; auto.
  - destruct (p c) eqn:Hc.
    + destruct (repGreedy p (pred least) (S pos) s k) as [r|] eqn:Hrec.
      * injection Hrun as ->. apply IH in Hrec as (n & Hn & Hl & Hall & Hk).
        exists (S n). simpl. rewrite <- Nat.add_succ_comm.
        repeat split; [lia | lia | now constructor | assumption].
      * destruct least; [|discriminate]. exists 0. rewrite Nat.add_0_r.
        repeat split; auto; simpl; lia.
    + destruct least; [|discriminate]. exists 0. rewrite Nat.add_0_r.
      repeat split; auto; simpl; lia.
Qed.

(** A successful match calls its continuation on a suffix of the text, and
    every capture it adds is a piece of the text. *)
Lemma rmatch_sound r : forall pos s cs (k : nat -> jsstring -> caps -> option R) res,
  rmatch r pos s cs k = Some res ->
  exists n cs',
    n <= length s
    /\ k (pos + n) (drop n s) cs' = Some res
    /\ (forall e, e ∈ cs' -> e ∈ cs \/ within e.2 s).
Proof.
  induction r as [l|p|p|a IHa b IHb|a IHa b IHb|i a IHa| |];
    intros pos s cs k res Hrun; simpl in Hrun.
  - destruct (stripPrefix l s) as [s'|] eqn:Hl; [|discriminate].
    apply stripPrefix_spec in Hl as ->.
    exists (length l), cs. rewrite length_app, drop_app_length.
    repeat split; [lia | assumption | auto].
  - apply repGreedy_sound in Hrun as (n & Hn & _ & _ & Hk).
    exists n, cs. repeat split; auto.
  - apply repGreedy_sound in Hrun as (n & Hn & _ & _ & Hk).
    exists n, cs. repeat split; auto.
  - apply IHa in Hrun as (n1 & cs1 & Hn1 & Hrun & Hc1).
    apply IHb in Hrun as (n2 & cs2 & Hn2 & Hk & Hc2).
    rewrite length_drop in Hn2.
    exists (n1 + n2), cs2. rewrite drop_drop in Hk. rewrite Nat.add_assoc.
    repeat split; [lia | assumption |].
    intros e He. destruct (Hc2 e He) as [Hin|Hw].
    + apply Hc1 in Hin. exact Hin.
    + right. eapply within_trans; [exact Hw | apply within_drop].
  - destruct (rmatch a pos s cs k) as [x|] eqn:Ha.
    + injection Hrun as ->. now apply IHa in Ha.
    + now apply IHb in Hrun.
  - apply IHa in Hrun as (n & cs' & Hn & Hk & Hc).
    exists n, ((i, take (pos + n - pos) s) :: cs').
    repeat split; [assumption | assumption |].
    intros e He. apply elem_of_cons in He as [->|He]; [|now apply Hc].
    right. simpl. apply within_take.
  - destruct pos; [|discriminate]. exists 0, cs.
    repeat split; [lia | assumption | auto].
  - destruct s; [|discriminate]. exists 0, cs.
    repeat split; [simpl; lia | now rewrite Nat.add_0_r | auto].
Qed.
End Sound.

Lemma matchAt_sound r pos s m :
  matchAt r pos s = Some m ->
  exists n,
    n <= length s /\ mEnd m = pos + n /\ mRest m = drop n s
    /\ (forall e, e ∈ mCaps m -> within e.2 s).
Proof.
  unfold matchAt. intros Hrun.
  apply rmatch_sound in Hrun as (n & cs' & Hn & [= <-] & Hc). simpl.
  exists n. repeat split; auto.
  intros e He. destruct (Hc e He) as [Hin|Hw]; [inversion Hin | exact Hw].
Qed.

Lemma search_sound r : forall s pos st m,
  search r pos s = Some (st, m) ->
  exists j n,
    st = pos + j /\ j + n <= length s
    /\ mEnd m = st + n /\ mRest m = drop (j + n) s
    /\ matchAt r st (drop j s) = Some m
    /\ (forall e, e ∈ mCaps m -> within e.2 s).
Proof.
  induction s as [|c s IH]; intros pos st m Hrun; simpl in Hrun.
  - destruct (matchAt r pos []) as [m'|] eqn:Hm; [|discriminate].
    injection Hrun as <- <-. pose proof Hm as Hm'.
    apply matchAt_sound in Hm as (n & Hn & He & Hr & Hc).
    exists 0, n. rewrite Nat.add_0_r. repeat split; auto.
  - destruct (matchAt r pos (c :: s)) as [m'|] eqn:Hm.
    + injection Hrun as <- <-. pose proof Hm as Hm'.
      apply matchAt_sound in Hm as (n & Hn & He & Hr & Hc).
      exists 0, n. rewrite Nat.add_0_r. repeat split; auto.
    + apply IH in Hrun as (j & n & -> & Hjn & He & Hr & Hm' & Hc).
      exists (S j), n. simpl. repeat split; [lia | lia | | assumption | assumption |].
      * rewrite He. lia.
      * intros e Hin. eapply within_trans; [now apply Hc | apply within_cons].
Qed.



(** What the search leaves untouched and what it finds are pieces of the
    text, so a replacement only puts together characters of the text and of
    the replacement. *)
Lemma replaceFrom_Forall (P : char -> Prop) r repl : forall fuel pos s,
  Forall P s -> Forall P repl -> Forall P (replaceFrom fuel r repl pos s).
Proof.
  induction fuel as [|fuel IH]; intros pos s Hs Hrepl; simpl; [assumption|].
  destruct (search r pos s) as [[st m]|] eqn:Hsearch; [|assumption].
  apply search_sound in Hsearch as (j & n & -> & Hjn & He & Hr & _ & _).
  assert (Hrest : Forall P (mRest m)).
  { rewrite Hr. eapply within_Forall; [apply within_drop | assumption]. }
  apply Forall_app. split.
  - eapply within_Forall; [apply within_take | assumption].
  - apply Forall_app. split; [assumption|].
    destruct (Nat.eqb (mEnd m) (pos + j)).
    + destruct (mRest m) as [|c rest]; [constructor|].
      apply Forall_cons in Hrest as [Hc Hrest]. constructor; [assumption|].
      now apply IH.
    + now apply IH.
Qed.

Lemma replaceAll_Forall (P : char -> Prop) r repl s :
  Forall P s -> Forall P repl -> Forall P (replaceAll r repl s).
Proof. apply replaceFrom_Forall. Qed.




(** The fuel of the two global scans is never used up: any amount above the
    length of the text gives the same result. *)
Lemma replaceFrom_fuel r repl : forall fuel fuel' pos s,
  length s < fuel -> length s < fuel' ->
  replaceFrom fuel r repl pos s = replaceFrom fuel' r repl pos s.
Proof.
  induction fuel as [|fuel IH]; intros fuel' pos s Hf Hf'; [lia|].
  destruct fuel' as [|fuel']; [lia|]. simpl.
  destruct (search r pos s) as [[st m]|] eqn:Hsearch; [|reflexivity].
  apply search_sound in Hsearch as (j & n & -> & Hjn & He & Hr & _ & _).
  f_equal. f_equal.
  destruct (Nat.eqb_spec (mEnd m) (pos + j)) as [Heq|Hne].
  - destruct (mRest m) as [|c rest] eqn:Hrest; [reflexivity|].
    f_equal. apply IH.
    + assert (Hlen : length (c :: rest) <= length s)
        by (rewrite Hr, length_drop; lia).
      simpl in Hlen. lia.
    + assert (Hlen : length (c :: rest) <= length s)
        by (rewrite Hr, length_drop; lia).
      simpl in Hlen. lia.
  - assert (Hlen : length (mRest m) < length s)
      by (rewrite Hr, length_drop; lia).
    apply IH; lia.
Qed.

Lemma matchAllFrom_fuel r : forall fuel fuel' pos s,
  length s < fuel -> length s < fuel' ->
  matchAllFrom fuel r pos s = matchAllFrom fuel' r pos s.
Proof.
  induction fuel as [|fuel IH]; intros fuel' pos s Hf Hf'; [lia|].
  destruct fuel' as [|fuel']; [lia|]. simpl.
  destruct (search r pos s) as [[st m]|] eqn:Hsearch; [|reflexivity].
  apply search_sound in Hsearch as (j & n & -> & Hjn & He & Hr & _ & _).
  f_equal.
  destruct (Nat.eqb_spec (mEnd m) (pos + j)) as [Heq|Hne].
  - destruct (mRest m) as [|c rest] eqn:Hrest; [reflexivity|].
    assert (Hlen : length (c :: rest) <= length s)
      by (rewrite Hr, length_drop; lia).
    simpl in Hlen. apply IH; lia.
  - assert (Hlen : length (mRest m) < length s)
      by (rewrite Hr, length_drop; lia).
    apply IH; lia.
Qed.

(** ** The error formatter *)

Lemma exec_at r s cs :
  exec r s = Some cs ->
  exists j st m, matchAt r st (drop j s) = Some m /\ mCaps m = cs.
Proof.
  unfold exec. destruct (search r 0 s) as [[st m]|] eqn:Hs; [|discriminate].
  intros [= <-]. apply search_sound in Hs as (j & n & _ & _ & _ & _ & Hm & _).
  eauto.
Qed.

Lemma within_of_drop j (s piece rest : jsstring) :
  drop j s = piece ++ rest -> within piece s.
Proof.
  intros Hd. exists (take j s), rest. rewrite <- Hd. now rewrite take_drop.
Qed.

Lemma group_single i x : group i [(i, x)] = x.
Proof. unfold group, capture; simpl. now rewrite Nat.eqb_refl. Qed.

Lemma group_first x y : group 1 [(2, y); (1, x)] = x.
Proof. reflexivity. Qed.

Lemma group_second x y : group 2 [(2, y); (1, x)] = y.
Proof. reflexivity. Qed.

(** [z.<method> is not a function]: the method is a word, and the matched
    text is a piece of the message. *)
Lemma notFunction_match message cs :
  exec notFunctionRegex message = Some cs ->
  group 1 cs <> []
  /\ Forall (fun c => isWord c = true) (group 1 cs)
  /\ within (js "z." ++ group 1 cs ++ js " is not a function") message.
Proof.
  intros Hexec. apply exec_at in Hexec as (j & st & m & Hm & <-).
  unfold matchAt, notFunctionRegex, rseq in Hm. cbn [rmatch] in Hm.
  destruct (stripPrefix (js "z.") (drop j message)) as [s1|] eqn:H1; [|discriminate].
  apply stripPrefix_spec in H1.
  apply repGreedy_sound in Hm as (n & Hn & Hleast & Hword & Hk).
  destruct (stripPrefix (js " is not a function") (drop n s1)) as [s2|] eqn:H2; [|discriminate].
  apply stripPrefix_spec in H2. injection Hk as <-.
  cbn [mCaps]. rewrite group_single.
  match goal with
  | |- context [take ?a s1] => replace a with n by lia
  end.
  split; [|split].
  - destruct s1; [simpl in Hn; lia|]. destruct n; [lia | simpl; discriminate].
  - exact Hword.
  - apply (within_of_drop j _ _ s2). rewrite H1. rewrite <- (take_drop n s1) at 1.
    rewrite H2, <- !app_assoc. reflexivity.
Qed.

(** [Failed to import schema module \x22<path>\x22: <cause>]: the cause is
    what follows on the line; the quoted path is not part of it. *)
Lemma importFail_match message cs :
  exec importFailRegex message = Some cs ->
  group 1 cs <> [] /\ group 2 cs <> []
  /\ Forall (fun c => isNotQuote c = true) (group 1 cs)
  /\ Forall (fun c => isDot c = true) (group 2 cs)
  /\ within (js "Failed to import schema module " ++ dq ++ group 1 cs ++ dq ++ js ": "
             ++ group 2 cs) message.
Proof.
  intros Hexec. apply exec_at in Hexec as (j & st & m & Hm & <-).
  unfold matchAt, importFailRegex, rseq in Hm. cbn [rmatch] in Hm.
  destruct (stripPrefix (js "Failed to import schema module " ++ dq) (drop j message))
    as [s1|] eqn:H1; [|discriminate].
  apply stripPrefix_spec in H1.
  apply repGreedy_sound in Hm as (n & Hn & Hleast & Hpath & Hk).
  destruct (stripPrefix (dq ++ js ": ") (drop n s1)) as [s2|] eqn:H2; [|discriminate].
  apply stripPrefix_spec in H2.
  apply repGreedy_sound in Hk as (n2 & Hn2 & Hleast2 & Hcause & Hk).
  injection Hk as <-.
  cbn [mCaps]. rewrite group_first, group_second.
  match goal with
  | |- context [take ?a s1] => replace a with n by lia
  end.
  match goal with
  | |- context [take ?a s2] => replace a with n2 by lia
  end.
  split; [|split; [|split; [|split]]].
  - destruct s1; [simpl in Hn; lia|]. destruct n; [lia | simpl; discriminate].
  - destruct s2; [simpl in Hn2; lia|]. destruct n2; [lia | simpl; discriminate].
  - exact Hpath.
  - exact Hcause.
  - apply (within_of_drop j _ _ (drop n2 s2)). rewrite H1.
    rewrite <- (take_drop n s1) at 1. rewrite H2.
    rewrite <- (take_drop n2 s2) at 1. rewrite <- !app_assoc. reflexivity.
Qed.

(** ** What the fallback strips *)

Section Backtrack.
Context {R : Type}.

Lemma repGreedy_none p run : forall least pos post (k : nat -> jsstring -> option R),
  Forall (fun c => p c = true) run ->
  match post with [] => True | c :: _ => p c = false end ->
  (forall n, n <= length run -> k (pos + n) (drop n run ++ post) = None) ->
  repGreedy p least pos (run ++ post) k = None.
Proof.
  induction run as [|c run IH]; intros least pos post k Hrun Hpost Hfail.
  - simpl. specialize (Hfail 0 (Nat.le_refl 0)). rewrite Nat.add_0_r in Hfail.
    simpl in Hfail.
    destruct post as [|x post]; simpl.
    + destruct least; [exact Hfail | reflexivity].
    + rewrite Hpost. destruct least; [exact Hfail | reflexivity].
  - apply Forall_cons in Hrun as [Hc Hrun]. simpl. rewrite Hc.
    rewrite IH; [| assumption | assumption |].
    + specialize (Hfail 0 (Nat.le_0_l _)). rewrite Nat.add_0_r in Hfail.
      destruct least; [exact Hfail | reflexivity].
    + intros n Hn. specialize (Hfail (S n)). simpl in Hfail.
      rewrite <- Nat.add_succ_comm in Hfail. apply Hfail. lia.
Qed.

(** The repetition settles on the longest run after which the rest of the
    pattern matches. *)
Lemma repGreedy_backtrack p run :
  forall least pos post (k : nat -> jsstring -> option R) res n0,
  Forall (fun c => p c = true) run ->
  match post with [] => True | c :: _ => p c = false end ->
  least <= n0 -> n0 <= length run ->
  (forall n, n0 < n -> n <= length run -> k (pos + n) (drop n run ++ post) = None) ->
  k (pos + n0) (drop n0 run ++ post) = Some res ->
  repGreedy p least pos (run ++ post) k = Some res.
Proof.
  induction run as [|c run IH]; intros least pos post k res n0 Hrun Hpost Hl Hn Hfail Hok.
  - simpl in Hn. assert (n0 = 0) as -> by lia. assert (least = 0) as -> by lia.
    rewrite Nat.add_0_r in Hok. simpl in Hok.
    destruct post as [|x post]; simpl; [exact Hok|]. now rewrite Hpost.
  - apply Forall_cons in Hrun as [Hc Hrun]. simpl. rewrite Hc.
    destruct n0 as [|n0].
    + assert (least = 0) as -> by lia. rewrite Nat.add_0_r in Hok. simpl in Hok.
      rewrite repGreedy_none; [exact Hok | assumption | assumption |].
      intros n Hle. specialize (Hfail (S n)). simpl in Hfail.
      rewrite <- Nat.add_succ_comm in Hfail. apply Hfail; lia.
    + erewrite IH; [reflexivity | assumption | assumption | | | |].
      * instantiate (1 := n0). lia.
      * simpl in Hn. lia.
      * intros n Hlt Hle. specialize (Hfail (S n)). simpl in Hfail.
        rewrite <- Nat.add_succ_comm in Hfail. apply Hfail; lia.
      * simpl in Hok. rewrite <- Nat.add_succ_comm in Hok. exact Hok.
Qed.
End Backtrack.







Lemma search_hit r pos s m : matchAt r pos s = Some m -> search r pos s = Some (pos, m).
Proof. intros Hm. destruct s; simpl; rewrite Hm; reflexivity. Qed.












Section TopLevel.
Context `{Delegate}.



End TopLevel.


(** ** Concrete runs *)

Lemma demo_root : findNodeModulesRootIn Demo.env1 (fs Demo.boot) = inr [js "app"].
Proof. vm_compute. reflexivity. Qed.

Lemma demo_quiet clock rnd : quiet (Demo.process clock rnd Demo.noFault).
Proof. intros []; simpl; auto. Qed.

Lemma demo_vacant clock rnd :
  vacant Demo.installed (tempDirOf (Demo.process clock rnd Demo.noFault)).
Proof.
  intros q Hq. unfold Demo.installed.
  destruct q as [|seg q]; [now apply prefix_nil_not in Hq|].
  destruct Hq as [k Hk]. unfold tempDirOf, pjoin in Hk. simpl in Hk.
  injection Hk as -> Hk.
  destruct q as [|seg2 q]; [discriminate|].
  injection Hk as -> ->.
  repeat (rewrite lookup_insert_ne by (intros [=]; discriminate)).
  apply lookup_singleton_ne. intros [=].
Qed.

(** C8, on a run: a source with eleven exported bindings. *)
Lemma capacity_error_before_sandbox_witness :
  findNodeModulesRootIn Demo.env1 (fs Demo.boot) = inr [js "app"]
  /\ 10 < length (exported (detectAllZodSchemas Demo.elevenExports))
  /\ exists w',
       @convertZodSchema Demo.delegate Demo.env1 Demo.elevenExports pydantic V4 Demo.boot
       = (inr (RError (tooManyError (length (exported (detectAllZodSchemas Demo.elevenExports))))), w')
       /\ events w' = events Demo.boot ++ [EvFs (OpRm (tempDirOf Demo.env1))].
Proof.
  assert (Hroot := demo_root).
  assert (Hn : 10 < length (exported (detectAllZodSchemas Demo.elevenExports))).
  { vm_compute. lia. }
  split; [exact Hroot|]. split; [exact Hn|].
  exact (@capacity_error_before_sandbox Demo.delegate Demo.env1 [js "app"]
           Demo.elevenExports pydantic V4 Demo.boot Hroot Hn).
Defined.

Lemma demo_missing_v3 : Demo.installed !! zodVersionPathOf [js "app"] V3 = None.
Proof. vm_compute. reflexivity. Qed.

Lemma demo_installed_v4 : existsSync Demo.installed (zodVersionPathOf [js "app"] V4) = true.
Proof. vm_compute. reflexivity. Qed.

Lemma demo_outside v clock rnd :
  ¬ zodVersionPathOf [js "app"] v `prefix_of` tmpdir (Demo.process clock rnd Demo.noFault).
Proof. intros [k Hk]. simpl in Hk. discriminate Hk. Qed.

(** C2: the version-not-installed error comes after both workspace
    directories have been created. *)
Lemma unavailable_dependency_after_workspace_creation :
  (@convertZodSchema Demo.delegate Demo.env1 Demo.threeExports pydantic V3 Demo.boot).1
  = inr (RError (notInstalledError V3 (zodVersionPathOf [js "app"] V3)))
  /\ events (@convertZodSchema Demo.delegate Demo.env1 Demo.threeExports pydantic V3 Demo.boot).2
     = [EvFs (OpMkdir (tempDirOf Demo.env1));
        EvFs (OpMkdir (tempNodeModulesOf Demo.env1));
        EvFs (OpRm (tempDirOf Demo.env1))].
Proof. split; vm_compute; reflexivity. Qed.

(** C2, as amended, on two runs: eleven exported bindings, and a version
    that is not installed. *)
Lemma errors_before_and_after_workspace_creation_witness :
  findNodeModulesRootIn Demo.env1 (fs Demo.boot) = inr [js "app"]
  /\ (exists w',
        @convertZodSchema Demo.delegate Demo.env1 Demo.elevenExports pydantic V4 Demo.boot
        = (inr (RError (tooManyError (length (exported (detectAllZodSchemas Demo.elevenExports))))), w')
        /\ events w' = events Demo.boot ++ [EvFs (OpRm (tempDirOf Demo.env1))])
  /\ (exists w',
        @convertZodSchema Demo.delegate Demo.env1 Demo.threeExports pydantic V3 Demo.boot
        = (inr (RError (notInstalledError V3 (zodVersionPathOf [js "app"] V3))), w')
        /\ events w' = events Demo.boot ++ [EvFs (OpMkdir (tempDirOf Demo.env1));
                                            EvFs (OpMkdir (tempNodeModulesOf Demo.env1));
                                            EvFs (OpRm (tempDirOf Demo.env1))]).
Proof.
  assert (Hroot := demo_root).
  split; [exact Hroot|]. split.
  - destruct (@errors_before_and_after_workspace_creation Demo.delegate Demo.env1 [js "app"]
                Demo.elevenExports pydantic V4 Demo.boot Hroot) as (_ & Hmany & _).
    apply Hmany. vm_compute. lia.
  - destruct (@errors_before_and_after_workspace_creation Demo.delegate Demo.env1 [js "app"]
                Demo.threeExports pydantic V3 Demo.boot Hroot) as (_ & _ & Hmissing).
    apply Hmissing.
    + vm_compute. discriminate.
    + vm_compute. lia.
    + apply demo_vacant.
    + reflexivity.
    + reflexivity.
    + apply demo_missing_v3.
    + apply demo_outside.
Defined.

Lemma demo_root_busy :
  findNodeModulesRootIn Demo.envBusy (fs Demo.boot) = inr [js "app"].
Proof. vm_compute. reflexivity. Qed.

(** C4, on two runs with three exported bindings: one whose removal
    succeeds, one whose removal fails. *)
Lemma workspace_always_reaped_witness :
  (exists res w1 w',
     @convertGuarded Demo.delegate Demo.env1 [js "app"] Demo.threeExports pydantic V4 Demo.boot
     = (inr res, w1)
     /\ @convertZodSchema Demo.delegate Demo.env1 Demo.threeExports pydantic V4 Demo.boot
        = (inr res, w')
     /\ events w' = events w1 ++ [EvFs (OpRm (tempDirOf Demo.env1))]
     /\ vacant (fs w') (tempDirOf Demo.env1) /\ console w' = console w1)
  /\ (exists res w1 w',
        @convertGuarded Demo.delegate Demo.envBusy [js "app"] Demo.threeExports pydantic V4 Demo.boot
        = (inr res, w1)
        /\ @convertZodSchema Demo.delegate Demo.envBusy Demo.threeExports pydantic V4 Demo.boot
           = (inr res, w')
        /\ events w' = events w1 ++ [EvFs (OpRm (tempDirOf Demo.envBusy))]
        /\ console w'
           = console w1
             ++ [ConsoleWarn (js "Failed to delete temporary files:")
                   (newError (js "EBUSY: resource busy or locked"))]).
Proof.
  split.
  - pose proof (@workspace_always_reaped Demo.delegate Demo.env1
                  Demo.threeExports pydantic V4 Demo.boot) as Hrun.
    rewrite demo_root in Hrun. exact Hrun.
  - pose proof (@workspace_always_reaped Demo.delegate Demo.envBusy
                  Demo.threeExports pydantic V4 Demo.boot) as Hrun.
    rewrite demo_root_busy in Hrun. exact Hrun.
Defined.



(** C9: the same triple, two invocations, two workspace names: the
    diagnostic of the failed binding quotes the module path, and the two
    results differ.  They also differ, with no failing binding, when the
    dependency path is a symbolic link that only the workspace of the first
    invocation completes: the first invocation converts, the second one
    reports that the version is not installed. *)
Lemma results_differ_across_workspaces :
  (@convertZodSchema Demo.delegate Demo.env1 Demo.threeExports pydantic V4 Demo.boot).1
  <> (@convertZodSchema Demo.delegate Demo.env2 Demo.threeExports pydantic V4 Demo.boot).1
  /\ (exists output,
        (@convertZodSchema Demo.delegate Demo.env1 Demo.twoEnums pydantic V3 Demo.bootLinked).1
        = inr (ROutput output))
  /\ (@convertZodSchema Demo.delegate Demo.env2 Demo.twoEnums pydantic V3 Demo.bootLinked).1
     = inr (RError (js "Zod v3 is not installed at /app/node_modules/zod-v3")).
Proof.
  split; [vm_compute; discriminate|].
  split; [eexists; vm_compute; reflexivity | vm_compute; reflexivity].
Qed.

(** C9, as amended, on two runs with different workspace names and a
    delegate outcome that does not mention the workspace. *)
Lemma results_agree_across_workspaces_witness :
  (@convertZodSchema Demo.delegate Demo.env1 Demo.twoEnums pydantic V4 Demo.boot).1
  = (@convertZodSchema Demo.delegate Demo.env2 Demo.twoEnums pydantic V4 Demo.boot).1.
Proof.
  apply (@results_agree_across_workspaces Demo.delegate Demo.env1 Demo.env2
           Demo.twoEnums pydantic V4 Demo.boot Demo.boot).
  - apply demo_quiet.
  - apply demo_quiet.
  - reflexivity.
  - reflexivity.
  - reflexivity.
  - reflexivity.
  - intros root Hroot. rewrite demo_root in Hroot. injection Hroot as <-.
    split; apply demo_outside.
  - intros root target Hroot. rewrite demo_root in Hroot. injection Hroot as <-.
    vm_compute. discriminate.
  - intros root transpiled Hroot Ht. rewrite demo_root in Hroot.
    injection Hroot as <-. injection Ht as <-.
    vm_compute. reflexivity.
Defined.



Lemma demo_role_block name :
  name = js "Role" \/ name = js "Kind" ->
  hasEnumBlock pydantic (body (extractImports pydantic (Demo.pydanticCode name)))
    (js "admin,user").
Proof.
  intros Hname. simpl.
  exists (js "class " ++ name ++ js "Enum(str, Enum):"),
         [Demo.assign (js "ADMIN") (js "admin"); Demo.assign (js "USER") (js "user"); js ""].
  split; [|vm_compute; reflexivity].
  exists [], [js "class " ++ name ++ js "(BaseModel):"; js "    value: " ++ name ++ js "Enum"].
  destruct Hname as [-> | ->]; (split; [vm_compute; reflexivity|]);
    (split; [vm_compute; reflexivity|]);
    (split; [repeat constructor | vm_compute; reflexivity]).
Qed.



(** C6: a line that is neither blank nor a string assignment stays in the
    block when it is indented deeper than the header (class dialect), and
    the closing brace belongs to the block (structural dialect); neither
    goes to the remaining body. *)
Lemma block_extent_differs_from_spec_reading :
  isPyHeader Demo.statusHeader = true
  /\ specBlockLine pyEnumValue (indentOf Demo.statusHeader) Demo.statusMember = true
  /\ specBlockLine pyEnumValue (indentOf Demo.statusHeader) Demo.statusExtra = false
  /\ pyEnumLines [Demo.statusHeader; Demo.statusMember; Demo.statusExtra; Demo.statusNext]
     = {| enums := [(js "active",
                     join nl [Demo.statusHeader; Demo.statusMember; Demo.statusExtra])];
          bodyWithoutEnums := Demo.statusNext |}
  /\ isTsHeader Demo.colorHeader = true
  /\ specBlockLine tsEnumValue (indentOf Demo.colorHeader) Demo.colorMember = true
  /\ specBlockLine tsEnumValue (indentOf Demo.colorHeader) Demo.colorClose = false
  /\ tsEnumLines [Demo.colorHeader; Demo.colorMember; Demo.colorClose; Demo.colorNext]
     = {| enums := [(js "red",
                     join nl [Demo.colorHeader; Demo.colorMember; Demo.colorClose])];
          bodyWithoutEnums := Demo.colorNext |}.
Proof. repeat split; vm_compute; reflexivity. Qed.

(** C6, as amended, on a class block with a deeper-indented line and on a
    structural block with its closing brace. *)
Lemma enum_block_extent_witness :
  fold_left pyEnumStep
    (Demo.statusHeader :: [Demo.statusMember; Demo.statusExtra] ++ [Demo.statusNext])
    pyEnumStart
  = {| pyEnumMap := saveEnum (Some (Demo.statusHeader :: [Demo.statusMember; Demo.statusExtra]))
                      (signatureOf pyEnumValue [Demo.statusMember; Demo.statusExtra])
                      (pyFlushed pyEnumStart);
       pyBodyLines := pyBodyLines pyEnumStart ++ [Demo.statusNext];
       pyCurrentEnum := None; pyEnumIndent := indentOf Demo.statusHeader;
       pyEnumSignature := signatureOf pyEnumValue [Demo.statusMember; Demo.statusExtra];
       pyInEnum := false |}
  /\ fold_left tsEnumStep (Demo.colorHeader :: [Demo.colorMember] ++ [Demo.colorClose])
       tsEnumStart
     = {| tsEnumMap := saveEnum (Some (Demo.colorHeader :: [Demo.colorMember] ++ [Demo.colorClose]))
                         (signatureOf tsEnumValue [Demo.colorMember]) (tsFlushed tsEnumStart);
          tsBodyLines := tsBodyLines tsEnumStart;
          tsCurrentEnum := None;
          tsEnumSignature := signatureOf tsEnumValue [Demo.colorMember] |}.
Proof.
  destruct enum_block_extent as [Hpy Hts]. split.
  - apply Hpy; [vm_compute; reflexivity | repeat constructor | vm_compute; reflexivity].
  - apply Hts; [vm_compute; reflexivity | repeat constructor | vm_compute; reflexivity].
Defined.

(** * Further properties of the code *)

(** ** findNodeModulesRoot *)

Lemma walkUp_found (fs : FS) (revDir : list jsstring) (dir : path) :
  walkUp fs revDir = Some dir ->
  nodeModulesIn fs dir = true
  /\ dir `prefix_of` rev revDir
  /\ (forall deeper, deeper `prefix_of` rev revDir -> length dir < length deeper ->
        nodeModulesIn fs deeper = false).
Proof.
  revert dir. induction revDir as [|seg parent IH]; intros dir Hwalk; simpl in Hwalk.
  - destruct (nodeModulesIn fs []) eqn:Hhere; [|discriminate].
    injection Hwalk as <-. split; [assumption|]. split; [exists []; simpl; now rewrite ?app_nil_r|].
    intros deeper Hp Hlen. apply prefix_nil_inv in Hp. subst. simpl in Hlen. lia.
  - destruct (nodeModulesIn fs (rev parent ++ [seg])) eqn:Hhere.
    + injection Hwalk as <-. split; [assumption|]. split; [exists []; simpl; now rewrite ?app_nil_r|].
      intros deeper Hp Hlen. apply prefix_length in Hp. simpl in Hp. lia.
    + apply IH in Hwalk as (Hnm & Hp & Hnear).
      split; [assumption|]. split; [now apply prefix_app_r|].
      intros deeper Hd Hlen. apply prefix_snoc_cases in Hd as [Hd | ->]; [now apply Hnear | assumption].
Qed.

Lemma walkUp_none (fs : FS) (revDir : list jsstring) :
  walkUp fs revDir = None <->
  (forall dir, dir `prefix_of` rev revDir -> nodeModulesIn fs dir = false).
Proof.
  induction revDir as [|seg parent IH]; simpl.
  - split.
    + intros Hwalk dir Hp. apply prefix_nil_inv in Hp. subst.
      destruct (nodeModulesIn fs []); [discriminate | reflexivity].
    + intros Hall. rewrite (Hall [] ltac:(exists []; now rewrite ?app_nil_r)). reflexivity.
  - split.
    + intros Hwalk dir Hp.
      destruct (nodeModulesIn fs (rev parent ++ [seg])) eqn:Hhere; [discriminate|].
      apply prefix_snoc_cases in Hp as [Hp | ->]; [|assumption].
      now apply IH.
    + intros Hall. rewrite (Hall (rev parent ++ [seg]) ltac:(exists []; now rewrite ?app_nil_r)).
      apply IH. intros dir Hp. apply Hall. now apply prefix_app_r.
Qed.

(** X1.  A directory returned by [findNodeModulesRoot] holds a
    [node_modules] that exists (symbolic links are followed, so a link whose
    target is missing does not count) and is the override, an ancestor (or
    self) of the working directory, or an ancestor (or self) of the parent of
    the module's directory.  The three places are tried in this order and each walk stops
    at the nearest hit: an ancestor of the working directory is returned only
    if the override is unset or holds no [node_modules], and then no deeper
    ancestor of the working directory holds one; an ancestor of the module's
    parent directory is returned only if, besides, no ancestor of the working
    directory holds one. *)
Theorem module_root_is_nearest_install (env : Env) (fs : FS) (dir : path) :
  findNodeModulesRootIn env fs = inr dir ->
  nodeModulesIn fs dir = true
  /\ let unusableOverride :=
       forall o, moduleRootOverride env = Some o -> nodeModulesIn fs o = false in
     let nearestUnder (start : path) :=
       dir `prefix_of` start
       /\ forall deeper, deeper `prefix_of` start -> length dir < length deeper ->
            nodeModulesIn fs deeper = false in
     moduleRootOverride env = Some dir
     \/ (unusableOverride /\ nearestUnder (cwd env))
     \/ (unusableOverride
         /\ (forall d, d `prefix_of` cwd env -> nodeModulesIn fs d = false)
         /\ nearestUnder (dirname (moduleDir env))).
Proof.
  unfold findNodeModulesRootIn. intros Hfound.
  assert (Hsearch :
    match walkUp fs (rev (cwd env)) with
    | Some d => inr d
    | None =>
        match walkUp fs (rev (dirname (moduleDir env))) with
        | Some d => inr d
        | None => inl (newError (js "Could not locate node_modules. Set SCHEMABRIDGE_MODULE_ROOT to override."))
        end
    end = (inr dir : thrown + path) ->
    nodeModulesIn fs dir = true
    /\ ((dir `prefix_of` cwd env
         /\ forall deeper, deeper `prefix_of` cwd env -> length dir < length deeper ->
              nodeModulesIn fs deeper = false)
        \/ ((forall d, d `prefix_of` cwd env -> nodeModulesIn fs d = false)
            /\ dir `prefix_of` dirname (moduleDir env)
            /\ forall deeper, deeper `prefix_of` dirname (moduleDir env) ->
                 length dir < length deeper -> nodeModulesIn fs deeper = false))).
  { destruct (walkUp fs (rev (cwd env))) as [d|] eqn:Hcwd.
    - intros [= ->]. apply walkUp_found in Hcwd as (Hnm & Hp & Hnear).
      rewrite rev_involutive in Hp, Hnear. split; [assumption|]. left. now split.
    - destruct (walkUp fs (rev (dirname (moduleDir env)))) as [d|] eqn:Hmod; [|discriminate].
      intros [= ->]. apply walkUp_found in Hmod as (Hnm & Hp & Hnear).
      rewrite rev_involutive in Hp, Hnear.
      pose proof (proj1 (walkUp_none fs (rev (cwd env))) Hcwd) as Hnone.
      rewrite rev_involutive in Hnone.
      split; [assumption|]. right. repeat split; assumption. }
  destruct (moduleRootOverride env) as [o|] eqn:Ho.
  - destruct (nodeModulesIn fs o) eqn:Hnm.
    + injection Hfound as <-. split; [assumption|]. now left.
    + apply Hsearch in Hfound as [Hdir [Hnear | (Hnone & Hnear)]]; (split; [assumption|]).
      * right; left. split; [|assumption]. intros o' [= <-]. assumption.
      * right; right. split; [|now split]. intros o' [= <-]. assumption.
  - apply Hsearch in Hfound as [Hdir [Hnear | (Hnone & Hnear)]]; (split; [assumption|]).
    + right; left. split; [|assumption]. intros o' [=].
    + right; right. split; [|now split]. intros o' [=].
Qed.

Lemma module_root_is_nearest_install_witness :
  nodeModulesIn Demo.installed [js "app"] = true.
Proof.
  refine (proj1 (module_root_is_nearest_install Demo.env1 Demo.installed [js "app"] _)).
  vm_compute. reflexivity.
Defined.

(** X2.  [findNodeModulesRoot] throws exactly when none of the places it
    looks at holds a [node_modules] that exists (symbolic links followed):
    not the override (if set), no
    ancestor of the working directory up to the root, no ancestor of the
    parent of the module's directory up to the root.  What it throws is the
    error that names the override variable. *)
Theorem module_root_fails_only_without_install (env : Env) (fs : FS) :
  (exists e, findNodeModulesRootIn env fs = inl e) <->
  (forall o, moduleRootOverride env = Some o -> nodeModulesIn fs o = false)
  /\ (forall d, d `prefix_of` cwd env -> nodeModulesIn fs d = false)
  /\ (forall d, d `prefix_of` dirname (moduleDir env) -> nodeModulesIn fs d = false).
Proof.
  unfold findNodeModulesRootIn. split.
  - intros [e He].
    assert (Hwalks : walkUp fs (rev (cwd env)) = None
                     /\ walkUp fs (rev (dirname (moduleDir env))) = None).
    { destruct (moduleRootOverride env) as [o|];
        [destruct (nodeModulesIn fs o); [discriminate|]|];
        destruct (walkUp fs (rev (cwd env))); try discriminate;
        destruct (walkUp fs (rev (dirname (moduleDir env)))); try discriminate; now split. }
    destruct Hwalks as [Hcwd Hmod].
    pose proof (proj1 (walkUp_none _ _) Hcwd) as Hc.
    pose proof (proj1 (walkUp_none _ _) Hmod) as Hm.
    rewrite rev_involutive in Hc, Hm.
    split; [|now split].
    intros o Ho. rewrite Ho in He. destruct (nodeModulesIn fs o); [discriminate | reflexivity].
  - intros (Ho & Hcwd & Hmod).
    assert (Hc : walkUp fs (rev (cwd env)) = None).
    { apply (proj2 (walkUp_none _ _)). now rewrite rev_involutive. }
    assert (Hm : walkUp fs (rev (dirname (moduleDir env))) = None).
    { apply (proj2 (walkUp_none _ _)). now rewrite rev_involutive. }
    rewrite Hc, Hm.
    destruct (moduleRootOverride env) as [o|]; [rewrite (Ho o eq_refl)|]; eauto.
Qed.

(** A [node_modules] that is a symbolic link to nothing is passed over: the
    search goes on to the next place. *)
Lemma dangling_node_modules_is_passed_over :
  let fs : FS :=
    <[ [js "tmp"; js "w"; js "node_modules"] := Link [js "gone"] ]> Demo.installed in
  let env :=
    {| moduleRootOverride := None; cwd := [js "tmp"; js "w"];
       moduleDir := [js "app"; js "dist"; js "services"]; tmpdir := [js "tmp"];
       now := 0; random36 := js "a"; fault := Demo.noFault |} in
  is_Some (fs !! [js "tmp"; js "w"; js "node_modules"])
  /\ nodeModulesIn fs [js "tmp"; js "w"] = false
  /\ findNodeModulesRootIn env fs = inr [js "app"].
Proof. cbv zeta. split; [eexists|split]; vm_compute; reflexivity. Qed.

(** ** The footprint of a run *)

Section Confined.
Context `{Delegate}.
Variable env : Env.
Hypothesis Hdelegate : delegateKeepsTo env.

Lemma spares_refl (f : FS) : spares env f f.
Proof. intros q _. now left. Qed.

Lemma spares_trans (f g h : FS) : spares env f g -> spares env g h -> spares env f h.
Proof.
  intros Hfg Hgh q Hq.
  destruct (Hfg q Hq) as [Heq | (Hnone & Hp & Hne & Hdir)];
    destruct (Hgh q Hq) as [Heq' | (Hnone' & Hp' & Hne' & Hdir')].
  - left. congruence.
  - right. repeat split; congruence.
  - right. repeat split; congruence.
  - congruence.
Qed.

Lemma confined_ret {A} (x : A) : confined env (ret x).
Proof. intros w. apply spares_refl. Qed.

Lemma confined_throw {A} (e : thrown) : confined env (@throw A e).
Proof. intros w. apply spares_refl. Qed.

Lemma confined_liftSum {A} (r : thrown + A) : confined env (liftSum r).
Proof. destruct r; [apply confined_throw | apply confined_ret]. Qed.

Lemma confined_emit ev : confined env (emit ev).
Proof. intros w. apply spares_refl. Qed.

Lemma confined_logEntry entry : confined env (logEntry entry).
Proof. intros w. apply spares_refl. Qed.

Lemma confined_exists p : confined env (exists_ p).
Proof. intros w. apply spares_refl. Qed.

Lemma confined_bind {A B} (c : M A) (f : A -> M B) :
  confined env c -> (forall x, confined env (f x)) -> confined env (bind c f).
Proof.
  intros Hc Hf w. unfold bind. specialize (Hc w).
  destruct (c w) as [[e|x] w1]; simpl in *; [assumption|].
  eapply spares_trans; [exact Hc | apply Hf].
Qed.

Lemma confined_tryCatch {A} (c : M A) (h : thrown -> M A) :
  confined env c -> (forall e, confined env (h e)) -> confined env (tryCatch c h).
Proof.
  intros Hc Hh w. unfold tryCatch. specialize (Hc w).
  destruct (c w) as [[e|x] w1]; simpl in *; [|assumption].
  eapply spares_trans; [exact Hc | apply Hh].
Qed.

Lemma confined_tryFinally {A} (c : M A) (f : M unit) :
  confined env c -> confined env f -> confined env (tryFinally c f).
Proof.
  intros Hc Hf w. unfold tryFinally. specialize (Hc w).
  destruct (c w) as [r w1]; simpl in *. specialize (Hf w1).
  destruct (f w1) as [[e|[]] w2]; simpl in *; eapply spares_trans; eassumption.
Qed.

Lemma confined_whenM b c : confined env c -> confined env (whenM b c).
Proof. intros Hc. destruct b; [exact Hc | apply confined_ret]. Qed.

Lemma confined_foldM {A S} (f : S -> A -> M S) (l : list A) :
  (forall st x, confined env (f st x)) -> forall st, confined env (foldM f l st).
Proof.
  intros Hf. induction l as [|x l IH]; intros st; simpl.
  - apply confined_ret.
  - apply confined_bind; [apply Hf | assumption].
Qed.

Lemma confined_fsCall op apply :
  (forall f, spares env f (apply f)) -> confined env (fsCall env op apply).
Proof.
  intros Happly w. rewrite fsCall_run.
  destruct (fault env op); simpl; [apply spares_refl | apply Happly].
Qed.

(** The four operations of a run, each on its own path. *)

Lemma rmRec_elsewhere (p q : path) (f : FS) : ¬ p `prefix_of` q -> rmRec p f !! q = f !! q.
Proof.
  intros Hq. unfold rmRec. destruct (f !! q) as [x|] eqn:Hf.
  - apply map_lookup_filter_Some. split; [assumption | exact Hq].
  - apply map_lookup_filter_None. now left.
Qed.

Lemma spares_rm (f : FS) : spares env f (rmRec (tempDirOf env) f).
Proof. intros q Hq. left. now apply rmRec_elsewhere. Qed.

Lemma spares_insert (p : path) (x : node) (f : FS) :
  tempDirOf env `prefix_of` p -> spares env f (<[p := x]> f).
Proof.
  intros Hp q Hq. left. apply lookup_insert_ne. intros Heq. apply Hq. now rewrite <- Heq.
Qed.

Lemma spares_mkdir (p : path) (f : FS) :
  (forall q, q `prefix_of` p -> tempDirOf env `prefix_of` q \/ q `prefix_of` tmpdir env) ->
  spares env f (mkdirRec p f).
Proof.
  intros Hp q Hq. unfold mkdirRec. rewrite addDirs_lookup.
  destruct (f !! q) as [x|] eqn:Hf; [now left|].
  destruct (decide (q ∈ List.map (fun n => take n p) (seq 1 (length p)))) as [Hin|Hin].
  - rewrite bool_decide_eq_true_2 by assumption. right.
    apply list_elem_of_In, in_map_iff in Hin as (n & <- & Hn%in_seq).
    destruct (Hp (take n p) (prefix_take _ _)) as [Hunder | Hover]; [now apply Hq in Hunder|].
    repeat split; try assumption.
    destruct p; [simpl in Hn; lia|]. destruct n; [lia | discriminate].
  - rewrite bool_decide_eq_false_2 by assumption. now left.
Qed.

Lemma under_tempDir (q : path) :
  q `prefix_of` tempDirOf env -> tempDirOf env `prefix_of` q \/ q `prefix_of` tmpdir env.
Proof.
  unfold tempDirOf, pjoin. intros [Hq | ->]%prefix_snoc_cases; [now right | now left].
Qed.

Lemma under_tempNodeModules (q : path) :
  q `prefix_of` tempNodeModulesOf env -> tempDirOf env `prefix_of` q \/ q `prefix_of` tmpdir env.
Proof.
  unfold tempNodeModulesOf, pjoin. intros [Hq | ->]%prefix_snoc_cases.
  - now apply under_tempDir.
  - left. now apply prefix_app_r.
Qed.

Lemma confined_delegated {A} (call : FS -> (thrown + A) * FS) :
  (forall (f : FS) (q : path), ¬ tempDirOf env `prefix_of` q -> (call f).2 !! q = f !! q) ->
  confined env (delegated call).
Proof. intros Hcall w q Hq. left. unfold delegated. simpl. now apply Hcall. Qed.

Lemma confined_convertExport l st name :
  confined env (convertExport (tempFileOf env) l st name).
Proof.
  destruct Hdelegate as [Hload Hgenerate].
  unfold convertExport. apply confined_tryCatch.
  - apply confined_bind.
    { unfold callLoad. apply confined_bind; [apply confined_emit | intros _].
      apply confined_delegated. intros f q. apply Hload. }
    intros loaded. apply confined_bind.
    { apply confined_whenM, confined_logEntry. }
    intros _. apply confined_bind; [|intros output; apply confined_ret].
    unfold callGenerate. apply confined_bind; [apply confined_emit | intros _].
    apply confined_delegated. intros f q. apply Hgenerate.
  - intros err. apply confined_bind; [apply confined_logEntry | intros _; apply confined_ret].
Qed.

Lemma confined_convertBody root code l v : confined env (convertBody env root code l v).
Proof.
  unfold convertBody.
  destruct (length (exported (detectAllZodSchemas code)) =? 0)%nat; [apply confined_ret|].
  destruct (10 <? length (exported (detectAllZodSchemas code)))%nat; [apply confined_ret|].
  apply confined_bind; [apply confined_exists | intros hasTemp].
  apply confined_bind.
  { apply confined_whenM, confined_fsCall. intros f. apply spares_mkdir, under_tempDir. }
  intros _. apply confined_bind; [apply confined_exists | intros hasModules].
  apply confined_bind.
  { apply confined_whenM, confined_fsCall. intros f. apply spares_mkdir, under_tempNodeModules. }
  intros _. apply confined_bind; [apply confined_exists | intros hasVersion].
  destruct (negb hasVersion); [apply confined_ret|].
  apply confined_bind; [apply confined_exists | intros hasLink].
  apply confined_bind.
  { apply confined_whenM, confined_fsCall. intros f. apply spares_insert.
    unfold zodLinkOf, pjoin. now apply prefix_app_r. }
  intros _. apply confined_bind; [apply confined_emit | intros _].
  apply confined_bind; [apply confined_liftSum | intros transpiled].
  apply confined_bind.
  { apply confined_fsCall. intros f. apply spares_insert.
    unfold tempFileOf, pjoin. now apply prefix_app_r. }
  intros _. apply confined_bind; [|intros st; apply confined_ret].
  apply confined_foldM. intros st name. apply confined_convertExport.
Qed.

Lemma confined_cleanup : confined env (cleanup env).
Proof.
  unfold cleanup. apply confined_tryCatch.
  - apply confined_fsCall, spares_rm.
  - intros e. apply confined_logEntry.
Qed.

Lemma confined_convertZodSchema code l v : confined env (convertZodSchema env code l v).
Proof.
  unfold convertZodSchema. apply confined_bind.
  - intros w. unfold findNodeModulesRoot.
    destruct (findNodeModulesRootIn env (fs w)); simpl; apply spares_refl.
  - intros root. apply confined_tryFinally; [|apply confined_cleanup].
    unfold convertGuarded. apply confined_tryCatch; [apply confined_convertBody|].
    intros e. apply confined_bind; [apply confined_logEntry | intros _; apply confined_ret].
Qed.


(** X4.  When the calls of the delegate change nothing outside the
    workspace, the workspace directory does not exist yet, the temp
    directory and its ancestors do, and the final removal does not fail, the
    file system after a conversion is the file system before it: nothing of
    the request is left behind, whether the conversion succeeds, reports an
    error or throws, and whatever else fails on the way. *)
Theorem conversion_restores_the_file_system code l v (w : World) :
  vacant (fs w) (tempDirOf env) ->
  (forall q, q `prefix_of` tmpdir env -> q <> [] -> is_Some (fs w !! q)) ->
  fault env (OpRm (tempDirOf env)) = None ->
  fs (convertZodSchema env code l v w).2 = fs w.
Proof.
  intros Hvacant Htmp Hrm. apply map_eq. intros q.
  destruct (decide (tempDirOf env `prefix_of` q)) as [Hunder | Hout].
  - refine (eq_trans _ (eq_sym (Hvacant q Hunder))).
    destruct (findNodeModulesRootIn env (fs w)) as [e|root] eqn:Hroot.
    + rewrite (convertZodSchema_rejects env e code l v w Hroot). exact (Hvacant q Hunder).
    + destruct (convertZodSchema_run env root code l v w Hroot) as (res & w1 & w' & _ & Hc & Hrun).
      rewrite Hrun. simpl.
      destruct (cleanup_run env w1) as (w2 & Hc2 & _ & Hfs).
      rewrite Hc in Hc2. injection Hc2 as <-. rewrite Hrm in Hfs. destruct Hfs as [-> _].
      exact (rmRec_vacant (tempDirOf env) (fs w1) q Hunder).
  - destruct (confined_convertZodSchema code l v w q Hout) as [Heq | (Hnone & Hp & Hne & _)];
      [exact Heq|].
    destruct (Htmp q Hp Hne) as [x Hx]. exfalso.
    pose proof (eq_trans (eq_sym Hx) Hnone) as Habs. discriminate Habs.
Qed.

End Confined.

Lemma demo_delegate_keeps clock rnd faults failure :
  @delegateKeepsTo (Demo.delegateFailing failure) (Demo.process clock rnd faults).
Proof.
  split.
  - intros name f q Hq. cbn [loadZodSchema Demo.delegateFailing].
    assert (Hne : pjoin (dirname (tempFileOf (Demo.process clock rnd faults))) [js "loaded.log"]
                  <> q).
    { intros <-. apply Hq. unfold tempFileOf, dirname, pjoin.
      rewrite removelast_last. now apply prefix_app_r. }
    destruct (eqs name (js "Broken")); cbn [snd]; unfold writeTo;
      now rewrite lookup_insert_ne.
  - intros l schema name f q _. destruct l; reflexivity.
Qed.


Lemma conversion_restores_the_file_system_witness :
  fs (@convertZodSchema Demo.delegate Demo.env1 Demo.threeExports pydantic V4 Demo.boot).2
  = Demo.installed.
Proof.
  apply (@conversion_restores_the_file_system Demo.delegate Demo.env1
           (demo_delegate_keeps _ _ _ _) Demo.threeExports
           pydantic V4 Demo.boot).
  - apply demo_vacant.
  - intros q [k Hk] Hne. vm_compute in Hk.
    destruct q as [|seg q]; [congruence|].
    injection Hk as <- Hk. destruct q; [|discriminate].
    vm_compute. eauto.
  - reflexivity.
Defined.

(** ** What is asked of the delegate *)

Section Loads.
Context `{Delegate}.
Variable env : Env.

Lemma loadsOf_app (a b : list Event) : loadsOf (a ++ b) = loadsOf a ++ loadsOf b.
Proof. unfold loadsOf. apply flat_map_app. Qed.

Lemma loadFree_ret {A} (x : A) : loadFree (ret x).
Proof. intros w. exists []. simpl. now rewrite app_nil_r. Qed.

Lemma loadFree_throw {A} (e : thrown) : loadFree (@throw A e).
Proof. intros w. exists []. simpl. now rewrite app_nil_r. Qed.

Lemma loadFree_liftSum {A} (r : thrown + A) : loadFree (liftSum r).
Proof. destruct r; [apply loadFree_throw | apply loadFree_ret]. Qed.

Lemma loadFree_logEntry entry : loadFree (logEntry entry).
Proof. intros w. exists []. simpl. now rewrite app_nil_r. Qed.

Lemma loadFree_exists p : loadFree (exists_ p).
Proof. intros w. exists []. simpl. now rewrite app_nil_r. Qed.

Lemma loadFree_bind {A B} (c : M A) (f : A -> M B) :
  loadFree c -> (forall x, loadFree (f x)) -> loadFree (bind c f).
Proof.
  intros Hc Hf w. unfold bind. destruct (Hc w) as (new & Hev & Hl).
  destruct (c w) as [[e|x] w1]; simpl in *; [eauto|].
  destruct (Hf x w1) as (new' & Hev' & Hl').
  exists (new ++ new'). rewrite Hev', Hev, loadsOf_app, Hl, Hl', app_assoc. auto.
Qed.

Lemma loadFree_tryCatch {A} (c : M A) (h : thrown -> M A) :
  loadFree c -> (forall e, loadFree (h e)) -> loadFree (tryCatch c h).
Proof.
  intros Hc Hh w. unfold tryCatch. destruct (Hc w) as (new & Hev & Hl).
  destruct (c w) as [[e|x] w1]; simpl in *; [|eauto].
  destruct (Hh e w1) as (new' & Hev' & Hl').
  exists (new ++ new'). rewrite Hev', Hev, loadsOf_app, Hl, Hl', app_assoc. auto.
Qed.

Lemma loadFree_whenM b c : loadFree c -> loadFree (whenM b c).
Proof. intros Hc. destruct b; [exact Hc | apply loadFree_ret]. Qed.

Lemma loadFree_fsCall op apply : loadFree (fsCall env op apply).
Proof.
  intros w. rewrite fsCall_run. exists [EvFs op].
  destruct (fault env op); simpl; auto.
Qed.

Lemma loadsAll_quiet (names : list jsstring) (r : Result) :
  ¬ isOutput (inr r) -> loadsAll names (ret r).
Proof. intros Hr w. exists []. simpl. rewrite app_nil_r. auto. Qed.

Lemma loadsAll_bind {A} (names : list jsstring) (c : M A) (f : A -> M Result) :
  loadFree c -> (forall x, loadsAll names (f x)) -> loadsAll names (bind c f).
Proof.
  intros Hc Hf w. unfold bind. destruct (Hc w) as (new & Hev & Hl).
  destruct (c w) as [[e|x] w1]; simpl in *.
  - exists new. split; [assumption|]. left. split; [assumption | tauto].
  - destruct (Hf x w1) as (new' & Hev' & Hl').
    exists (new ++ new'). rewrite Hev', Hev, loadsOf_app, Hl, app_assoc. auto.
Qed.

Lemma loadsOf_loopEvents file l names : forall f : FS,
  loadsOf (loopEvents file l names f) = names.
Proof.
  induction names as [|name names IH]; intros f; [reflexivity|].
  cbn [loopEvents]. rewrite loadsOf_app, IH.
  unfold bindingEvents. destruct (loadZodSchema file name f).1; reflexivity.
Qed.

Lemma loadsAll_convertBody root code l v :
  loadsAll (exported (detectAllZodSchemas code)) (convertBody env root code l v).
Proof.
  unfold convertBody.
  destruct (length (exported (detectAllZodSchemas code)) =? 0)%nat;
    [apply loadsAll_quiet; simpl; tauto|].
  destruct (10 <? length (exported (detectAllZodSchemas code)))%nat;
    [apply loadsAll_quiet; simpl; tauto|].
  apply loadsAll_bind; [apply loadFree_exists | intros hasTemp].
  apply loadsAll_bind; [apply loadFree_whenM, loadFree_fsCall | intros _].
  apply loadsAll_bind; [apply loadFree_exists | intros hasModules].
  apply loadsAll_bind; [apply loadFree_whenM, loadFree_fsCall | intros _].
  apply loadsAll_bind; [apply loadFree_exists | intros hasVersion].
  destruct (negb hasVersion); [apply loadsAll_quiet; simpl; tauto|].
  apply loadsAll_bind; [apply loadFree_exists | intros hasLink].
  apply loadsAll_bind; [apply loadFree_whenM, loadFree_fsCall | intros _].
  apply loadsAll_bind; [intros w; exists [EvTranspile]; auto | intros _].
  apply loadsAll_bind; [apply loadFree_liftSum | intros transpiled].
  apply loadsAll_bind; [apply loadFree_fsCall | intros _].
  intros w. unfold bind.
  destruct (foldM_convertExport (tempFileOf env) l (exported (detectAllZodSchemas code))
              batchStart w) as (w' & Hrun & _ & Hev).
  rewrite Hrun. simpl. eexists; split; [exact Hev|].
  right. apply loadsOf_loopEvents.
Qed.

Lemma loadsAll_convertGuarded root code l v :
  loadsAll (exported (detectAllZodSchemas code)) (convertGuarded env root code l v).
Proof.
  intros w. unfold convertGuarded, tryCatch.
  destruct (loadsAll_convertBody root code l v w) as (new & Hev & Hl).
  destruct (convertBody env root code l v w) as [[e|res] w1]; simpl in *; [|eauto].
  unfold bind, logEntry, ret; simpl. exists new. split; [assumption|].
  destruct Hl as [[Hl _] | Hl]; [left; split; [assumption | tauto] | now right].
Qed.

(** X5.  Whatever fails, a conversion asks the delegate to load either
    nothing at all, and then it gives no output, or exactly the list of
    names the detector found exported, in source order and one load per
    entry of the list (a name the detector found twice is loaded twice), and
    then the list has between one and ten entries.  So never more than ten
    loads are made for one request. *)
Theorem loads_follow_the_detected_exports code l v (w : World) :
  let run := convertZodSchema env code l v w in
  let names := exported (detectAllZodSchemas code) in
  exists new,
    events run.2 = events w ++ new
    /\ ((loadsOf new = [] /\ ¬ isOutput run.1)
        \/ (loadsOf new = names /\ 1 <= length names <= 10)).
Proof.
  cbv zeta.
  destruct (findNodeModulesRootIn env (fs w)) as [e|root] eqn:Hroot.
  - rewrite (convertZodSchema_rejects env e code l v w Hroot). exists []. simpl.
    rewrite app_nil_r. split; [reflexivity|]. left. split; [reflexivity | tauto].
  - destruct (convertZodSchema_run env root code l v w Hroot)
      as (res & w1 & w' & Hg & Hc & Hrun).
    rewrite Hrun. cbn [fst snd].
    destruct (cleanup_run env w1) as (w2 & Hc2 & Hev2 & _).
    rewrite Hc in Hc2. injection Hc2 as <-.
    destruct (loadsAll_convertGuarded root code l v w) as (new & Hev & Hl).
    rewrite Hg in Hev, Hl. cbn [fst snd] in Hev, Hl.
    exists (new ++ [EvFs (OpRm (tempDirOf env))]).
    rewrite Hev2, Hev, loadsOf_app, app_assoc. cbn [loadsOf flat_map app]. rewrite app_nil_r.
    split; [reflexivity|].
    destruct (Nat.eqb_spec (length (exported (detectAllZodSchemas code))) 0) as [Hzero|Hpos].
    { left.
      pose proof (guarded_of_body env root code l v w _ _
                    (convertBody_none env root code l v w Hzero)) as Hg'.
      rewrite Hg in Hg'. injection Hg' as Hres Hw. subst res w1.
      destruct Hl as [[Hl _] | Hl]; [split; [assumption | simpl; tauto]|].
      split; [|simpl; tauto]. rewrite Hl. now apply nil_length_inv. }
    destruct (Nat.ltb_spec 10 (length (exported (detectAllZodSchemas code)))) as [Hmany|Hfew].
    { left.
      pose proof (guarded_of_body env root code l v w _ _
                    (convertBody_many env root code l v w Hmany)) as Hg'.
      rewrite Hg in Hg'. injection Hg' as Hres Hw. subst res w1.
      assert (new = []) as ->
        by (apply (app_inv_head (events w)); rewrite app_nil_r; now symmetry).
      split; [reflexivity | simpl; tauto]. }
    destruct Hl as [Hl | Hl]; [now left | right].
    split; [assumption | lia].
Qed.

End Loads.

(** ** The export detector *)

(** Every element of [matchAll] is the capture list of a match at some
    position of the text. *)
Lemma matchAllFrom_each r : forall fuel pos s cs,
  In cs (matchAllFrom fuel r pos s) ->
  exists pre t st m, s = pre ++ t /\ matchAt r st t = Some m /\ mCaps m = cs.
Proof.
  induction fuel as [|fuel IH]; intros pos s cs Hin; simpl in Hin; [destruct Hin|].
  destruct (search r pos s) as [[st m]|] eqn:Hsearch; [|destruct Hin].
  apply search_sound in Hsearch as (j & n & -> & Hjn & He & Hr & Hm & _).
  destruct Hin as [<- | Hin].
  - exists (take j s), (drop j s), (pos + j), m. now rewrite take_drop.
  - destruct (Nat.eqb (mEnd m) (pos + j)).
    + destruct (mRest m) as [|c rest] eqn:Hrest; [destruct Hin|].
      apply IH in Hin as (pre & t & st' & m' & -> & Hm' & Hc).
      exists (take (j + n) s ++ c :: pre), t, st', m'. split; [|now split].
      rewrite <- app_assoc. simpl. rewrite Hr. now rewrite take_drop.
    + apply IH in Hin as (pre & t & st' & m' & Hpre & Hm' & Hc).
      exists (take (j + n) s ++ pre), t, st', m'. split; [|now split].
      rewrite <- app_assoc, <- Hpre, Hr. now rewrite take_drop.
Qed.

Lemma run_nonempty (n : nat) (s : jsstring) : 1 <= n -> n <= length s -> take n s <> [].
Proof. intros H1 Hn. destruct s; [simpl in Hn; lia|]. destruct n; [lia | discriminate]. Qed.

(** The text of a match of [allRegex]. *)
Lemma allRegex_shape st t m :
  matchAt allRegex st t = Some m ->
  exists sp1 sp2 sp3 rest,
    t = js "const" ++ sp1 ++ group 1 (mCaps m) ++ sp2 ++ js "=" ++ sp3 ++ js "z." ++ rest
    /\ spaces sp1 /\ sp1 <> [] /\ spaces sp2 /\ spaces sp3
    /\ identifier (group 1 (mCaps m)).
Proof.
  unfold matchAt, allRegex, rseq. cbn [rmatch]. intros Hm.
  destruct (stripPrefix (js "const") t) as [s1|] eqn:H1; [|discriminate].
  apply stripPrefix_spec in H1.
  apply repGreedy_sound in Hm as (n1 & Hn1 & Hl1 & Hsp1 & Hm).
  apply repGreedy_sound in Hm as (n2 & Hn2 & Hl2 & Hname & Hm).
  apply repGreedy_sound in Hm as (n3 & Hn3 & _ & Hsp2 & Hm).
  destruct (stripPrefix (js "=") (drop n3 (drop n2 (drop n1 s1)))) as [s4|] eqn:H4;
    [|discriminate].
  apply stripPrefix_spec in H4.
  apply repGreedy_sound in Hm as (n5 & Hn5 & _ & Hsp3 & Hm).
  destruct (stripPrefix (js "z.") (drop n5 s4)) as [s6|] eqn:H6; [|discriminate].
  apply stripPrefix_spec in H6. injection Hm as <-.
  cbn [mCaps]. rewrite group_single.
  match goal with
  | |- context [take ?a (drop n1 s1)] => replace a with n2 by lia
  end.
  exists (take n1 s1), (take n3 (drop n2 (drop n1 s1))), (take n5 s4), s6.
  split; [|split; [exact Hsp1 | split; [now apply run_nonempty | split; [exact Hsp2 |
           split; [exact Hsp3 | split; [now apply run_nonempty | exact Hname]]]]]].
  rewrite H1. f_equal.
  rewrite <- (take_drop n1 s1) at 1. f_equal.
  rewrite <- (take_drop n2 (drop n1 s1)) at 1. f_equal.
  rewrite <- (take_drop n3 (drop n2 (drop n1 s1))) at 1. f_equal.
  rewrite H4. f_equal.
  rewrite <- (take_drop n5 s4) at 1. f_equal. exact H6.
Qed.

(** The text of a match of [exportedRegex]. *)
Lemma exportedRegex_shape st t m :
  matchAt exportedRegex st t = Some m ->
  exists sp0 sp1 sp2 sp3 rest,
    t = js "export" ++ sp0 ++ js "const" ++ sp1 ++ group 1 (mCaps m) ++ sp2 ++ js "="
        ++ sp3 ++ js "z." ++ rest
    /\ spaces sp0 /\ sp0 <> []
    /\ spaces sp1 /\ sp1 <> [] /\ spaces sp2 /\ spaces sp3
    /\ identifier (group 1 (mCaps m)).
Proof.
  unfold matchAt, exportedRegex, rseq. cbn [rmatch]. intros Hm.
  destruct (stripPrefix (js "export") t) as [s0|] eqn:H0; [|discriminate].
  apply stripPrefix_spec in H0.
  apply repGreedy_sound in Hm as (n0 & Hn0 & Hl0 & Hsp0 & Hm).
  destruct (stripPrefix (js "const") (drop n0 s0)) as [s1|] eqn:H1; [|discriminate].
  apply stripPrefix_spec in H1.
  apply repGreedy_sound in Hm as (n1 & Hn1 & Hl1 & Hsp1 & Hm).
  apply repGreedy_sound in Hm as (n2 & Hn2 & Hl2 & Hname & Hm).
  apply repGreedy_sound in Hm as (n3 & Hn3 & _ & Hsp2 & Hm).
  destruct (stripPrefix (js "=") (drop n3 (drop n2 (drop n1 s1)))) as [s4|] eqn:H4;
    [|discriminate].
  apply stripPrefix_spec in H4.
  apply repGreedy_sound in Hm as (n5 & Hn5 & _ & Hsp3 & Hm).
  destruct (stripPrefix (js "z.") (drop n5 s4)) as [s6|] eqn:H6; [|discriminate].
  apply stripPrefix_spec in H6. injection Hm as <-.
  cbn [mCaps]. rewrite group_single.
  match goal with
  | |- context [take ?a (drop n1 s1)] => replace a with n2 by lia
  end.
  exists (take n0 s0), (take n1 s1), (take n3 (drop n2 (drop n1 s1))), (take n5 s4), s6.
  split; [|split; [exact Hsp0 | split; [now apply run_nonempty | split; [exact Hsp1 |
           split; [now apply run_nonempty | split; [exact Hsp2 |
           split; [exact Hsp3 | split; [now apply run_nonempty | exact Hname]]]]]]]].
  rewrite H0. f_equal.
  rewrite <- (take_drop n0 s0) at 1. f_equal.
  rewrite H1. f_equal.
  rewrite <- (take_drop n1 s1) at 1. f_equal.
  rewrite <- (take_drop n2 (drop n1 s1)) at 1. f_equal.
  rewrite <- (take_drop n3 (drop n2 (drop n1 s1))) at 1. f_equal.
  rewrite H4. f_equal.
  rewrite <- (take_drop n5 s4) at 1. f_equal. exact H6.
Qed.

Lemma exported_sound code name :
  In name (exported (detectAllZodSchemas code)) -> identifier name /\ exportedIn code name.
Proof.
  unfold detectAllZodSchemas; cbn [exported]. intros Hin.
  apply in_map_iff in Hin as (cs & <- & Hin).
  apply matchAllFrom_each in Hin as (pre & t & st & m & -> & Hm & <-).
  apply exportedRegex_shape in Hm
    as (sp0 & sp1 & sp2 & sp3 & rest & -> & H0 & Hne0 & H1 & Hne1 & H2 & H3 & Hid).
  split; [exact Hid|].
  exists sp0, sp1, sp2, sp3. repeat (split; [assumption|]).
  exists pre, rest. rewrite <- !app_assoc. reflexivity.
Qed.

Lemma all_sound code name :
  In name (List.map (group 1) (matchAll allRegex code)) ->
  identifier name /\ declaredIn code name.
Proof.
  intros Hin. apply in_map_iff in Hin as (cs & <- & Hin).
  apply matchAllFrom_each in Hin as (pre & t & st & m & -> & Hm & <-).
  apply allRegex_shape in Hm as (sp1 & sp2 & sp3 & rest & -> & H1 & Hne1 & H2 & H3 & Hid).
  split; [exact Hid|].
  exists sp1, sp2, sp3. repeat (split; [assumption|]).
  exists pre, rest. rewrite <- !app_assoc. reflexivity.
Qed.

(** X6.  Every name [detectAllZodSchemas] reports is an identifier (a
    non-empty run of letters, digits and underscores) that the code declares:
    an exported name occurs in a text [export const <name> = z.], a
    non-exported one in a text [const <name> = z.], and a name reported as
    non-exported is never also reported as exported. *)
Theorem detected_names_are_declared_identifiers code name :
  In name (exported (detectAllZodSchemas code) ++ nonExported (detectAllZodSchemas code)) ->
  identifier name
  /\ (In name (exported (detectAllZodSchemas code)) -> exportedIn code name)
  /\ (In name (nonExported (detectAllZodSchemas code)) ->
        declaredIn code name /\ ¬ In name (exported (detectAllZodSchemas code))).
Proof.
  intros Hin.
  assert (Hnon : In name (nonExported (detectAllZodSchemas code)) ->
                 identifier name /\ declaredIn code name
                 /\ ¬ In name (exported (detectAllZodSchemas code))).
  { unfold detectAllZodSchemas at 1; cbn [nonExported]. intros Hn.
    apply filter_In in Hn as [Hall Hex]. apply all_sound in Hall as [Hid Hdecl].
    split; [assumption|]. split; [assumption|].
    apply negb_true_iff, arrIncludes_false in Hex.
    intros Habs. apply Hex. now apply list_elem_of_In. }
  split.
  - apply in_app_or in Hin as [Hex | Hn];
      [exact (proj1 (exported_sound code name Hex)) | exact (proj1 (Hnon Hn))].
  - split.
    + intros Hex. exact (proj2 (exported_sound code name Hex)).
    + intros Hn. exact (proj2 (Hnon Hn)).
Qed.

Lemma detected_names_are_declared_identifiers_witness :
  identifier (js "Team")
  /\ (In (js "Team") (exported (detectAllZodSchemas Demo.threeExports)) ->
        exportedIn Demo.threeExports (js "Team"))
  /\ (In (js "Team") (nonExported (detectAllZodSchemas Demo.threeExports)) ->
        declaredIn Demo.threeExports (js "Team")
        /\ ¬ In (js "Team") (exported (detectAllZodSchemas Demo.threeExports))).
Proof.
  apply (detected_names_are_declared_identifiers Demo.threeExports (js "Team")).
  vm_compute. right; right; left. reflexivity.
Defined.

(** ** The output splitter *)

Lemma join_cons sep x y ys : join sep (x :: y :: ys) = x ++ sep ++ join sep (y :: ys).
Proof. reflexivity. Qed.

Lemma splitOn_nonempty sep s : splitOn sep s <> [].
Proof.
  induction s as [|c s IH]; simpl; [discriminate|].
  destruct (c =? sep)%N; [discriminate|]. destruct (splitOn sep s); discriminate.
Qed.

(** Splitting at line feeds and joining with line feeds gives the text back. *)
Lemma join_splitLines s : join nl (splitLines s) = s.
Proof.
  unfold splitLines. induction s as [|c s IH]; [reflexivity|]. cbn [splitOn].
  pose proof (splitOn_nonempty 10%N s) as Hne.
  destruct (splitOn 10%N s) as [|x xs]; [congruence|].
  destruct (N.eqb_spec c 10) as [->|Hc].
  - rewrite join_cons, IH. reflexivity.
  - destruct xs as [|y ys].
    + cbn [join] in *. now rewrite IH.
    + rewrite join_cons. rewrite join_cons in IH. rewrite <- IH. reflexivity.
Qed.

Lemma leading_following p lines : leading p lines ++ following p lines = lines.
Proof.
  induction lines as [|line rest IH]; [reflexivity|]. simpl.
  destruct (p line); [simpl; now rewrite IH | reflexivity].
Qed.

Lemma importStep_take isImport st line :
  inImports st = true -> isImport (trim line) = true ->
  importStep isImport st line
  = {| scanImports := scanImports st ++ [line]; scanBody := scanBody st; inImports := true |}.
Proof. intros Hst Himp. unfold importStep. now rewrite Hst, Himp. Qed.

Lemma importStep_leave isImport st line :
  inImports st && isImport (trim line) = false ->
  importStep isImport st line
  = {| scanImports := scanImports st; scanBody := scanBody st ++ [line]; inImports := false |}.
Proof. intros Hst. unfold importStep. now rewrite Hst. Qed.

Lemma importStep_closed isImport lines : forall st,
  inImports st = false ->
  fold_left (importStep isImport) lines st
  = {| scanImports := scanImports st; scanBody := scanBody st ++ lines; inImports := false |}.
Proof.
  induction lines as [|line rest IH]; intros st Hst; cbn [fold_left].
  - rewrite app_nil_r. destruct st; simpl in *; now subst.
  - rewrite importStep_leave by now rewrite Hst.
    rewrite IH by reflexivity. simpl. now rewrite <- app_assoc.
Qed.

Lemma importStep_open isImport lines : forall st,
  inImports st = true ->
  scanImports (fold_left (importStep isImport) lines st)
  = scanImports st ++ leading (fun line => isImport (trim line)) lines
  /\ scanBody (fold_left (importStep isImport) lines st)
     = scanBody st ++ following (fun line => isImport (trim line)) lines.
Proof.
  induction lines as [|line rest IH]; intros st Hst; cbn [fold_left leading following].
  - now rewrite !app_nil_r.
  - destruct (isImport (trim line)) eqn:Himp.
    + rewrite importStep_take by assumption.
      destruct (IH {| scanImports := scanImports st ++ [line]; scanBody := scanBody st;
                      inImports := true |} eq_refl) as [Hi Hb].
      rewrite Hi, Hb. cbn [scanImports scanBody].
      split; [now rewrite <- app_assoc | reflexivity].
    + rewrite importStep_leave by (rewrite Himp; apply andb_false_r).
      rewrite importStep_closed by reflexivity. cbn [scanImports scanBody].
      split; [now rewrite app_nil_r | now rewrite <- app_assoc].
Qed.

(** X7.  The splitter takes as imports exactly the longest run of import
    lines at the top of the generated code and leaves every other line, in
    order, to the body: the first line that is not an import closes the
    import block for good, so a later line that looks like an import stays in
    the body.  Put back together, the imports and the body lines are the
    generated code, line for line; the body is their text, trimmed. *)
Theorem imports_are_the_leading_run (l : language) (output : jsstring) :
  let lines := splitLines output in
  let sp := extractImports l output in
  imports sp = leading (isImportLine l) lines
  /\ body sp = trim (join nl (following (isImportLine l) lines))
  /\ join nl (imports sp ++ following (isImportLine l) lines) = output.
Proof.
  cbv zeta.
  assert (Hsplit : forall isImport,
    imports (splitWith isImport output)
    = leading (fun line => isImport (trim line)) (splitLines output)
    /\ body (splitWith isImport output)
       = trim (join nl (following (fun line => isImport (trim line)) (splitLines output)))).
  { intros isImport. unfold splitWith. cbn [imports body].
    destruct (importStep_open isImport (splitLines output) scanStart eq_refl) as [Hi Hb].
    rewrite Hi, Hb. now split. }
  destruct l; cbn [extractImports isImportLine];
    unfold extractPythonImports, extractTypeScriptImports;
    match goal with
    | |- context [splitWith ?f output] => destruct (Hsplit f) as [Hi Hb]
    end;
    (split; [exact Hi | split; [exact Hb |]]);
    rewrite Hi, leading_following; apply join_splitLines.
Qed.

(** ** The enum extractors: what the registry holds *)

Lemma mapHas_saveEnum (s : jsstring) cur sig (m : EnumMap) :
  mapHas s (saveEnum cur sig m) = true ->
  mapHas s m = true \/ (s = sig /\ sig <> [] /\ cur <> None).
Proof.
  unfold saveEnum. destruct cur as [block|]; [|now left].
  destruct sig as [|c sig]; [now left|]. cbn [nonEmpty].
  rewrite register_spec. destruct (mapHas (c :: sig) m) eqn:Hhas; [now left|].
  unfold mapHas. rewrite existsb_app. intros [Hm | Hnew]%orb_true_iff; [now left|].
  right. simpl in Hnew. rewrite orb_false_r in Hnew. apply eqs_true in Hnew.
  repeat split; congruence.
Qed.

Lemma signatureOf_snoc valueRegex block line :
  signatureOf valueRegex (block ++ [line])
  = extendSignature valueRegex (trim line) (signatureOf valueRegex block).
Proof. unfold signatureOf, signatureFrom. now rewrite fold_left_app. Qed.

Ltac reassoc := repeat (rewrite <- ?app_assoc; cbn [app]); reflexivity.

Section Scan.
Variable l : language.

Lemma blockEndedIn_more done sig line :
  blockEndedIn l done sig -> blockEndedIn l (done ++ [line]) sig.
Proof.
  intros (hdr & block & before & next & after & -> & Hh & Hall & Hnext & Hsig).
  exists hdr, block, before, next, (after ++ [line]).
  repeat split; try assumption. reassoc.
Qed.

Lemma blockOpenIn_ended done hdr block line :
  blockOpenIn l done hdr block ->
  continuesBlock l (indentOf hdr) line = false ->
  blockEndedIn l (done ++ [line]) (signatureOf (valueOf l) block).
Proof.
  intros (before & -> & Hh & Hall) Hline.
  exists hdr, block, before, line, [].
  repeat split; try assumption. reassoc.
Qed.

Lemma blockOpenIn_more done hdr block line :
  blockOpenIn l done hdr block ->
  continuesBlock l (indentOf hdr) line = true ->
  blockOpenIn l (done ++ [line]) hdr (block ++ [line]).
Proof.
  intros (before & -> & Hh & Hall) Hline.
  exists before. repeat split; try assumption.
  - reassoc.
  - apply Forall_app. split; [assumption | now constructor].
Qed.

Lemma blockOpenIn_start done hdr :
  isEnumHeader l hdr = true -> blockOpenIn l (done ++ [hdr]) hdr [].
Proof. intros Hh. exists done. repeat split; [assumption | constructor]. Qed.

Lemma header_ends_block indent hdr :
  isEnumHeader l hdr = true -> continuesBlock l indent hdr = false.
Proof.
  destruct l; simpl; unfold pyContinues, tsContinues; intros ->; reflexivity.
Qed.

End Scan.

Lemma pyScanned_step done st line :
  pyScanned done st -> pyScanned (done ++ [line]) (pyEnumStep st line).
Proof.
  destruct st as [m body cur indent sig inEnum]. unfold pyScanned. cbn [pyEnumMap pyCurrentEnum
    pyInEnum pyEnumIndent pyEnumSignature]. intros [Hmap Hcur].
  destruct (isPyHeader line) eqn:Hh.
  - rewrite pyEnumStep_header by assumption. unfold pyFlushed.
    cbn [pyEnumMap pyCurrentEnum pyInEnum pyEnumIndent pyEnumSignature]. split.
    + intros s [Hold | (-> & Hne & Hsome)]%mapHas_saveEnum.
      * destruct (Hmap s Hold) as [Hs Hb]. split; [assumption | now apply blockEndedIn_more].
      * split; [assumption|]. destruct cur as [c|]; [|congruence].
        destruct Hcur as (_ & hdr & block & -> & Hopen & _ & ->).
        apply (blockOpenIn_ended pydantic done hdr block line Hopen).
        now apply (header_ends_block pydantic).
    + split; [reflexivity|]. exists line, []. repeat split.
      now apply (blockOpenIn_start pydantic).
  - destruct cur as [c|].
    + destruct Hcur as (-> & hdr & block & -> & Hopen & -> & ->).
      destruct (pyLeavesEnum (indentOf hdr) line) eqn:Hleave.
      * rewrite pyEnumStep_close by (unfold pyCloses; now rewrite Hh, Hleave).
        cbn [pyEnumMap pyCurrentEnum pyInEnum pyEnumIndent pyEnumSignature].
        split; [|reflexivity].
        intros s [Hold | (-> & Hne & _)]%mapHas_saveEnum.
        -- destruct (Hmap s Hold) as [Hs Hb]. split; [assumption | now apply blockEndedIn_more].
        -- split; [assumption|].
           apply (blockOpenIn_ended pydantic done hdr block line Hopen).
           cbn [continuesBlock]. unfold pyContinues. now rewrite Hh, Hleave.
      * assert (Hcont : pyContinues (indentOf hdr) line = true)
          by (unfold pyContinues; now rewrite Hh, Hleave).
        rewrite pyEnumStep_inside by assumption.
        cbn [pyEnumMap pyCurrentEnum pyInEnum pyEnumIndent pyEnumSignature]. split.
        -- intros s Hold. destruct (Hmap s Hold) as [Hs Hb].
           split; [assumption | now apply blockEndedIn_more].
        -- split; [reflexivity|]. exists hdr, (block ++ [line]).
           split; [reflexivity|]. split; [now apply (blockOpenIn_more pydantic)|].
           split; [reflexivity|]. symmetry. apply signatureOf_snoc.
    + subst inEnum. unfold pyEnumStep. unfold isPyHeader in Hh. rewrite Hh.
      cbn [pyEnumMap pyCurrentEnum pyInEnum pyEnumIndent pyEnumSignature].
      split; [|reflexivity].
      intros s Hold. destruct (Hmap s Hold) as [Hs Hb].
      split; [assumption | now apply blockEndedIn_more].
Qed.

Lemma pyScanned_run lines : forall done st,
  pyScanned done st -> pyScanned (done ++ lines) (fold_left pyEnumStep lines st).
Proof.
  induction lines as [|line lines IH]; intros done st Hst; cbn [fold_left].
  - now rewrite app_nil_r.
  - replace (done ++ line :: lines) with ((done ++ [line]) ++ lines)
      by now rewrite <- app_assoc.
    apply IH. now apply pyScanned_step.
Qed.

Lemma tsScanned_step done st line :
  tsScanned done st -> tsScanned (done ++ [line]) (tsEnumStep st line).
Proof.
  destruct st as [m body cur sig]. unfold tsScanned.
  cbn [tsEnumMap tsCurrentEnum tsEnumSignature]. intros [Hmap Hcur].
  destruct (isTsHeader line) eqn:Hh.
  - rewrite tsEnumStep_header by assumption. unfold tsFlushed.
    cbn [tsEnumMap tsCurrentEnum tsEnumSignature]. split.
    + intros s [Hold | (-> & Hne & Hsome)]%mapHas_saveEnum.
      * destruct (Hmap s Hold) as [Hs Hb]. split; [assumption | now apply blockEndedIn_more].
      * split; [assumption|]. destruct cur as [c|]; [|congruence].
        destruct Hcur as (hdr & block & -> & Hopen & ->).
        apply (blockOpenIn_ended typescript done hdr block line Hopen).
        now apply (header_ends_block typescript).
    + exists line, []. repeat split. now apply (blockOpenIn_start typescript).
  - destruct cur as [c|].
    + destruct Hcur as (hdr & block & -> & Hopen & ->).
      destruct (eqs (trim line) (js "}")) eqn:Hclose.
      * rewrite tsEnumStep_close by (unfold tsCloses; now rewrite Hh, Hclose).
        cbn [tsEnumMap tsCurrentEnum tsEnumSignature]. split; [|exact I].
        intros s [Hold | (-> & Hne & _)]%mapHas_saveEnum.
        -- destruct (Hmap s Hold) as [Hs Hb]. split; [assumption | now apply blockEndedIn_more].
        -- split; [assumption|].
           apply (blockOpenIn_ended typescript done hdr block line Hopen).
           cbn [continuesBlock]. unfold tsContinues. now rewrite Hh, Hclose.
      * assert (Hcont : tsContinues line = true)
          by (unfold tsContinues; now rewrite Hh, Hclose).
        rewrite tsEnumStep_inside by assumption.
        cbn [tsEnumMap tsCurrentEnum tsEnumSignature]. split.
        -- intros s Hold. destruct (Hmap s Hold) as [Hs Hb].
           split; [assumption | now apply blockEndedIn_more].
        -- exists hdr, (block ++ [line]).
           split; [reflexivity|]. split; [now apply (blockOpenIn_more typescript)|].
           symmetry. apply signatureOf_snoc.
    + unfold tsEnumStep. unfold isTsHeader in Hh. rewrite Hh.
      cbn [tsEnumMap tsCurrentEnum tsEnumSignature]. split; [|exact I].
      intros s Hold. destruct (Hmap s Hold) as [Hs Hb].
      split; [assumption | now apply blockEndedIn_more].
Qed.

Lemma tsScanned_run lines : forall done st,
  tsScanned done st -> tsScanned (done ++ lines) (fold_left tsEnumStep lines st).
Proof.
  induction lines as [|line lines IH]; intros done st Hst; cbn [fold_left].
  - now rewrite app_nil_r.
  - replace (done ++ line :: lines) with ((done ++ [line]) ++ lines)
      by now rewrite <- app_assoc.
    apply IH. now apply tsScanned_step.
Qed.

Lemma py_registered_block lines s :
  mapHas s (enums (pyEnumLines lines)) = true ->
  s <> [] /\ exists hdr block, pyBlockIn lines hdr block /\ signatureOf pyEnumValue block = s.
Proof.
  unfold pyEnumLines, pyEnumFinish. cbn [enums].
  assert (Hstart : pyScanned [] pyEnumStart).
  { split; [intros s' Hs'; discriminate | reflexivity]. }
  pose proof (pyScanned_run lines [] pyEnumStart Hstart) as [Hmap Hcur].
  cbn [app] in Hmap, Hcur.
  intros [Hold | (-> & Hne & Hsome)]%mapHas_saveEnum.
  - destruct (Hmap s Hold)
      as (Hs & hdr & block & before & next & after & Hlines & Hh & Hall & Hnext & Hsig).
    split; [assumption|]. exists hdr, block. split; [|assumption].
    exists before, (next :: after). repeat split; assumption.
  - split; [assumption|].
    destruct (pyCurrentEnum (fold_left pyEnumStep lines pyEnumStart)) as [c|]; [|congruence].
    destruct Hcur as (_ & hdr & block & -> & (before & Hlines & Hh & Hall) & _ & Hsig).
    exists hdr, block. split; [|now symmetry].
    exists before, []. rewrite app_nil_r. repeat split; assumption.
Qed.

Lemma ts_registered_block lines s :
  mapHas s (enums (tsEnumLines lines)) = true ->
  s <> [] /\ exists hdr block, tsBlockIn lines hdr block /\ signatureOf tsEnumValue block = s.
Proof.
  unfold tsEnumLines, tsEnumFinish. cbn [enums].
  assert (Hstart : tsScanned [] tsEnumStart).
  { split; [intros s' Hs'; discriminate | exact I]. }
  pose proof (tsScanned_run lines [] tsEnumStart Hstart) as [Hmap Hcur].
  cbn [app] in Hmap, Hcur.
  intros [Hold | (-> & Hne & Hsome)]%mapHas_saveEnum.
  - destruct (Hmap s Hold)
      as (Hs & hdr & block & before & next & after & Hlines & Hh & Hall & Hnext & Hsig).
    split; [assumption|]. exists hdr, block. split; [|assumption].
    exists before, (next :: after). repeat split; assumption.
  - split; [assumption|].
    destruct (tsCurrentEnum (fold_left tsEnumStep lines tsEnumStart)) as [c|]; [|congruence].
    destruct Hcur as (hdr & block & -> & (before & Hlines & Hh & Hall) & Hsig).
    exists hdr, block. split; [|now symmetry].
    exists before, []. rewrite app_nil_r. repeat split; assumption.
Qed.

(** X8.  The registry an extractor returns for a body holds exactly the
    non-empty value signatures of the enum blocks of that body: a signature
    is registered if and only if it is not the empty string and some block of
    the body (a header line and the lines that continue it) has it.  So
    nothing is registered that the body does not contain, and no block with
    values is missed. *)
Theorem registry_holds_exactly_the_blocks (l : language) (bodyText sig : jsstring) :
  mapHas sig (enums (extractEnums l bodyText)) = true
  <-> sig <> [] /\ hasEnumBlock l bodyText sig.
Proof.
  split.
  - destruct l; cbn [extractEnums hasEnumBlock];
      unfold extractPythonEnums, extractTypeScriptEnums; intros Hhas.
    + now apply py_registered_block.
    + now apply ts_registered_block.
  - intros [Hne Hblock]. now apply block_registered.
Qed.

(** ** Text without enum blocks *)

Lemma py_plain_run lines : forall m body indent sig,
  Forall (fun line => isPyHeader line = false) lines ->
  fold_left pyEnumStep lines
    {| pyEnumMap := m; pyBodyLines := body; pyCurrentEnum := None;
       pyEnumIndent := indent; pyEnumSignature := sig; pyInEnum := false |}
  = {| pyEnumMap := m; pyBodyLines := body ++ lines; pyCurrentEnum := None;
       pyEnumIndent := indent; pyEnumSignature := sig; pyInEnum := false |}.
Proof.
  induction lines as [|line lines IH]; intros m body indent sig Hall; cbn [fold_left].
  - now rewrite app_nil_r.
  - apply Forall_cons in Hall as [Hline Hall].
    unfold pyEnumStep at 2. unfold isPyHeader in Hline. rewrite Hline.
    cbn [pyInEnum pyCurrentEnum pyEnumMap pyBodyLines pyEnumIndent pyEnumSignature].
    rewrite IH by assumption. now rewrite <- app_assoc.
Qed.

Lemma ts_plain_run lines : forall m body sig,
  Forall (fun line => isTsHeader line = false) lines ->
  fold_left tsEnumStep lines
    {| tsEnumMap := m; tsBodyLines := body; tsCurrentEnum := None; tsEnumSignature := sig |}
  = {| tsEnumMap := m; tsBodyLines := body ++ lines; tsCurrentEnum := None;
       tsEnumSignature := sig |}.
Proof.
  induction lines as [|line lines IH]; intros m body sig Hall; cbn [fold_left].
  - now rewrite app_nil_r.
  - apply Forall_cons in Hall as [Hline Hall].
    unfold tsEnumStep at 2. unfold isTsHeader in Hline. rewrite Hline.
    cbn [tsCurrentEnum tsEnumMap tsBodyLines tsEnumSignature].
    rewrite IH by assumption. now rewrite <- app_assoc.
Qed.

Lemma extractEnums_plain (l : language) (bodyText : jsstring) :
  Forall (fun line => isEnumHeader l line = false) (splitLines bodyText) ->
  extractEnums l bodyText = {| enums := []; bodyWithoutEnums := trim bodyText |}.
Proof.
  intros Hall. destruct l; cbn [extractEnums isEnumHeader] in *.
  - unfold extractPythonEnums, pyEnumLines, pyEnumStart.
    rewrite py_plain_run by assumption. unfold pyEnumFinish.
    cbn [pyInEnum pyCurrentEnum pyEnumMap pyBodyLines pyEnumIndent pyEnumSignature app].
    now rewrite join_splitLines.
  - unfold extractTypeScriptEnums, tsEnumLines, tsEnumStart.
    rewrite ts_plain_run by assumption. unfold tsEnumFinish.
    cbn [tsCurrentEnum tsEnumMap tsBodyLines tsEnumSignature app].
    now rewrite join_splitLines.
Qed.

(** X9.  A body none of whose lines is an enum header goes through the
    extractor unchanged but for the trimming of its two ends: no line is
    taken out, none is reordered, and the registry stays empty. *)
Theorem body_without_enum_headers_is_kept (l : language) (bodyText : jsstring) :
  Forall (fun line => isEnumHeader l line = false) (splitLines bodyText) ->
  extractEnums l bodyText = {| enums := []; bodyWithoutEnums := trim bodyText |}.
Proof. apply extractEnums_plain. Qed.

Lemma body_without_enum_headers_is_kept_witness :
  extractEnums pydantic (Demo.lines [js "class User(BaseModel):"; js "    id: int"; js ""])
  = {| enums := [];
       bodyWithoutEnums :=
         trim (Demo.lines [js "class User(BaseModel):"; js "    id: int"; js ""]) |}.
Proof.
  apply (body_without_enum_headers_is_kept pydantic).
  vm_compute. repeat constructor.
Defined.

(** ** The class-dialect import merger *)

Lemma leStr_refl a : leStr a a = true.
Proof.
  induction a as [|x a IH]; [reflexivity|]. simpl.
  rewrite N.eqb_refl, IH. apply orb_true_r.
Qed.

Lemma leStr_total a : forall b, leStr a b = true \/ leStr b a = true.
Proof.
  induction a as [|x a IH]; intros [|y b]; simpl; auto.
  destruct (N.ltb_spec x y); [now left|].
  destruct (N.ltb_spec y x); [now right|].
  assert (x = y) as -> by lia. rewrite N.eqb_refl. simpl. apply IH.
Qed.

Lemma leStr_trans a : forall b c, leStr a b = true -> leStr b c = true -> leStr a c = true.
Proof.
  induction a as [|x a IH]; intros [|y b] [|z c]; simpl; try congruence.
  intros Hab Hbc.
  apply orb_true_iff in Hab as [Hxy%N.ltb_lt | [Hxy%N.eqb_eq Hab]%andb_true_iff];
    apply orb_true_iff in Hbc as [Hyz%N.ltb_lt | [Hyz%N.eqb_eq Hbc]%andb_true_iff];
    apply orb_true_iff.
  - left. apply N.ltb_lt. lia.
  - left. apply N.ltb_lt. lia.
  - left. apply N.ltb_lt. lia.
  - right. subst. rewrite N.eqb_refl. simpl. now apply (IH b).
Qed.

Lemma leStr_antisym a : forall b, leStr a b = true -> leStr b a = true -> a = b.
Proof.
  induction a as [|x a IH]; intros [|y b]; simpl; try congruence.
  intros Hab Hba.
  apply orb_true_iff in Hab as [Hxy%N.ltb_lt | [Hxy%N.eqb_eq Hab]%andb_true_iff];
    apply orb_true_iff in Hba as [Hyx%N.ltb_lt | [Hyx%N.eqb_eq Hba]%andb_true_iff];
    try lia.
  subst. f_equal. now apply IH.
Qed.

Lemma insertSorted_perm x l : Permutation (insertSorted x l) (x :: l).
Proof.
  induction l as [|y l IH]; simpl; [reflexivity|].
  destruct (leStr x y); [reflexivity|].
  rewrite IH. apply perm_swap.
Qed.

Lemma sortStr_perm l : Permutation (sortStr l) l.
Proof.
  induction l as [|x l IH]; simpl; [reflexivity|].
  rewrite insertSorted_perm. now constructor.
Qed.

Lemma insertSorted_sorted x l :
  StronglySorted (fun a b => leStr a b = true) l ->
  StronglySorted (fun a b => leStr a b = true) (insertSorted x l).
Proof.
  induction l as [|y l IH]; intros Hl; simpl.
  - constructor; constructor.
  - apply StronglySorted_inv in Hl as [Hl Hy].
    destruct (leStr x y) eqn:Hxy.
    + constructor; [now constructor|].
      constructor; [assumption|].
      eapply Forall_impl; [exact Hy|]. intros z Hz. now apply (leStr_trans x y z).
    + constructor; [now apply IH|].
      assert (Hyx : leStr y x = true) by (destruct (leStr_total x y); congruence).
      eapply Permutation_Forall; [symmetry; apply insertSorted_perm|].
      now constructor.
Qed.

Lemma sortStr_sorted l : StronglySorted (fun a b => leStr a b = true) (sortStr l).
Proof.
  induction l as [|x l IH]; simpl; [constructor | now apply insertSorted_sorted].
Qed.

Lemma sorted_strict l :
  StronglySorted (fun a b => leStr a b = true) l -> NoDup l -> StronglySorted ltStr l.
Proof.
  induction 1 as [|x l Hl IH Hx]; intros Hnd; [constructor|].
  apply NoDup_cons in Hnd as [Hin Hnd].
  constructor; [now apply IH|].
  apply Forall_forall. intros y Hy. split.
  - rewrite Forall_forall in Hx. now apply Hx.
  - intros ->. now apply Hin.
Qed.

Lemma sortStr_strict l : NoDup l -> StronglySorted ltStr (sortStr l).
Proof.
  intros Hnd. apply sorted_strict; [apply sortStr_sorted|].
  now rewrite sortStr_perm.
Qed.

Lemma StronglySorted_filter_keep {A} (R : A -> A -> Prop) (p : A -> bool) l :
  StronglySorted R l -> StronglySorted R (List.filter p l).
Proof.
  induction 1 as [|x l Hl IH Hx]; simpl; [constructor|].
  destruct (p x); [|assumption].
  constructor; [assumption|].
  apply Forall_forall. intros y Hy.
  apply list_elem_of_In, filter_In in Hy as [Hy _].
  rewrite Forall_forall in Hx. now apply Hx, list_elem_of_In.
Qed.

Lemma setAdd_NoDup x s : NoDup s -> NoDup (setAdd x s).
Proof.
  intros Hs. unfold setAdd. destruct (arrIncludes s x) eqn:Hin; [assumption|].
  apply arrIncludes_false in Hin.
  apply NoDup_app. repeat split; [assumption | | apply NoDup_singleton].
  intros y Hy ->%list_elem_of_singleton. contradiction.
Qed.

Lemma setAdd_from (P : jsstring -> Prop) x s : P x -> Forall P s -> Forall P (setAdd x s).
Proof.
  intros Hx Hs. unfold setAdd. destruct (arrIncludes s x); [assumption|].
  apply Forall_app. split; [assumption | now constructor].
Qed.

Section Maps.
Context {V : Type}.
Implicit Types m : list (jsstring * V).

Lemma mapKeys_mapSet k (v : V) m :
  mapKeys (mapSet k v m) = if mapHas k m then mapKeys m else mapKeys m ++ [k].
Proof.
  unfold mapKeys, mapHas. induction m as [|e m IH]; simpl; [reflexivity|].
  destruct (eqs e.1 k) eqn:He; simpl.
  - apply eqs_true in He. now rewrite He.
  - rewrite IH. now destruct (existsb (fun e0 => eqs e0.1 k) m).
Qed.

Lemma mapGet_mapSet k k' (v : V) m :
  mapGet k' (mapSet k v m) = if eqs k k' then Some v else mapGet k' m.
Proof.
  unfold mapGet. induction m as [|e m IH]; simpl.
  - destruct (eqs k k'); reflexivity.
  - destruct (eqs e.1 k) eqn:He; simpl.
    + apply eqs_true in He. rewrite He. destruct (eqs k k'); reflexivity.
    + destruct (eqs e.1 k') eqn:He'; simpl.
      * apply eqs_true in He'. subst k'.
        apply eqs_false in He. destruct (eqs k e.1) eqn:Hk; [|reflexivity].
        apply eqs_true in Hk. congruence.
      * exact IH.
Qed.

Lemma mapKeys_mapSet_NoDup k (v : V) m : NoDup (mapKeys m) -> NoDup (mapKeys (mapSet k v m)).
Proof.
  intros Hnd. rewrite mapKeys_mapSet. destruct (mapHas k m) eqn:Hhas; [assumption|].
  apply NoDup_app. repeat split; [assumption | | apply NoDup_singleton].
  intros y Hy ->%list_elem_of_singleton.
  assert (Hk : existsb (fun e => eqs e.1 k) m = true).
  { apply existsb_exists. apply list_elem_of_In, in_map_iff in Hy as (e & <- & He).
    exists e. split; [assumption | apply eqs_refl]. }
  unfold mapHas in Hhas. congruence.
Qed.
End Maps.

Lemma tidyMap_set module items m :
  tidyMap m -> NoDup items -> tidyMap (mapSet module items m).
Proof.
  intros [Hk Hv] Hitems. split; [now apply mapKeys_mapSet_NoDup|].
  intros k its. rewrite mapGet_mapSet. destruct (eqs module k); [|apply Hv].
  now intros [= <-].
Qed.

Lemma tidyMap_items module itemList : forall m,
  tidyMap m ->
  tidyMap (fold_left (fun m item =>
             mapSet module (setAdd item (default [] (mapGet module m))) m) itemList m).
Proof.
  induction itemList as [|item itemList IH]; intros m Hm; cbn [fold_left]; [assumption|].
  apply IH. apply tidyMap_set; [assumption|]. apply setAdd_NoDup.
  destruct (mapGet module m) as [its|] eqn:Hget; simpl;
    [now apply (proj2 Hm module) | apply NoDup_nil_2].
Qed.

Lemma pyTidy_step lines acc line :
  In line lines -> pyTidy lines acc -> pyTidy lines (pyImportLine acc line).
Proof.
  intros Hin (Hk & Hv & Hs & Hfrom). unfold pyImportLine.
  destruct (exec fromImportRegex (trim line)) as [cs|].
  - cbn [importsByModule standaloneImports].
    assert (Htidy : tidyMap
      (fold_left (fun m item =>
         mapSet (group 1 cs) (setAdd item (default [] (mapGet (group 1 cs) m))) m)
         (List.map trim (splitOn (chr ",") (group 2 cs)))
         (if mapHas (group 1 cs) (importsByModule acc) then importsByModule acc
          else mapSet (group 1 cs) [] (importsByModule acc)))).
    { apply tidyMap_items.
      destruct (mapHas (group 1 cs) (importsByModule acc)); [now split|].
      apply tidyMap_set; [now split | apply NoDup_nil_2]. }
    destruct Htidy as [Hk' Hv']. repeat split; assumption.
  - destruct (exec plainImportRegex (trim line)) as [cs|]; [|repeat split; assumption].
    cbn [importsByModule standaloneImports].
    repeat split; [assumption | assumption | now apply setAdd_NoDup |].
    apply setAdd_from; [eauto | assumption].
Qed.

Lemma pyTidy_run lines arr : forall acc,
  (forall line, In line arr -> In line lines) ->
  pyTidy lines acc -> pyTidy lines (fold_left pyImportLine arr acc).
Proof.
  induction arr as [|line arr IH]; intros acc Hsub Hacc; cbn [fold_left]; [assumption|].
  apply IH; [intros x Hx; apply Hsub; now right|].
  apply pyTidy_step; [apply Hsub; now left | assumption].
Qed.

Lemma pyTidy_all arrays : forall acc,
  pyTidy (List.concat arrays) acc ->
  pyTidy (List.concat arrays) (fold_left (fun a arr => fold_left pyImportLine arr a) arrays acc).
Proof.
  intros acc Hacc. rewrite fold_left_nested. now apply pyTidy_run.
Qed.

Lemma grouped_lines (get : jsstring -> list jsstring) modules : forall out,
  fold_left (fun merged module =>
    if (0 <? length (get module))%nat
    then merged ++ [js "from " ++ module ++ js " import " ++ join (js ", ") (get module)]
    else merged) modules out
  = out ++ List.map (fun module => fromLine module (get module))
             (List.filter (fun module => (0 <? length (get module))%nat) modules).
Proof.
  induction modules as [|module modules IH]; intros out; cbn [fold_left List.filter].
  - now rewrite app_nil_r.
  - rewrite IH. destruct (0 <? length (get module))%nat; [|reflexivity].
    cbn [List.map]. now rewrite <- app_assoc.
Qed.

(** X10.  The merged imports of the class dialect are in a canonical form,
    whatever the bindings' import lines were: first one [from <module> import
    <items>] line per module, the modules strictly increasing in code-unit
    order, each with at least one item and its items strictly increasing (so
    no module and no item is repeated); then the whole-module imports,
    strictly increasing, each the trimmed text of one of the input lines. *)
Theorem python_imports_are_canonical (importArrays : list (list jsstring)) :
  exists (groups : list (jsstring * list jsstring)) (standalone : list jsstring),
    mergePythonImports importArrays
    = List.map (fun g => fromLine g.1 g.2) groups ++ standalone
    /\ StronglySorted ltStr (List.map fst groups)
    /\ Forall (fun g => g.2 <> [] /\ StronglySorted ltStr g.2) groups
    /\ StronglySorted ltStr standalone
    /\ Forall (fun s => exists line, In line (List.concat importArrays) /\ s = trim line)
         standalone.
Proof.
  unfold mergePythonImports.
  set (acc := fold_left (fun a arr => fold_left pyImportLine arr a) importArrays
                {| importsByModule := []; standaloneImports := [] |}).
  assert (Hacc : pyTidy (List.concat importArrays) acc).
  { apply pyTidy_all. repeat split; cbn [importsByModule standaloneImports mapKeys List.map];
      try apply NoDup_nil_2; try constructor.
    intros k items Hget. discriminate. }
  destruct Hacc as (Hk & Hv & Hs & Hfrom).
  set (get := fun module => sortStr (default [] (mapGet module (importsByModule acc)))).
  set (kept := List.filter (fun module => (0 <? length (get module))%nat)
                 (sortStr (mapKeys (importsByModule acc)))).
  exists (List.map (fun module => (module, get module)) kept),
         (sortStr (standaloneImports acc)).
  split; [|split; [|split; [|split]]].
  - rewrite (grouped_lines get). cbn [app]. rewrite map_map. reflexivity.
  - rewrite map_map. cbn [fst]. rewrite map_id.
    apply StronglySorted_filter_keep. now apply sortStr_strict.
  - apply Forall_forall. intros g Hg.
    apply list_elem_of_In, in_map_iff in Hg as (module & <- & Hm).
    apply filter_In in Hm as [_ Hlen]. cbn [snd]. split.
    + intros Hnil. rewrite Hnil in Hlen. discriminate.
    + apply sortStr_strict.
      destruct (mapGet module (importsByModule acc)) as [its|] eqn:Hget; simpl;
        [now apply (Hv module) | apply NoDup_nil_2].
  - now apply sortStr_strict.
  - eapply Permutation_Forall; [symmetry; apply sortStr_perm | exact Hfrom].
Qed.

(** ** Lines of the same module *)

Lemma repGreedy_all {R} p run post least pos (k : nat -> jsstring -> option R) res :
  Forall (fun c => p c = true) run ->
  match post with [] => True | c :: _ => p c = false end ->
  least <= length run ->
  k (pos + length run) post = Some res ->
  repGreedy p least pos (run ++ post) k = Some res.
Proof.
  intros Hrun Hpost Hleast Hk.
  apply (repGreedy_backtrack p run least pos post k res (length run));
    [assumption | assumption | assumption | lia | intros n Hlt Hle; lia |].
  now rewrite drop_all.
Qed.

Lemma repGreedy_whole {R} p run least pos (k : nat -> jsstring -> option R) res :
  Forall (fun c => p c = true) run ->
  least <= length run ->
  k (pos + length run) [] = Some res ->
  repGreedy p least pos run k = Some res.
Proof.
  intros Hrun Hleast Hk.
  pose proof (repGreedy_all p run [] least pos k res Hrun I Hleast Hk) as Hall.
  now rewrite app_nil_r in Hall.
Qed.

Lemma add_sub_left (a b : nat) : a + b - a = b.
Proof. lia. Qed.

Lemma nameChar_notSpace c : isNameChar c = true -> isNotSpace c = true.
Proof. unfold isNameChar, isNotSpace. now intros [H _]%andb_true_iff. Qed.

Lemma notSpace_dot c : isSpace c = false -> isDot c = true.
Proof.
  unfold isSpace, isDot. intros Hs. apply negb_true_iff.
  destruct (N.eqb_spec c 10) as [Heq|?]; [rewrite Heq in Hs; discriminate Hs|].
  destruct (N.eqb_spec c 13) as [Heq|?]; [rewrite Heq in Hs; discriminate Hs|].
  destruct (N.eqb_spec c 8232) as [Heq|?]; [rewrite Heq in Hs; discriminate Hs|].
  destruct (N.eqb_spec c 8233) as [Heq|?]; [rewrite Heq in Hs; discriminate Hs|].
  reflexivity.
Qed.

(** The pattern for [from <module> import <items>] on such a line. *)
Lemma fromImport_exec (module items : jsstring) :
  module <> [] -> Forall (fun c => isNotSpace c = true) module ->
  items <> [] -> match items with [] => True | c :: _ => isSpace c = false end ->
  Forall (fun c => isDot c = true) items ->
  exec fromImportRegex (js "from " ++ module ++ js " import " ++ items)
  = Some [(2, items); (1, module)].
Proof.
  intros Hm Hmodule Hi Hhead Hitems.
  unfold exec.
  assert (Hmatch : exists e,
    matchAt fromImportRegex 0 (js "from " ++ module ++ js " import " ++ items)
    = Some {| mEnd := e; mRest := []; mCaps := [(2, items); (1, module)] |}).
  { unfold matchAt, fromImportRegex, rseq. cbn [rmatch].
    change (js "from " ++ module ++ js " import " ++ items)
      with (js "from" ++ [32%N] ++ module ++ [32%N] ++ js "import" ++ [32%N] ++ items).
    rewrite stripPrefix_app.
    eexists.
    apply repGreedy_all; [repeat constructor | | simpl; lia |].
    { destruct module as [|c module]; [congruence|]. cbn [app].
      apply Forall_cons in Hmodule as [Hc _]. now apply negb_true_iff in Hc. }
    apply repGreedy_all; [assumption | reflexivity | |].
    { destruct module; [congruence | simpl; lia]. }
    apply repGreedy_all; [repeat constructor | reflexivity | simpl; lia |].
    rewrite stripPrefix_app.
    apply repGreedy_all; [repeat constructor | | simpl; lia |].
    { destruct items as [|c items]; [congruence | exact Hhead]. }
    apply repGreedy_whole; [assumption | |].
    { destruct items; [congruence | simpl; lia]. }
    match goal with
    | |- context [take ?n items] =>
        replace n with (length items) by exact (eq_sym (add_sub_left _ _))
    end.
    match goal with
    | |- context [take ?n (module ++ ?rest)] =>
        replace n with (length module) by exact (eq_sym (add_sub_left _ _))
    end.
    rewrite firstn_all, take_app_length. reflexivity. }
  destruct Hmatch as [e Hmatch]. rewrite (search_hit _ _ _ _ Hmatch). reflexivity.
Qed.

Lemma trimEnd_snoc (b : jsstring) (d : char) : isSpace d = false -> trimEnd (b ++ [d]) = b ++ [d].
Proof.
  intros Hd. unfold trimEnd. rewrite rev_app_distr. cbn [rev app dropWhile].
  rewrite Hd. cbn [rev]. now rewrite rev_involutive.
Qed.

Lemma trim_edges (c d : char) (s b : jsstring) :
  isSpace c = false -> isSpace d = false -> c :: s = b ++ [d] -> trim (c :: s) = c :: s.
Proof.
  intros Hc Hd Heq. unfold trim, trimStart. cbn [dropWhile]. rewrite Hc.
  rewrite Heq. now apply trimEnd_snoc.
Qed.

Lemma plainName_edges (x : jsstring) :
  plainName x ->
  (exists c s, x = c :: s /\ isSpace c = false)
  /\ (exists b d, x = b ++ [d] /\ isSpace d = false).
Proof.
  intros [Hne Hall]. split.
  - destruct x as [|c s]; [congruence|]. exists c, s. split; [reflexivity|].
    apply Forall_cons in Hall as [Hc _]. unfold isNameChar in Hc.
    apply andb_true_iff in Hc as [Hc _]. now apply negb_true_iff in Hc.
  - destruct (exists_last Hne) as (b & d & ->). exists b, d. split; [reflexivity|].
    apply Forall_app in Hall as [_ Hd]. apply Forall_cons in Hd as [Hd _].
    unfold isNameChar in Hd. apply andb_true_iff in Hd as [Hd _]. now apply negb_true_iff in Hd.
Qed.

Lemma trim_plainName (x : jsstring) : plainName x -> trim x = x.
Proof.
  intros Hx. destruct (plainName_edges x Hx) as [(c & s & -> & Hc) (b & d & Heq & Hd)].
  now apply (trim_edges c d s b).
Qed.

Lemma trim_after_space (x : jsstring) : trim (32%N :: x) = trim x.
Proof. reflexivity. Qed.

(** The items of a line: joined with a comma and a space. *)
Lemma itemText_edges (A : list jsstring) :
  A <> [] -> Forall plainName A ->
  (exists c s, join (js ", ") A = c :: s /\ isSpace c = false)
  /\ (exists b d, join (js ", ") A = b ++ [d] /\ isSpace d = false)
  /\ Forall (fun c => isDot c = true) (join (js ", ") A).
Proof.
  induction A as [|x A IH]; intros Hne Hall; [congruence|].
  apply Forall_cons in Hall as [Hx Hall].
  destruct (plainName_edges x Hx) as [(c & s & Hcs & Hc) (b & d & Hbd & Hd)].
  assert (Hxdot : Forall (fun c => isDot c = true) x).
  { destruct Hx as [_ Hx]. eapply Forall_impl; [exact Hx|].
    intros a Ha. apply notSpace_dot. unfold isNameChar in Ha.
    apply andb_true_iff in Ha as [Ha _]. now apply negb_true_iff in Ha. }
  destruct A as [|y A].
  - cbn [join]. split; [eauto|]. split; [eauto | assumption].
  - destruct (IH ltac:(discriminate) Hall) as (_ & (b' & d' & Hbd' & Hd') & Hdot).
    change (join (js ", ") (x :: y :: A)) with (x ++ js ", " ++ join (js ", ") (y :: A)).
    split; [|split].
    + exists c, (s ++ js ", " ++ join (js ", ") (y :: A)). rewrite Hcs. now split.
    + exists (x ++ js ", " ++ b'), d'. split; [|assumption].
      rewrite Hbd'. now rewrite <- !app_assoc.
    + apply Forall_app. split; [assumption|].
      apply Forall_app. split; [repeat constructor | assumption].
Qed.

Lemma splitOn_plain (x rest : jsstring) :
  Forall (fun c => isNameChar c = true) x ->
  splitOn 44%N (x ++ 44%N :: rest) = x :: splitOn 44%N rest.
Proof.
  induction x as [|c x IH]; intros Hx; cbn [app splitOn].
  - reflexivity.
  - apply Forall_cons in Hx as [Hc Hx]. rewrite IH by assumption.
    unfold isNameChar in Hc. apply andb_true_iff in Hc as [_ Hc].
    apply negb_true_iff in Hc. now rewrite Hc.
Qed.

Lemma splitOn_plain_end (x : jsstring) :
  Forall (fun c => isNameChar c = true) x -> splitOn 44%N x = [x].
Proof.
  induction x as [|c x IH]; intros Hx; cbn [splitOn]; [reflexivity|].
  apply Forall_cons in Hx as [Hc Hx]. rewrite IH by assumption.
  unfold isNameChar in Hc. apply andb_true_iff in Hc as [_ Hc].
  apply negb_true_iff in Hc. now rewrite Hc.
Qed.

Lemma splitOn_space (rest : jsstring) :
  exists h t, splitOn 44%N rest = h :: t /\ splitOn 44%N (32%N :: rest) = (32%N :: h) :: t.
Proof.
  cbn [splitOn]. change (32 =? 44)%N with false. cbn iota.
  destruct (splitOn 44%N rest) as [|h t] eqn:Hs; [now apply splitOn_nonempty in Hs|].
  eauto.
Qed.

Lemma items_split (A : list jsstring) :
  A <> [] -> Forall plainName A ->
  List.map trim (splitOn (chr ",") (join (js ", ") A)) = A.
Proof.
  change (chr ",") with 44%N.
  induction A as [|x A IH]; intros Hne Hall; [congruence|].
  apply Forall_cons in Hall as [Hx Hall].
  destruct A as [|y A].
  - cbn [join]. rewrite splitOn_plain_end by apply Hx. cbn [List.map].
    now rewrite trim_plainName.
  - change (join (js ", ") (x :: y :: A))
      with (x ++ 44%N :: 32%N :: join (js ", ") (y :: A)).
    rewrite splitOn_plain by apply Hx.
    destruct (splitOn_space (join (js ", ") (y :: A))) as (h & t & Hs & ->).
    specialize (IH ltac:(discriminate) Hall). rewrite Hs in IH.
    cbn [List.map] in *. rewrite trim_after_space, IH. now rewrite trim_plainName.
Qed.

Lemma trim_fromLine (module : jsstring) (A : list jsstring) :
  A <> [] -> Forall plainName A -> trim (fromLine module A) = fromLine module A.
Proof.
  intros Hne Hall. destruct (itemText_edges A Hne Hall) as (_ & (b & d & Hbd & Hd) & _).
  unfold fromLine.
  change (js "from " ++ module ++ js " import " ++ join (js ", ") A)
    with (102%N :: js "rom " ++ module ++ js " import " ++ join (js ", ") A).
  apply (trim_edges 102%N d _ (js "from " ++ module ++ js " import " ++ b));
    [reflexivity | assumption|].
  rewrite Hbd. change (102%N :: js "rom " ++ module ++ js " import " ++ b ++ [d])
    with (js "from " ++ module ++ js " import " ++ b ++ [d]).
  now rewrite <- !app_assoc.
Qed.

Lemma mapGet_single {V} (k : jsstring) (v : V) : mapGet k [(k, v)] = Some v.
Proof. unfold mapGet. simpl. now rewrite eqs_refl. Qed.

Lemma mapSet_single {V} (k : jsstring) (v v' : V) : mapSet k v' [(k, v)] = [(k, v')].
Proof. simpl. now rewrite eqs_refl. Qed.

Lemma mapHas_single {V} (k : jsstring) (v : V) : mapHas k [(k, v)] = true.
Proof. unfold mapHas. simpl. now rewrite eqs_refl. Qed.

Lemma fold_single (module : jsstring) (A : list jsstring) : forall s,
  fold_left (fun m item => mapSet module (setAdd item (default [] (mapGet module m))) m)
    A [(module, s)]
  = [(module, fold_left (fun s i => setAdd i s) A s)].
Proof.
  induction A as [|x A IH]; intros s; cbn [fold_left]; [reflexivity|].
  rewrite mapGet_single, mapSet_single. cbn [default]. apply IH.
Qed.

Lemma pyImportLine_same (module : jsstring) (A : list jsstring) st :
  plainName module -> A <> [] -> Forall plainName A ->
  pyImportLine (oneModule module st) (fromLine module A)
  = oneModule module (Some (fold_left (fun s i => setAdd i s) A (default [] st))).
Proof.
  intros [Hm Hmod] Hne Hall. unfold pyImportLine.
  rewrite trim_fromLine by assumption.
  destruct (itemText_edges A Hne Hall) as ((c & s & Hcs & Hc) & _ & Hdot).
  unfold fromLine at 1.
  rewrite fromImport_exec; cycle 1.
  - assumption.
  - eapply Forall_impl; [exact Hmod | apply nameChar_notSpace].
  - rewrite Hcs. discriminate.
  - now rewrite Hcs.
  - assumption.
  - rewrite group_first, group_second, items_split by assumption.
    unfold oneModule. cbn [importsByModule standaloneImports]. f_equal.
    destruct st as [s0|]; cbn [default].
    + rewrite mapHas_single. apply fold_single.
    + cbn [mapHas existsb mapSet]. apply fold_single.
Qed.

Lemma distinct_from (l : list jsstring) : forall s x,
  In x (fold_left (fun s i => setAdd i s) l s) <-> In x s \/ In x l.
Proof.
  induction l as [|y l IH]; intros s x; cbn [fold_left].
  - simpl. tauto.
  - rewrite IH. unfold setAdd. destruct (arrIncludes s y) eqn:Hin.
    + apply arrIncludes_true, list_elem_of_In in Hin. simpl. split; [tauto|].
      intros [Hs | [-> | Hl]]; auto.
    + rewrite in_app_iff. simpl. tauto.
Qed.

Lemma distinct_NoDup (l : list jsstring) : forall s,
  NoDup s -> NoDup (fold_left (fun s i => setAdd i s) l s).
Proof.
  induction l as [|y l IH]; intros s Hs; cbn [fold_left]; [assumption|].
  apply IH. now apply setAdd_NoDup.
Qed.

Lemma same_module_run (module : jsstring) (itemLists : list (list jsstring)) : forall st,
  plainName module ->
  Forall (fun its => its <> [] /\ Forall plainName its) itemLists ->
  itemLists <> [] ->
  fold_left (fun a arr => fold_left pyImportLine arr a)
    (List.map (fun its => [fromLine module its]) itemLists) (oneModule module st)
  = oneModule module
      (Some (fold_left (fun s i => setAdd i s) (List.concat itemLists) (default [] st))).
Proof.
  induction itemLists as [|its itemLists IH]; intros st Hm Hall Hne; [congruence|].
  apply Forall_cons in Hall as [[Hits Hplain] Hall].
  cbn [List.map fold_left List.concat]. rewrite pyImportLine_same by assumption.
  rewrite fold_left_app.
  destruct itemLists as [|its' itemLists]; [reflexivity|].
  rewrite IH by (assumption || discriminate). reflexivity.
Qed.

(** X11.  Import lines of the class dialect that name the same module are
    merged into one line: when every binding imports plain names from the
    module [module], the merged imports are the single line [from module
    import <items>], whose items are the names imported by any of the
    bindings, each once, in strictly increasing code-unit order. *)
Theorem same_module_imports_are_united (module : jsstring)
    (itemLists : list (list jsstring)) :
  plainName module ->
  itemLists <> [] ->
  Forall (fun its => its <> [] /\ Forall plainName its) itemLists ->
  exists items,
    mergePythonImports (List.map (fun its => [fromLine module its]) itemLists)
    = [fromLine module items]
    /\ StronglySorted ltStr items
    /\ (forall x, In x items <-> exists its, In its itemLists /\ In x its).
Proof.
  intros Hm Hne Hall.
  exists (sortStr (distinct (List.concat itemLists))). split; [|split].
  - unfold mergePythonImports.
    change {| importsByModule := []; standaloneImports := [] |} with (oneModule module None).
    rewrite same_module_run by assumption.
    cbn [oneModule importsByModule standaloneImports default mapKeys List.map fst].
    change (sortStr [module]) with [module]. cbn [fold_left].
    rewrite mapGet_single. cbn [default].
    fold (distinct (List.concat itemLists)).
    assert (Hlen : (0 <? length (sortStr (distinct (List.concat itemLists))))%nat = true).
    { apply Nat.ltb_lt. rewrite (Permutation_length (sortStr_perm _)).
      destruct itemLists as [|its itemLists]; [congruence|].
      apply Forall_cons in Hall as [[Hits _] _].
      destruct its as [|x its]; [congruence|].
      assert (Hin : In x (distinct (List.concat ((x :: its) :: itemLists)))).
      { apply distinct_from. right. now left. }
      destruct (distinct (List.concat ((x :: its) :: itemLists))); [destruct Hin | simpl; lia]. }
    unfold id. rewrite Hlen. reflexivity.
  - apply sortStr_strict. apply distinct_NoDup. apply NoDup_nil_2.
  - intros x. rewrite <- in_concat.
    split.
    + intros Hin. apply (Permutation_in _ (sortStr_perm _)) in Hin.
      apply distinct_from in Hin as [[] | Hin]. 
      apply in_concat in Hin as (its & Hits & Hx). apply in_concat. eauto.
    + intros Hin. apply (Permutation_in _ (Permutation_sym (sortStr_perm _))).
      apply distinct_from. now right.
Qed.

Lemma same_module_imports_are_united_witness :
  exists items,
    mergePythonImports
      [[js "from typing import List, Optional"]; [js "from typing import Dict, List"]]
    = [fromLine (js "typing") items]
    /\ StronglySorted ltStr items
    /\ (forall x, In x items <->
          exists its, In its [[js "List"; js "Optional"]; [js "Dict"; js "List"]] /\ In x its).
Proof.
  apply (same_module_imports_are_united (js "typing")
           [[js "List"; js "Optional"]; [js "Dict"; js "List"]]).
  - split; [discriminate | vm_compute; repeat constructor].
  - discriminate.
  - repeat constructor; try discriminate; vm_compute; repeat constructor.
Defined.

(** ** The route handler *)

Section Handler.
Context `{Delegate}.
Variable env : Env.

Lemma includesValue_spec (l : list jsstring) (v : jsvalue) :
  includesValue l v = true -> exists s, v = VString s /\ In s l.
Proof.
  destruct v as [s|t]; [|discriminate]. simpl. intros Hin.
  apply arrIncludes_true, list_elem_of_In in Hin. eauto.
Qed.

Lemma existsb_none {A} (p : A -> bool) (l : list A) :
  existsb p l = false -> Forall (fun x => p x = false) l.
Proof.
  induction l as [|x l IH]; simpl; [constructor|].
  intros [Hx Hl]%orb_false_iff. constructor; auto.
Qed.

Lemma none_existsb {A} (p : A -> bool) (l : list A) :
  Forall (fun x => p x = false) l -> existsb p l = false.
Proof.
  induction 1 as [|x l Hx Hl IH]; simpl; [reflexivity|]. now rewrite Hx, IH.
Qed.

(** The handler on a request that passes its checks. *)
Lemma convertRoute_admitted production timerFirst req code l v w :
  admitted req code l v ->
  convertRoute env production timerFirst req w
  = let '(settled, w') := convertZodSchema env code l v w in
    if timerFirst then caught (newError (js "Execution timeout")) w'
    else match settled with
         | inl error => caught error w'
         | inr result => answer production result w'
         end.
Proof.
  intros (Htimed & body & lang & ver & Hbody & Hcode & Hlang & Hver & Hne & Hlen & Hlines
          & Hpat & Hl & <- & Hv & <-).
  unfold convertRoute. rewrite Htimed, Hbody, Hcode, Hlang, Hver.
  cbn [truthy isString stringOf includesValue negb orb].
  assert (Hn : nonEmpty code = true) by (destruct code; [congruence | reflexivity]).
  rewrite Hn. cbn [negb orb].
  destruct (N.ltb_spec 100000 (N.of_nat (length code))) as [Hbig|_]; [lia|].
  destruct (Nat.ltb_spec 2000 (lineCount code)) as [Hbig|_]; [lia|].
  rewrite (none_existsb _ _ Hpat).
  assert (Hnl : nonEmpty lang = true) by (destruct Hl as [-> | ->]; reflexivity).
  assert (Hil : arrIncludes [js "pydantic"; js "typescript"] lang = true).
  { apply arrIncludes_true, list_elem_of_In. destruct Hl as [-> | ->]; simpl; auto. }
  assert (Hnv : nonEmpty ver = true) by (destruct Hv as [-> | ->]; reflexivity).
  assert (Hiv : arrIncludes [js "3"; js "4"] ver = true).
  { apply arrIncludes_true, list_elem_of_In. destruct Hv as [-> | ->]; simpl; auto. }
  rewrite Hnl, Hil, Hnv, Hiv. reflexivity.
Qed.

Lemma convertRouteLegacy_admitted production req code l v w :
  admitted req code l v ->
  convertRouteLegacy env production req w
  = let '(settled, w') := convertZodSchema env code l v w in
    match settled with
    | inl error => caughtLegacy error w'
    | inr result => answer production result w'
    end.
Proof.
  intros (Htimed & body & lang & ver & Hbody & Hcode & Hlang & Hver & Hne & Hlen & Hlines
          & Hpat & Hl & <- & Hv & <-).
  unfold convertRouteLegacy. rewrite Hbody, Hcode, Hlang, Hver.
  cbn [truthy isString stringOf includesValue negb orb].
  assert (Hn : nonEmpty code = true) by (destruct code; [congruence | reflexivity]).
  rewrite Hn. cbn [negb orb].
  destruct (Nat.ltb_spec 5000 (lineCount code)) as [Hbig|_]; [lia|].
  assert (Hnl : nonEmpty lang = true) by (destruct Hl as [-> | ->]; reflexivity).
  assert (Hil : arrIncludes [js "pydantic"; js "typescript"] lang = true).
  { apply arrIncludes_true, list_elem_of_In. destruct Hl as [-> | ->]; simpl; auto. }
  assert (Hnv : nonEmpty ver = true) by (destruct Hv as [-> | ->]; reflexivity).
  assert (Hiv : arrIncludes [js "3"; js "4"] ver = true).
  { apply arrIncludes_true, list_elem_of_In. destruct Hv as [-> | ->]; simpl; auto. }
  rewrite Hnl, Hil, Hnv, Hiv. reflexivity.
Qed.

(** A request the handler does not answer with a refusal is an admitted
    one. *)
Lemma convertRoute_checks production timerFirst req w :
  (exists code l v, admitted req code l v)
  \/ exists st message w',
       convertRoute env production timerFirst req w
       = (({| status := st; payload := ErrorJson message |}, []), w')
       /\ (st = 400 \/ st = 408 \/ st = 500)
       /\ fs w' = fs w /\ events w' = events w.
Proof.
  unfold convertRoute.
  destruct (timedout req) eqn:Htimed.
  { right. eexists _, _, _. split; [reflexivity|]. auto. }
  destruct (reqBody req) as [body|] eqn:Hbody.
  2:{ right. unfold caught, destructureError, newError.
      change (eqs _ (js "Execution timeout")) with false. cbn iota.
      eexists _, _, _. split; [reflexivity|]. cbn [fs events]. auto. }
  destruct (bodySchemaCode body) as [code|t] eqn:Hcode.
  2:{ right. cbn [truthy isString negb orb]. rewrite orb_true_r.
      eexists _, _, _. split; [reflexivity|]. auto. }
  cbn [truthy isString stringOf negb orb]. rewrite orb_false_r.
  destruct (nonEmpty code) eqn:Hn; cbn [negb].
  2:{ right. eexists _, _, _. split; [reflexivity|]. auto. }
  destruct (N.ltb_spec 100000 (N.of_nat (length code))) as [Hbig|Hlen].
  { right. eexists _, _, _. split; [reflexivity|]. auto. }
  destruct (Nat.ltb_spec 2000 (lineCount code)) as [Hbig|Hlines].
  { right. eexists _, _, _. split; [reflexivity|]. auto. }
  destruct (existsb (fun pattern => test pattern code) suspiciousPatterns) eqn:Hpat.
  { right. eexists _, _, _. split; [reflexivity|]. auto. }
  destruct (negb (truthy (bodyTargetLanguage body))
            || negb (includesValue [js "pydantic"; js "typescript"] (bodyTargetLanguage body)))
    eqn:Hlang.
  { right. eexists _, _, _. split; [reflexivity|]. auto. }
  destruct (negb (truthy (bodyZodVersion body))
            || negb (includesValue [js "3"; js "4"] (bodyZodVersion body))) eqn:Hver.
  { right. eexists _, _, _. split; [reflexivity|]. auto. }
  left.
  apply orb_false_iff in Hlang as [_ Hlang]. apply negb_false_iff in Hlang.
  apply includesValue_spec in Hlang as (lang & Hl & Hlin).
  apply orb_false_iff in Hver as [_ Hver]. apply negb_false_iff in Hver.
  apply includesValue_spec in Hver as (ver & Hv & Hvin).
  exists code, (asLanguage lang), (asVersion ver).
  split; [assumption|]. exists body, lang, ver.
  repeat (split; [first [assumption | reflexivity]|]).
  split; [destruct code; [discriminate | congruence]|].
  split; [assumption|]. split; [assumption|].
  split; [now apply existsb_none|].
  split; [simpl in Hlin; destruct Hlin as [<- | [<- | []]]; auto|].
  split; [reflexivity|].
  split; [simpl in Hvin; destruct Hvin as [<- | [<- | []]]; auto | reflexivity].
Qed.

(** X12.  The strict handler starts a conversion only for a request that
    passed all its checks: a request that is not admitted (timed out, no
    string as schema code, empty, more than 100000 code units, more than 2000
    lines, a text that one of the nine patterns matches, a language or a
    version that is not one of the two strings) is answered with an error
    body and status 400, 408 or 500, and neither the file system nor the
    record of file-system and delegate calls changes. *)
Theorem refused_requests_never_reach_the_converter production timerFirst req (w : World) :
  (forall code l v, ¬ admitted req code l v) ->
  exists st message w',
    convertRoute env production timerFirst req w
    = (({| status := st; payload := ErrorJson message |}, []), w')
    /\ (st = 400 \/ st = 408 \/ st = 500)
    /\ fs w' = fs w /\ events w' = events w.
Proof.
  intros Hnot.
  destruct (convertRoute_checks production timerFirst req w)
    as [(code & l & v & Hadm) | Hrefused]; [|exact Hrefused].
  now apply Hnot in Hadm.
Qed.

Lemma module_root_error (fs : FS) (e : thrown) :
  findNodeModulesRootIn env fs = inl e ->
  e = newError (js "Could not locate node_modules. Set SCHEMABRIDGE_MODULE_ROOT to override.").
Proof.
  unfold findNodeModulesRootIn.
  destruct (moduleRootOverride env) as [o|]; [destruct (nodeModulesIn fs o); [discriminate|]|];
    destruct (walkUp fs (rev (cwd env))); try discriminate;
    destruct (walkUp fs (rev (dirname (moduleDir env)))); try discriminate;
    now intros [= <-].
Qed.

(** X13.  What an admitted request is answered with.  If the timer fires
    first: status 408.  Otherwise, if no [node_modules] directory is found:
    status 500 with the fixed text of that error, which is also logged.
    Otherwise the conversion returns, and its result decides: output gives
    status 200 with the output; an error with a non-empty message gives
    status 400 with the message; an error with the empty message gives
    status 200 without any output. *)
Theorem answer_to_an_admitted_request production timerFirst req code l v (w : World) :
  admitted req code l v ->
  let run := convertZodSchema env code l v w in
  let '((response, _), w') := convertRoute env production timerFirst req w in
  if timerFirst then
    response = {| status := 408;
                  payload := ErrorJson (js "Conversion timed out. Schema may be too complex.") |}
    /\ w' = run.2
  else
    match findNodeModulesRootIn env (fs w) with
    | inl e =>
        response
        = {| status := 500;
             payload := ErrorJson (js "Could not locate node_modules. Set SCHEMABRIDGE_MODULE_ROOT to override.") |}
        /\ fs w' = fs w /\ events w' = events w
        /\ console w' = console w ++ [ConsoleError (js "Conversion error:") e]
    | inr _ =>
        w' = run.2
        /\ exists result, run.1 = inr result
           /\ response
              = match result with
                | ROutput output => {| status := 200; payload := OutputJson (Some output) |}
                | RError [] => {| status := 200; payload := OutputJson None |}
                | RError message => {| status := 400; payload := ErrorJson message |}
                end
    end.
Proof.
  intros Hadm. cbv zeta.
  rewrite (convertRoute_admitted production timerFirst req code l v w Hadm).
  destruct timerFirst.
  - destruct (convertZodSchema env code l v w) as [settled w1]. now split.
  - destruct (findNodeModulesRootIn env (fs w)) as [e|root] eqn:Hroot.
    + rewrite (convertZodSchema_rejects env e code l v w Hroot).
      pose proof (module_root_error (fs w) e Hroot) as ->.
      unfold caught, newError.
      change (eqs _ (js "Execution timeout")) with false. cbn iota. cbn [fs events console].
      repeat split.
    + destruct (convertZodSchema_run env root code l v w Hroot) as (res & w1 & w' & _ & _ & ->).
      cbn [fst snd]. unfold answer.
      destruct res as [output | [|c message]]; cbn [errorOf outputOf nonEmpty];
        (split; [reflexivity|]); eexists; (split; [reflexivity|]); reflexivity.
Qed.

(** X14.  The strict handler only narrows the older one: a request it admits
    is answered by the older handler exactly as by the strict one, response,
    log and world, unless the timer fires first.  (The older handler has no
    timer, no size or pattern check, and allows 5000 lines.) *)
Theorem strict_handler_narrows_the_older_one production req code l v (w : World) :
  admitted req code l v ->
  convertRouteLegacy env production req w = convertRoute env production false req w.
Proof.
  intros Hadm.
  rewrite (convertRoute_admitted production false req code l v w Hadm).
  rewrite (convertRouteLegacy_admitted production req code l v w Hadm).
  destruct (findNodeModulesRootIn env (fs w)) as [e|root] eqn:Hroot.
  - rewrite (convertZodSchema_rejects env e code l v w Hroot).
    pose proof (module_root_error (fs w) e Hroot) as ->. reflexivity.
  - destruct (convertZodSchema_run env root code l v w Hroot) as (res & w1 & w' & _ & _ & ->).
    reflexivity.
Qed.

End Handler.

Lemma refused_requests_never_reach_the_converter_witness :
  exists st message w',
    @convertRoute Demo.delegate Demo.env1 false false Sample.unsafeRequest Demo.boot
    = (({| status := st; payload := ErrorJson message |}, []), w')
    /\ (st = 400 \/ st = 408 \/ st = 500)
    /\ fs w' = fs Demo.boot /\ events w' = events Demo.boot.
Proof.
  apply (@refused_requests_never_reach_the_converter Demo.delegate Demo.env1 false false
           Sample.unsafeRequest Demo.boot).
  intros code l v (_ & body & lang & ver & Hbody & Hcode & _ & _ & _ & _ & _ & Hpat & _).
  injection Hbody as <-. injection Hcode as <-.
  apply Forall_cons in Hpat as [_ Hpat]. apply Forall_cons in Hpat as [_ Hpat].
  apply Forall_cons in Hpat as [_ Hpat]. apply Forall_cons in Hpat as [_ Hpat].
  apply Forall_cons in Hpat as [_ Hpat]. apply Forall_cons in Hpat as [Heval _].
  vm_compute in Heval. discriminate Heval.
Defined.

Lemma answer_to_an_admitted_request_witness :
  let run := @convertZodSchema Demo.delegate Demo.env1 Demo.threeExports pydantic V4 Demo.boot in
  let '((response, _), w') :=
    @convertRoute Demo.delegate Demo.env1 false false Sample.request Demo.boot in
  match findNodeModulesRootIn Demo.env1 (fs Demo.boot) with
  | inl e =>
      response
      = {| status := 500;
           payload := ErrorJson (js "Could not locate node_modules. Set SCHEMABRIDGE_MODULE_ROOT to override.") |}
      /\ fs w' = fs Demo.boot /\ events w' = events Demo.boot
      /\ console w' = console Demo.boot ++ [ConsoleError (js "Conversion error:") e]
  | inr _ =>
      w' = run.2
      /\ exists result, run.1 = inr result
         /\ response
            = match result with
              | ROutput output => {| status := 200; payload := OutputJson (Some output) |}
              | RError [] => {| status := 200; payload := OutputJson None |}
              | RError message => {| status := 400; payload := ErrorJson message |}
              end
  end.
Proof.
  apply (@answer_to_an_admitted_request Demo.delegate Demo.env1 false false Sample.request
           Demo.threeExports pydantic V4 Demo.boot).
  split; [reflexivity|].
  exists {| bodySchemaCode := VString Demo.threeExports;
            bodyTargetLanguage := VString (js "pydantic");
            bodyZodVersion := VString (js "4") |}, (js "pydantic"), (js "4").
  repeat (split; [reflexivity|]).
  split; [discriminate|].
  split; [apply N.leb_le; vm_compute; reflexivity|].
  split; [apply Nat.leb_le; vm_compute; reflexivity|].
  split; [repeat constructor|].
  split; [now left|]. split; [reflexivity|]. split; [now right | reflexivity].
Defined.

Lemma strict_handler_narrows_the_older_one_witness :
  @convertRouteLegacy Demo.delegate Demo.env1 false Sample.request Demo.boot
  = @convertRoute Demo.delegate Demo.env1 false false Sample.request Demo.boot.
Proof.
  apply (@strict_handler_narrows_the_older_one Demo.delegate Demo.env1 false Sample.request
           Demo.threeExports pydantic V4 Demo.boot).
  split; [reflexivity|].
  exists {| bodySchemaCode := VString Demo.threeExports;
            bodyTargetLanguage := VString (js "pydantic");
            bodyZodVersion := VString (js "4") |}, (js "pydantic"), (js "4").
  repeat (split; [reflexivity|]).
  split; [discriminate|].
  split; [apply N.leb_le; vm_compute; reflexivity|].
  split; [apply Nat.leb_le; vm_compute; reflexivity|].
  split; [repeat constructor|].
  split; [now left|]. split; [reflexivity|]. split; [now right | reflexivity].
Defined.

(** ** Diagnostics as lines of the output *)

Lemma word_dot c : isWord c = true -> isDot c = true.
Proof.
  unfold isWord, isDot. intros Hw. apply negb_true_iff.
  destruct (N.eqb_spec c 10) as [Heq|?]; [rewrite Heq in Hw; discriminate Hw|].
  destruct (N.eqb_spec c 13) as [Heq|?]; [rewrite Heq in Hw; discriminate Hw|].
  destruct (N.eqb_spec c 8232) as [Heq|?]; [rewrite Heq in Hw; discriminate Hw|].
  destruct (N.eqb_spec c 8233) as [Heq|?]; [rewrite Heq in Hw; discriminate Hw|].
  reflexivity.
Qed.

Lemma literal_oneLine (s : jsstring) : forallb isDot s = true -> oneLine s.
Proof.
  intros Hall. apply Forall_forall. intros c Hin.
  rewrite forallb_forall in Hall. now apply Hall, list_elem_of_In.
Qed.

Lemma prefix_oneLine l : oneLine (getCommentPrefix l).
Proof. destruct l; now apply literal_oneLine. Qed.

Lemma cleanError_oneLine message : oneLine message -> oneLine (cleanError message).
Proof.
  intros Hm. unfold cleanError.
  apply replaceAll_Forall; [|constructor].
  apply replaceAll_Forall; [assumption|]. now apply literal_oneLine.
Qed.

(** X15.  A diagnostic begins with the comment prefix of the target language
    and a space, and it is a single line, hence a comment as a whole, when
    the binding's name has no line terminator and the failure's message
    either is one of the two classified kinds (of which only the method name,
    or the cause up to the end of its line, is taken) or has no line
    terminator itself. *)
Theorem diagnostic_is_one_comment_line (exportName : jsstring) (error : thrown)
    (l : language) :
  let message := messageOr (js "Unknown error") error in
  oneLine exportName ->
  (exec notFunctionRegex message = None -> exec importFailRegex message = None ->
   oneLine message) ->
  (exists rest,
     formatConversionError exportName error l = getCommentPrefix l ++ js " " ++ rest)
  /\ oneLine (formatConversionError exportName error l).
Proof.
  cbv zeta. intros Hname Hmessage. unfold formatConversionError.
  destruct (exec notFunctionRegex (messageOr (js "Unknown error") error)) as [cs|] eqn:Hnf.
  - split; [eexists; reflexivity|].
    destruct (notFunction_match _ cs Hnf) as (_ & Hw & _).
    unfold oneLine.
    repeat (apply Forall_app; split); try assumption;
      try (now apply prefix_oneLine); try (now apply literal_oneLine).
    eapply Forall_impl; [exact Hw | apply word_dot].
  - destruct (exec importFailRegex (messageOr (js "Unknown error") error)) as [cs|] eqn:Hif.
    + split; [eexists; reflexivity|].
      destruct (importFail_match _ cs Hif) as (_ & _ & _ & Hcause & _).
      unfold oneLine.
      repeat (apply Forall_app; split); try assumption;
        try (now apply prefix_oneLine); try (now apply literal_oneLine).
    + split; [eexists; reflexivity|].
      specialize (Hmessage eq_refl eq_refl). apply cleanError_oneLine in Hmessage.
      unfold oneLine.
      repeat (apply Forall_app; split); try assumption;
        try (now apply prefix_oneLine); try (now apply literal_oneLine).
Qed.

Lemma diagnostic_is_one_comment_line_witness :
  let error :=
    ThrownError (js "z.strictObject is not a function" ++ nl ++ js "    at schema.mjs:3:20")
                (js "TypeError") in
  (exists rest,
     formatConversionError (js "User") error typescript
     = getCommentPrefix typescript ++ js " " ++ rest)
  /\ oneLine (formatConversionError (js "User") error typescript).
Proof.
  apply (diagnostic_is_one_comment_line (js "User")
           (ThrownError (js "z.strictObject is not a function" ++ nl
                         ++ js "    at schema.mjs:3:20") (js "TypeError")) typescript).
  - vm_compute. repeat constructor.
  - vm_compute. discriminate.
Defined.

(** ** The notice about bindings that are not exported *)

Lemma splitOn_cut sep (x rest : jsstring) :
  Forall (fun c => (c =? sep)%N = false) x ->
  splitOn sep (x ++ sep :: rest) = x :: splitOn sep rest.
Proof.
  induction x as [|c x IH]; intros Hx; cbn [app splitOn].
  - now rewrite N.eqb_refl.
  - apply Forall_cons in Hx as [Hc Hx]. rewrite IH by assumption. now rewrite Hc.
Qed.

Lemma splitOn_whole sep (x : jsstring) :
  Forall (fun c => (c =? sep)%N = false) x -> splitOn sep x = [x].
Proof.
  induction x as [|c x IH]; intros Hx; cbn [splitOn]; [reflexivity|].
  apply Forall_cons in Hx as [Hc Hx]. rewrite IH by assumption. now rewrite Hc.
Qed.

Lemma word_noFeed c : isWord c = true -> (c =? 10)%N = false.
Proof.
  unfold isWord. intros Hw.
  destruct (N.eqb_spec c 10) as [Heq|?]; [rewrite Heq in Hw; discriminate Hw | reflexivity].
Qed.

Lemma literal_noFeed (s : jsstring) :
  forallb (fun c => negb (c =? 10)%N) s = true -> Forall (fun c => (c =? 10)%N = false) s.
Proof.
  intros Hall. apply Forall_forall. intros c Hin.
  rewrite forallb_forall in Hall. apply list_elem_of_In, Hall in Hin.
  now apply negb_true_iff in Hin.
Qed.

Lemma join_noFeed (sep : jsstring) (names : list jsstring) :
  Forall (fun c => (c =? 10)%N = false) sep ->
  Forall (fun name => Forall (fun c => (c =? 10)%N = false) name) names ->
  Forall (fun c => (c =? 10)%N = false) (join sep names).
Proof.
  intros Hsep. induction 1 as [|name names Hname Hnames IH]; [constructor|].
  destruct names as [|name' names]; [exact Hname|].
  change (join sep (name :: name' :: names)) with (name ++ sep ++ join sep (name' :: names)).
  repeat (apply Forall_app; split); assumption.
Qed.

Lemma nonExported_noFeed code :
  Forall (fun name => Forall (fun c => (c =? 10)%N = false) name)
    (nonExported (detectAllZodSchemas code)).
Proof.
  apply Forall_forall. intros name Hin. apply list_elem_of_In in Hin.
  unfold detectAllZodSchemas in Hin. cbn [nonExported] in Hin.
  apply filter_In in Hin as [Hall _]. apply all_sound in Hall as [[_ Hword] _].
  eapply Forall_impl; [exact Hword | apply word_noFeed].
Qed.

(** X16.  When the code declares bindings that are not exported, the notice
    appended to the output is two empty lines and three comment lines, for
    every code: the names are identifiers, so none of them can end a comment
    line and put text of the request into the generated code. *)
Theorem unhandled_notice_is_three_comment_lines (code : jsstring) (l : language) :
  let names := nonExported (detectAllZodSchemas code) in
  names <> [] ->
  splitLines (unhandledComment l names)
  = [ []; [];
      getCommentPrefix l
      ++ js " Note: The following Zod schemas were detected but not converted because they are not exported:";
      getCommentPrefix l ++ js " " ++ join (js ", ") names;
      getCommentPrefix l
      ++ js " To convert them, add 'export' before their declaration (e.g., export const "
      ++ List.hd [] names ++ js " = z....)" ].
Proof.
  cbv zeta. intros Hne.
  pose proof (nonExported_noFeed code) as Hnames.
  unfold unhandledComment.
  destruct (nonExported (detectAllZodSchemas code)) as [|name names] eqn:Hn; [congruence|].
  cbn [length Nat.ltb Nat.leb List.hd]. unfold splitLines, nl.
  assert (Hp : Forall (fun c => (c =? 10)%N = false) (getCommentPrefix l))
    by (destruct l; now apply literal_noFeed).
  assert (Hfirst : Forall (fun c => (c =? 10)%N = false) name)
    by (now apply Forall_cons in Hnames as [Hname _]).
  set (p := getCommentPrefix l) in *.
  set (line1 := p ++ js " Note: The following Zod schemas were detected but not converted because they are not exported:").
  set (line2 := p ++ js " " ++ join (js ", ") (name :: names)).
  set (line3 := p ++ js " To convert them, add 'export' before their declaration (e.g., export const "
                ++ name ++ js " = z....)").
  match goal with
  | |- splitOn _ ?text = _ =>
      replace text with ([] ++ 10%N :: ([] ++ 10%N :: (line1 ++ 10%N :: (line2 ++ 10%N :: line3))))
  end.
  2:{ subst line1 line2 line3. repeat (rewrite <- ?app_assoc; cbn [app]). reflexivity. }
  rewrite (splitOn_cut 10%N []) by constructor.
  rewrite (splitOn_cut 10%N []) by constructor.
  rewrite (splitOn_cut 10%N line1).
  2:{ subst line1. repeat (apply Forall_app; split); try assumption; now apply literal_noFeed. }
  rewrite (splitOn_cut 10%N line2).
  2:{ subst line2. repeat (apply Forall_app; split); try assumption;
        try (now apply literal_noFeed).
      apply join_noFeed; [now apply literal_noFeed | assumption]. }
  rewrite (splitOn_whole 10%N line3); [reflexivity|].
  subst line3. repeat (apply Forall_app; split); try assumption; now apply literal_noFeed.
Qed.

Lemma unhandled_notice_is_three_comment_lines_witness :
  let code := js "const Inner = z.string(); export const Outer = z.object({ inner: Inner });" in
  let names := nonExported (detectAllZodSchemas code) in
  splitLines (unhandledComment pydantic names)
  = [ []; [];
      getCommentPrefix pydantic
      ++ js " Note: The following Zod schemas were detected but not converted because they are not exported:";
      getCommentPrefix pydantic ++ js " " ++ join (js ", ") names;
      getCommentPrefix pydantic
      ++ js " To convert them, add 'export' before their declaration (e.g., export const "
      ++ List.hd [] names ++ js " = z....)" ].
Proof.
  apply (unhandled_notice_is_three_comment_lines
           (js "const Inner = z.string(); export const Outer = z.object({ inner: Inner });")
           pydantic).
  vm_compute. discriminate.
Defined.

(** ** Generated code that has nothing to merge *)

Lemma dropWhile_idem p (s : jsstring) : dropWhile p (dropWhile p s) = dropWhile p s.
Proof.
  induction s as [|c s IH]; [reflexivity|]. simpl.
  destruct (p c) eqn:Hc; [assumption|]. simpl. now rewrite Hc.
Qed.

Lemma dropWhile_snoc p (a : jsstring) (c : char) :
  p c = false -> dropWhile p (a ++ [c]) = dropWhile p a ++ [c].
Proof.
  intros Hc. induction a as [|x a IH]; simpl; [now rewrite Hc|].
  destruct (p x); [assumption | reflexivity].
Qed.

Lemma trimEnd_cons (c : char) (t : jsstring) :
  isSpace c = false -> trimEnd (c :: t) = c :: trimEnd t.
Proof.
  intros Hc. unfold trimEnd. cbn [rev]. rewrite dropWhile_snoc by assumption.
  rewrite rev_app_distr. reflexivity.
Qed.

Lemma trimEnd_idem (s : jsstring) : trimEnd (trimEnd s) = trimEnd s.
Proof. unfold trimEnd. now rewrite rev_involutive, dropWhile_idem. Qed.

Lemma trim_idem (s : jsstring) : trim (trim s) = trim s.
Proof.
  unfold trim, trimStart.
  destruct (dropWhile isSpace s) as [|c t] eqn:Hs.
  - reflexivity.
  - assert (Hc : isSpace c = false).
    { clear -Hs. induction s as [|x s IH]; [discriminate|]. simpl in Hs.
      destruct (isSpace x) eqn:Hx; [now apply IH | now injection Hs as <- _]. }
    rewrite trimEnd_cons by assumption. cbn [dropWhile]. rewrite Hc.
    rewrite <- trimEnd_cons by assumption. apply trimEnd_idem.
Qed.

Lemma mergeImports_nothing (l : language) (n : nat) : mergeImports (repeat [] n) l = [].
Proof.
  destruct l; cbn [mergeImports].
  - unfold mergePythonImports.
    assert (Hacc : forall acc,
      fold_left (fun a arr => fold_left pyImportLine arr a) (repeat [] n) acc = acc).
    { induction n as [|n IH]; intros acc; [reflexivity | apply IH]. }
    rewrite Hacc. reflexivity.
  - unfold mergeTypeScriptImports.
    assert (Hacc : forall acc,
      fold_left (fun a arr => fold_left tsImportLine arr a) (repeat [] n) acc = acc).
    { induction n as [|n IH]; intros acc; [reflexivity | apply IH]. }
    rewrite Hacc. reflexivity.
Qed.

Lemma addOutput_plain (l : language) (st : Batch) (output : jsstring) :
  plainOutput l output ->
  addOutput l st output
  = {| allImports := allImports st ++ [[]];
       allEnums := allEnums st;
       bodyOutputs := bodyOutputs st ++ [trim output] |}.
Proof.
  intros [Hlead Hplain]. unfold addOutput.
  assert (Hsp : imports (extractImports l output) = []
                /\ body (extractImports l output) = trim output).
  { assert (Hsplit : forall isImport,
      leading (fun line => isImport (trim line)) (splitLines output) = [] ->
      imports (splitWith isImport output) = []
      /\ body (splitWith isImport output) = trim output).
    { intros isImport Hl. unfold splitWith. cbn [imports body].
      destruct (importStep_open isImport (splitLines output) scanStart eq_refl) as [Hi Hb].
      rewrite Hi, Hb, Hl. cbn [scanStart scanImports scanBody app]. split; [reflexivity|].
      pose proof (leading_following (fun line => isImport (trim line)) (splitLines output))
        as Hall.
      rewrite Hl in Hall. cbn [app] in Hall. now rewrite Hall, join_splitLines. }
    destruct l; cbn [extractImports]; now apply Hsplit. }
  destruct Hsp as [-> ->].
  rewrite extractEnums_plain by assumption.
  cbn [enums bodyWithoutEnums mergeEnums fold_left]. now rewrite trim_idem.
Qed.

Lemma plain_batch (l : language) (outputs : list jsstring) : forall st,
  Forall (plainOutput l) outputs ->
  fold_left (addOutput l) outputs st
  = {| allImports := allImports st ++ repeat [] (length outputs);
       allEnums := allEnums st;
       bodyOutputs := bodyOutputs st ++ List.map trim outputs |}.
Proof.
  induction outputs as [|output outputs IH]; intros st Hall; cbn [fold_left].
  - cbn [length repeat List.map]. rewrite !app_nil_r. now destruct st.
  - apply Forall_cons in Hall as [Hout Hall].
    rewrite addOutput_plain by assumption. rewrite IH by assumption.
    cbn [allImports allEnums bodyOutputs length repeat List.map].
    now rewrite <- !app_assoc.
Qed.

(** X17.  Generated code that has no import line at its top and no enum
    header goes through the whole post-processing unchanged: for bindings
    that all generate such code, the assembled output is their trimmed texts,
    in order, separated by one empty line, followed by the notice about
    bindings that are not exported.  Nothing is added, dropped or
    reordered. *)
Theorem plain_code_is_only_trimmed_and_joined (l : language) (outputs : list jsstring)
    (notExported : list jsstring) :
  Forall (plainOutput l) outputs ->
  finalOutput l notExported (fold_left (addOutput l) outputs batchStart)
  = join (nl ++ nl) (List.map trim outputs) ++ unhandledComment l notExported.
Proof.
  intros Hall. rewrite plain_batch by assumption.
  unfold finalOutput, importsSection, enumSection, bodySection.
  cbn [batchStart allImports allEnums bodyOutputs app].
  rewrite mergeImports_nothing. reflexivity.
Qed.

Lemma plain_code_is_only_trimmed_and_joined_witness :
  let outputs :=
    [Demo.lines [js "class User(BaseModel):"; js "    id: int"; js ""];
     Demo.lines [js ""; js "class Team(BaseModel):"; js "    name: str"]] in
  finalOutput pydantic [] (fold_left (addOutput pydantic) outputs batchStart)
  = join (nl ++ nl) (List.map trim outputs) ++ unhandledComment pydantic [].
Proof.
  apply (plain_code_is_only_trimmed_and_joined pydantic
           [Demo.lines [js "class User(BaseModel):"; js "    id: int"; js ""];
            Demo.lines [js ""; js "class Team(BaseModel):"; js "    name: str"]] []).
  repeat constructor; vm_compute; repeat constructor.
Defined.

(** ** What stays in the body *)

Lemma kept_more (l : language) (kept done : list jsstring) (line : jsstring) :
  isEnumHeader l line = false ->
  kept `sublist_of` done /\ Forall (fun x => isEnumHeader l x = false) kept ->
  (kept ++ [line]) `sublist_of` (done ++ [line])
  /\ Forall (fun x => isEnumHeader l x = false) (kept ++ [line]).
Proof.
  intros Hline [Hsub Hall]. split.
  - now apply sublist_app.
  - apply Forall_app. split; [assumption | now constructor].
Qed.

Lemma kept_skip (l : language) (kept done : list jsstring) (line : jsstring) :
  kept `sublist_of` done /\ Forall (fun x => isEnumHeader l x = false) kept ->
  kept `sublist_of` (done ++ [line]) /\ Forall (fun x => isEnumHeader l x = false) kept.
Proof. intros [Hsub Hall]. split; [now apply sublist_inserts_r | assumption]. Qed.

Lemma pyBody_step (done : list jsstring) (st : PyEnumState) (line : jsstring) :
  pyBodyLines st `sublist_of` done
  /\ Forall (fun x => isEnumHeader pydantic x = false) (pyBodyLines st) ->
  pyBodyLines (pyEnumStep st line) `sublist_of` (done ++ [line])
  /\ Forall (fun x => isEnumHeader pydantic x = false) (pyBodyLines (pyEnumStep st line)).
Proof.
  intros Hst. unfold pyEnumStep.
  destruct (test pyEnumHeader (trim line)) eqn:Hh; cbn [pyBodyLines].
  - now apply kept_skip.
  - destruct (pyInEnum st), (pyCurrentEnum st); cbn [pyBodyLines];
      try (now apply kept_more).
    destruct (pyLeavesEnum (pyEnumIndent st) line); cbn [pyBodyLines];
      [now apply kept_more | now apply kept_skip].
Qed.

Lemma tsBody_step (done : list jsstring) (st : TsEnumState) (line : jsstring) :
  tsBodyLines st `sublist_of` done
  /\ Forall (fun x => isEnumHeader typescript x = false) (tsBodyLines st) ->
  tsBodyLines (tsEnumStep st line) `sublist_of` (done ++ [line])
  /\ Forall (fun x => isEnumHeader typescript x = false) (tsBodyLines (tsEnumStep st line)).
Proof.
  intros Hst. unfold tsEnumStep.
  destruct (test tsEnumHeader (trim line)) eqn:Hh; cbn [tsBodyLines].
  - now apply kept_skip.
  - destruct (tsCurrentEnum st); cbn [tsBodyLines]; [|now apply kept_more].
    destruct (eqs (trim line) (js "}")); cbn [tsBodyLines]; now apply kept_skip.
Qed.

Lemma pyBody_run (lines : list jsstring) : forall done st,
  pyBodyLines st `sublist_of` done
  /\ Forall (fun x => isEnumHeader pydantic x = false) (pyBodyLines st) ->
  pyBodyLines (fold_left pyEnumStep lines st) `sublist_of` (done ++ lines)
  /\ Forall (fun x => isEnumHeader pydantic x = false)
       (pyBodyLines (fold_left pyEnumStep lines st)).
Proof.
  induction lines as [|line lines IH]; intros done st Hst; cbn [fold_left].
  - now rewrite app_nil_r.
  - replace (done ++ line :: lines) with ((done ++ [line]) ++ lines)
      by now rewrite <- app_assoc.
    apply IH. now apply pyBody_step.
Qed.

Lemma tsBody_run (lines : list jsstring) : forall done st,
  tsBodyLines st `sublist_of` done
  /\ Forall (fun x => isEnumHeader typescript x = false) (tsBodyLines st) ->
  tsBodyLines (fold_left tsEnumStep lines st) `sublist_of` (done ++ lines)
  /\ Forall (fun x => isEnumHeader typescript x = false)
       (tsBodyLines (fold_left tsEnumStep lines st)).
Proof.
  induction lines as [|line lines IH]; intros done st Hst; cbn [fold_left].
  - now rewrite app_nil_r.
  - replace (done ++ line :: lines) with ((done ++ [line]) ++ lines)
      by now rewrite <- app_assoc.
    apply IH. now apply tsBody_step.
Qed.

Lemma body_selection (l : language) (bodyText : jsstring) :
  exists kept,
    bodyWithoutEnums (extractEnums l bodyText) = trim (join nl kept)
    /\ kept `sublist_of` splitLines bodyText
    /\ Forall (fun line => isEnumHeader l line = false) kept.
Proof.
  destruct l; cbn [extractEnums].
  - exists (pyBodyLines (fold_left pyEnumStep (splitLines bodyText) pyEnumStart)).
    split; [reflexivity|].
    apply (pyBody_run (splitLines bodyText) [] pyEnumStart).
    split; [apply sublist_nil_l | constructor].
  - exists (tsBodyLines (fold_left tsEnumStep (splitLines bodyText) tsEnumStart)).
    split; [reflexivity|].
    apply (tsBody_run (splitLines bodyText) [] tsEnumStart).
    split; [apply sublist_nil_l | constructor].
Qed.

(** X18.  What an enum extractor leaves as the body is made of lines of the
    body it was given, in their order, and none of them is an enum header:
    the extractor only takes lines out, it never adds or reorders one, and
    every header line is taken out together with its block.  The body it
    returns is those lines joined by line feeds, trimmed. *)
Theorem remaining_body_is_a_selection_without_headers (l : language) (bodyText : jsstring) :
  exists kept,
    bodyWithoutEnums (extractEnums l bodyText) = trim (join nl kept)
    /\ kept `sublist_of` splitLines bodyText
    /\ Forall (fun line => isEnumHeader l line = false) kept.
Proof. apply body_selection. Qed.

(** ** The body slots of a batch *)

(** Every diagnostic begins with the comment mark of the target and a
    space, and names the binding in quotes. *)
Lemma diagnostic_shape (name : jsstring) (e : thrown) (l : language) :
  exists rest,
    formatConversionError name e l
    = match l with pydantic => js "#" | typescript => js "//" end ++ js " " ++ rest
    /\ within (js "'" ++ name ++ js "'") rest.
Proof.
  unfold formatConversionError, getCommentPrefix.
  destruct (exec notFunctionRegex (messageOr (js "Unknown error") e)) as [cs|].
  - eexists. split.
    + change (js " Invalid Zod method 'z.") with (js " " ++ js "Invalid Zod method 'z.").
      rewrite <- !app_assoc. reflexivity.
    + exists (js "Invalid Zod method 'z." ++ group 1 cs ++ js "()' in schema "),
             (js ". This method may not exist in the selected Zod version. Check the Zod documentation for valid methods.").
      rewrite <- !app_assoc. reflexivity.
  - destruct (exec importFailRegex (messageOr (js "Unknown error") e)) as [cs|].
    + eexists. split.
      * change (js " Failed to load schema '") with (js " " ++ js "Failed to load schema '").
        rewrite <- !app_assoc. reflexivity.
      * exists (js "Failed to load schema "), (js ": " ++ group 2 cs).
        rewrite <- !app_assoc. reflexivity.
    + eexists. split.
      * change (js " Error in schema '") with (js " " ++ js "Error in schema '").
        rewrite <- !app_assoc. reflexivity.
      * exists (js "Error in schema "),
               (js ": " ++ cleanError (messageOr (js "Unknown error") e)).
        rewrite <- !app_assoc. reflexivity.
Qed.

Lemma Forall2_map_of {A B} (P : A -> B -> Prop) (f : A -> B) (xs : list A) :
  (forall x, P x (f x)) -> Forall2 P xs (List.map f xs).
Proof. intros Hf. induction xs; simpl; constructor; auto. Qed.

Section Isolation.
Context `{Delegate}.
Variable env : Env.

(** X19.  Once the workspace is set up (the requested version exists, the
    transpiler returns, no file-system operation of the setup fails), the
    batch always ends with an output, whichever bindings throw.  The output
    ends with one body slot per exported binding, in scan order and joined
    by blank lines, followed by the notice about schemas that are not
    exported.  The slot of a binding whose load or generation threw begins
    with the comment mark of the target and a space and names the binding in
    quotes; the slot of a binding that converted is its generated code
    without the import lines and the enum blocks.  Every binding is loaded,
    in scan order, also after a failure, and the workspace is removed at the
    end. *)
Theorem failed_binding_is_isolated root code l v w transpiled :
  let names := exported (detectAllZodSchemas code) in
  let results := outcomesOf (tempFileOf env) l names (prepared env root v transpiled (fs w)) in
  quiet env ->
  findNodeModulesRootIn env (fs w) = inr root ->
  length names <> 0 ->
  length names <= 10 ->
  existsSync (fs w) (zodVersionPathOf root v) = true ->
  transpileModule code = inr transpiled ->
  exists top slots w' before loop,
    convertZodSchema env code l v w
    = (inr (ROutput (top ++ join (nl ++ nl) slots
                     ++ unhandledComment l (nonExported (detectAllZodSchemas code)))), w')
    /\ List.map fst results = names
    /\ Forall2
         (fun result slot =>
            match result.2 with
            | inl e =>
                exists rest,
                  slot = match l with pydantic => js "#" | typescript => js "//" end
                         ++ js " " ++ rest
                  /\ within (js "'" ++ result.1 ++ js "'") rest
            | inr output =>
                slot = bodyWithoutEnums (extractEnums l (body (extractImports l output)))
            end)
         results slots
    /\ events w' = before ++ loop ++ [EvFs (OpRm (tempDirOf env))]
    /\ loadsOf loop = names.
Proof.
  intros names results Hquiet Hroot Hn0 Hn10 Hx Ht.
  destruct (convert_output env root code l v w transpiled Hquiet Hroot Hn0 Hn10 Hx Ht)
    as (w' & w1 & before & Hrun & Hev & _).
  fold names in Hrun, Hev. fold results in Hrun.
  eexists _, (List.map (slotOf l) results), w', before, _.
  split; [|split; [|split; [|split; [exact Hev|]]]].
  - rewrite Hrun. unfold finalOutput, bodySection. rewrite batchOf_slots.
    cbn [bodyOutputs batchStart app]. rewrite !app_assoc. reflexivity.
  - apply runBindings_names.
  - apply Forall2_map_of. intros [name [e|output]]; unfold slotOf; cbn [fst snd].
    + apply diagnostic_shape.
    + reflexivity.
  - apply loadsOf_loopEvents.
Qed.
End Isolation.

Lemma failed_binding_is_isolated_witness :
  exists top slots w' before loop,
    @convertZodSchema Demo.delegate Demo.env1 Demo.threeExports pydantic V4 Demo.boot
    = (inr (ROutput (top ++ join (nl ++ nl) slots
                     ++ unhandledComment pydantic
                          (nonExported (detectAllZodSchemas Demo.threeExports)))), w')
    /\ List.map fst
         (@outcomesOf Demo.delegate (tempFileOf Demo.env1) pydantic
            (exported (detectAllZodSchemas Demo.threeExports))
            (prepared Demo.env1 [js "app"] V4 Demo.threeExports (fs Demo.boot)))
       = exported (detectAllZodSchemas Demo.threeExports)
    /\ Forall2
         (fun result slot =>
            match result.2 with
            | inl e =>
                exists rest,
                  slot = js "#" ++ js " " ++ rest
                  /\ within (js "'" ++ result.1 ++ js "'") rest
            | inr output =>
                slot = bodyWithoutEnums
                         (extractEnums pydantic (body (extractImports pydantic output)))
            end)
         (@outcomesOf Demo.delegate (tempFileOf Demo.env1) pydantic
            (exported (detectAllZodSchemas Demo.threeExports))
            (prepared Demo.env1 [js "app"] V4 Demo.threeExports (fs Demo.boot)))
         slots
    /\ events w' = before ++ loop ++ [EvFs (OpRm (tempDirOf Demo.env1))]
    /\ loadsOf loop = exported (detectAllZodSchemas Demo.threeExports).
Proof.
  apply (@failed_binding_is_isolated Demo.delegate Demo.env1 [js "app"]
           Demo.threeExports pydantic V4 Demo.boot Demo.threeExports).
  - apply demo_quiet.
  - apply demo_root.
  - vm_compute. discriminate.
  - vm_compute. lia.
  - apply demo_installed_v4.
  - reflexivity.
Defined.

(** ** The enum extractors: the texts the registry holds *)

Lemma mapGet_saveEnum (s def : jsstring) cur sig (m : EnumMap) :
  mapGet s (saveEnum cur sig m) = Some def ->
  mapGet s m = Some def
  \/ (s = sig /\ sig <> [] /\ exists block, cur = Some block /\ def = join nl block).
Proof.
  unfold saveEnum. destruct cur as [block|]; [|now left].
  destruct sig as [|c sig]; [now left|]. cbn [nonEmpty].
  rewrite mapGet_register. destruct (mapGet s m) as [d|]; [now left|].
  destruct (eqs (c :: sig) s) eqn:Hs; [|discriminate].
  apply eqs_true in Hs as <-. intros [= <-]. right.
  split; [reflexivity|]. split; [discriminate|]. eauto.
Qed.

Lemma closingLine_more (l : language) (next line : jsstring) (after : list jsstring) :
  closingLine l ((next :: after) ++ [line]) = closingLine l (next :: after).
Proof. destruct l; reflexivity. Qed.

Lemma storedIn_more (l : language) done m line :
  storedIn l done m -> storedIn l (done ++ [line]) m.
Proof.
  intros Hst s def Hget. destruct (Hst s def Hget)
    as (Hs & hdr & block & before & next & after & -> & Hh & Hall & Hnext & Hsig & ->).
  split; [assumption|].
  exists hdr, block, before, next, (after ++ [line]).
  repeat split; try assumption. reassoc.
Qed.

(** The block that is open after [done] ends with [line] and is stored. *)
Lemma storedIn_ended (l : language) done m hdr block line sig extra :
  storedIn l done m ->
  blockOpenIn l done hdr block ->
  continuesBlock l (indentOf hdr) line = false ->
  sig = signatureOf (valueOf l) block ->
  extra = closingLine l [line] ->
  storedIn l (done ++ [line]) (saveEnum (Some (hdr :: block ++ extra)) sig m).
Proof.
  intros Hst (before & -> & Hh & Hall) Hline -> -> s def
    [Hold | (-> & Hne & cur & [= <-] & ->)]%mapGet_saveEnum.
  - now apply (storedIn_more l _ m line Hst).
  - split; [assumption|].
    exists hdr, block, before, line, []. repeat split; try assumption. reassoc.
Qed.

Lemma pyStored_step done st line :
  pyScanned done st -> storedIn pydantic done (pyEnumMap st) ->
  storedIn pydantic (done ++ [line]) (pyEnumMap (pyEnumStep st line)).
Proof.
  destruct st as [m body cur indent sig inEnum]. unfold pyScanned.
  cbn [pyEnumMap pyCurrentEnum pyInEnum pyEnumIndent pyEnumSignature]. intros [_ Hcur] Hst.
  destruct (isPyHeader line) eqn:Hh.
  - rewrite pyEnumStep_header by assumption. unfold pyFlushed.
    cbn [pyEnumMap pyCurrentEnum pyInEnum pyEnumIndent pyEnumSignature].
    destruct cur as [c|].
    + destruct Hcur as (_ & hdr & block & -> & Hopen & _ & ->).
      rewrite <- (app_nil_r block) at 1.
      apply (storedIn_ended pydantic done m hdr block line); try assumption; try reflexivity.
      now apply (header_ends_block pydantic).
    + intros s def Hget. unfold saveEnum in Hget. now apply (storedIn_more pydantic _ m line Hst).
  - destruct cur as [c|].
    + destruct Hcur as (-> & hdr & block & -> & Hopen & -> & ->).
      destruct (pyLeavesEnum (indentOf hdr) line) eqn:Hleave.
      * rewrite pyEnumStep_close by (unfold pyCloses; now rewrite Hh, Hleave).
        cbn [pyEnumMap].
        rewrite <- (app_nil_r block) at 1.
        apply (storedIn_ended pydantic done m hdr block line); try assumption; try reflexivity.
        cbn [continuesBlock]. unfold pyContinues. now rewrite Hh, Hleave.
      * assert (Hcont : pyContinues (indentOf hdr) line = true)
          by (unfold pyContinues; now rewrite Hh, Hleave).
        rewrite pyEnumStep_inside by assumption. cbn [pyEnumMap].
        now apply storedIn_more.
    + subst inEnum. unfold pyEnumStep. unfold isPyHeader in Hh. rewrite Hh.
      cbn [pyEnumMap pyCurrentEnum pyInEnum]. now apply storedIn_more.
Qed.

Lemma pyStored_run lines : forall done st,
  pyScanned done st -> storedIn pydantic done (pyEnumMap st) ->
  storedIn pydantic (done ++ lines) (pyEnumMap (fold_left pyEnumStep lines st)).
Proof.
  induction lines as [|line lines IH]; intros done st Hsc Hst; cbn [fold_left].
  - now rewrite app_nil_r.
  - replace (done ++ line :: lines) with ((done ++ [line]) ++ lines)
      by now rewrite <- app_assoc.
    apply IH; [now apply pyScanned_step | now apply pyStored_step].
Qed.

Lemma tsStored_step done st line :
  tsScanned done st -> storedIn typescript done (tsEnumMap st) ->
  storedIn typescript (done ++ [line]) (tsEnumMap (tsEnumStep st line)).
Proof.
  destruct st as [m body cur sig]. unfold tsScanned.
  cbn [tsEnumMap tsCurrentEnum tsEnumSignature]. intros [_ Hcur] Hst.
  destruct (isTsHeader line) eqn:Hh.
  - rewrite tsEnumStep_header by assumption. unfold tsFlushed.
    cbn [tsEnumMap tsCurrentEnum tsEnumSignature].
    destruct cur as [c|].
    + destruct Hcur as (hdr & block & -> & Hopen & ->).
      rewrite <- (app_nil_r block) at 1.
      apply (storedIn_ended typescript done m hdr block line); try assumption; try reflexivity.
      * now apply (header_ends_block typescript).
      * cbn [closingLine]. now rewrite Hh.
    + intros s def Hget. unfold saveEnum in Hget.
      now apply (storedIn_more typescript _ m line Hst).
  - destruct cur as [c|].
    + destruct Hcur as (hdr & block & -> & Hopen & ->).
      destruct (eqs (trim line) (js "}")) eqn:Hclose.
      * rewrite tsEnumStep_close by (unfold tsCloses; now rewrite Hh, Hclose).
        cbn [tsEnumMap].
        change ((hdr :: block) ++ [line]) with (hdr :: block ++ [line]).
        apply (storedIn_ended typescript done m hdr block line); try assumption;
          try reflexivity.
        -- cbn [continuesBlock]. unfold tsContinues. now rewrite Hh, Hclose.
        -- cbn [closingLine]. now rewrite Hh.
      * assert (Hcont : tsContinues line = true)
          by (unfold tsContinues; now rewrite Hh, Hclose).
        rewrite tsEnumStep_inside by assumption. cbn [tsEnumMap].
        now apply storedIn_more.
    + unfold tsEnumStep. unfold isTsHeader in Hh. rewrite Hh.
      cbn [tsEnumMap tsCurrentEnum]. now apply storedIn_more.
Qed.

Lemma tsStored_run lines : forall done st,
  tsScanned done st -> storedIn typescript done (tsEnumMap st) ->
  storedIn typescript (done ++ lines) (tsEnumMap (fold_left tsEnumStep lines st)).
Proof.
  induction lines as [|line lines IH]; intros done st Hsc Hst; cbn [fold_left].
  - now rewrite app_nil_r.
  - replace (done ++ line :: lines) with ((done ++ [line]) ++ lines)
      by now rewrite <- app_assoc.
    apply IH; [now apply tsScanned_step | now apply tsStored_step].
Qed.

Lemma storedIn_defined (l : language) lines m s def :
  storedIn l lines m -> mapGet s m = Some def -> s <> [] /\ definedIn l lines s def.
Proof.
  intros Hst Hget. destruct (Hst s def Hget)
    as (Hs & hdr & block & before & next & after & -> & Hh & Hall & Hnext & Hsig & ->).
  split; [assumption|]. exists hdr, block, before, (next :: after).
  repeat split; assumption.
Qed.

(** What an extractor stores under a signature is the text of a block of
    the body with that signature, and the signature is not empty. *)
Lemma registered_definition (l : language) (bodyText sig def : jsstring) :
  mapGet sig (enums (extractEnums l bodyText)) = Some def ->
  sig <> [] /\ definedIn l (splitLines bodyText) sig def.
Proof.
  destruct l; cbn [extractEnums].
  - unfold extractPythonEnums, pyEnumLines, pyEnumFinish. cbn [enums].
    assert (Hstart : pyScanned [] pyEnumStart).
    { split; [intros s' Hs'; discriminate | reflexivity]. }
    assert (Hnone : storedIn pydantic [] (pyEnumMap pyEnumStart)).
    { intros s' d' Hs'. discriminate. }
    pose proof (pyScanned_run (splitLines bodyText) [] pyEnumStart Hstart) as [_ Hcur].
    pose proof (pyStored_run (splitLines bodyText) [] pyEnumStart Hstart Hnone) as Hst.
    cbn [app] in Hcur, Hst.
    intros [Hold | (-> & Hne & cur & Hsome & ->)]%mapGet_saveEnum.
    + now apply (storedIn_defined pydantic _ _ _ _ Hst).
    + split; [assumption|]. rewrite Hsome in Hcur.
      destruct Hcur as (_ & hdr & block & -> & (before & Hlines & Hh & Hall) & _ & Hsig).
      exists hdr, block, before, []. cbn [closingLine]. rewrite !app_nil_r.
      repeat split; solve [assumption | symmetry; assumption | reflexivity].
  - unfold extractTypeScriptEnums, tsEnumLines, tsEnumFinish. cbn [enums].
    assert (Hstart : tsScanned [] tsEnumStart).
    { split; [intros s' Hs'; discriminate | exact I]. }
    assert (Hnone : storedIn typescript [] (tsEnumMap tsEnumStart)).
    { intros s' d' Hs'. discriminate. }
    pose proof (tsScanned_run (splitLines bodyText) [] tsEnumStart Hstart) as [_ Hcur].
    pose proof (tsStored_run (splitLines bodyText) [] tsEnumStart Hstart Hnone) as Hst.
    cbn [app] in Hcur, Hst.
    intros [Hold | (-> & Hne & cur & Hsome & ->)]%mapGet_saveEnum.
    + now apply (storedIn_defined typescript _ _ _ _ Hst).
    + split; [assumption|]. rewrite Hsome in Hcur.
      destruct Hcur as (hdr & block & -> & (before & Hlines & Hh & Hall) & Hsig).
      exists hdr, block, before, []. cbn [closingLine]. rewrite !app_nil_r.
      repeat split; solve [assumption | symmetry; assumption | reflexivity].
Qed.

(** ** Lines and their texts *)

Lemma splitOn_noFeed (s : jsstring) :
  Forall (fun line => Forall (fun c => (c =? 10)%N = false) line) (splitOn 10%N s).
Proof.
  induction s as [|c s IH]; cbn [splitOn]; [repeat constructor|].
  destruct (N.eqb_spec c 10) as [->|Hc]; [now constructor|].
  destruct (splitOn 10%N s) as [|x xs].
  - repeat constructor. now apply N.eqb_neq.
  - apply Forall_cons in IH as [Hx Hxs]. constructor; [|assumption].
    constructor; [now apply N.eqb_neq | assumption].
Qed.

Lemma splitLines_join (lines : list jsstring) :
  lines <> [] ->
  Forall (fun line => Forall (fun c => (c =? 10)%N = false) line) lines ->
  splitLines (join nl lines) = lines.
Proof.
  unfold splitLines. induction lines as [|x [|y lines] IH]; intros Hne Hall; [congruence| |].
  - apply Forall_cons in Hall as [Hx _]. now apply splitOn_whole.
  - apply Forall_cons in Hall as [Hx Hall].
    rewrite join_cons. change (nl ++ join nl (y :: lines)) with (10%N :: join nl (y :: lines)).
    rewrite splitOn_cut by assumption. rewrite IH by (discriminate || assumption). reflexivity.
Qed.

Lemma join_lines_inj (a b : list jsstring) :
  a <> [] -> b <> [] ->
  Forall (fun line => Forall (fun c => (c =? 10)%N = false) line) a ->
  Forall (fun line => Forall (fun c => (c =? 10)%N = false) line) b ->
  join nl a = join nl b -> a = b.
Proof.
  intros Ha Hb Hfa Hfb Heq.
  rewrite <- (splitLines_join a Ha Hfa), <- (splitLines_join b Hb Hfb). now rewrite Heq.
Qed.

Lemma sublist_noFeed (kept lines : list jsstring) :
  kept `sublist_of` lines ->
  Forall (fun line => Forall (fun c => (c =? 10)%N = false) line) lines ->
  Forall (fun line => Forall (fun c => (c =? 10)%N = false) line) kept.
Proof.
  intros Hsub Hall. apply Forall_forall. intros x Hx.
  rewrite Forall_forall in Hall. apply Hall. eapply elem_of_sublist; eassumption.
Qed.

(** ** Blocks without values *)

Lemma closingLine_stops (l : language) (indent : nat) (after : list jsstring) :
  match after with [] => True | next :: _ => continuesBlock l indent next = false end ->
  Forall (fun line => continuesBlock l indent line = false) (closingLine l after).
Proof.
  destruct l, after as [|next rest]; cbn [closingLine]; intros Hnext; try constructor.
  destruct (isTsHeader next); repeat constructor. exact Hnext.
Qed.

Lemma closingLine_sublist (l : language) (after : list jsstring) :
  closingLine l after `sublist_of` after.
Proof.
  destruct l, after as [|next rest]; cbn [closingLine]; try apply sublist_nil_l.
  destruct (isTsHeader next); [apply sublist_nil_l|].
  apply sublist_skip, sublist_nil_l.
Qed.

(** Two blocks with the same text have the same lines. *)
Lemma block_text_inj (l : language) (indentA indentB : nat)
    (blockA blockB closeA closeB : list jsstring) :
  Forall (fun line => continuesBlock l indentA line = true) blockA ->
  Forall (fun line => continuesBlock l indentB line = true) blockB ->
  Forall (fun line => continuesBlock l indentA line = false) closeA ->
  Forall (fun line => continuesBlock l indentB line = false) closeB ->
  length closeA <= 1 -> length closeB <= 1 ->
  (l = pydantic -> closeA = [] /\ closeB = []) ->
  blockA ++ closeA = blockB ++ closeB -> blockA = blockB.
Proof.
  intros HA HB HcA HcB HlA HlB Hpy Heq.
  destruct l.
  - destruct (Hpy eq_refl) as [-> ->]. now rewrite !app_nil_r in Heq.
  - cbn [continuesBlock] in *.
    destruct closeA as [|x [|? ?]], closeB as [|y [|? ?]]; cbn [length] in *; try lia.
    + now rewrite !app_nil_r in Heq.
    + rewrite app_nil_r in Heq. subst blockA.
      apply Forall_app in HA as [_ Hy]. apply Forall_cons in Hy as [Hy _].
      apply Forall_cons in HcB as [Hy' _]. congruence.
    + rewrite app_nil_r in Heq. subst blockB.
      apply Forall_app in HB as [_ Hx]. apply Forall_cons in Hx as [Hx _].
      apply Forall_cons in HcA as [Hx' _]. congruence.
    + now apply app_inj_tail in Heq as [-> _].
Qed.

Lemma closingLine_short (l : language) (after : list jsstring) :
  length (closingLine l after) <= 1 /\ (l = pydantic -> closingLine l after = []).
Proof.
  destruct l, after as [|next rest]; cbn [closingLine];
    try destruct (isTsHeader next); (split; [simpl; lia|]);
    solve [reflexivity | discriminate].
Qed.

(** The text of a block without values is not the text of a block that an
    extractor stored. *)
Lemma valueless_text_not_defined (l : language) (lines stored : list jsstring)
    (sig def : jsstring) (before : list jsstring) (hdr : jsstring)
    (block after : list jsstring) :
  Forall (fun line => Forall (fun c => (c =? 10)%N = false) line) stored ->
  definedIn l stored sig def ->
  sig <> [] ->
  Forall (fun line => Forall (fun c => (c =? 10)%N = false) line) lines ->
  lines = before ++ hdr :: block ++ after ->
  Forall (fun line => continuesBlock l (indentOf hdr) line = true) block ->
  Forall (noValue (valueOf l)) block ->
  match after with [] => True | next :: _ => continuesBlock l (indentOf hdr) next = false end ->
  def <> join nl (hdr :: block ++ closingLine l after).
Proof.
  intros Hfs (hdr' & block' & before' & after' & -> & Hh' & Hall' & Hnext' & Hsig' & ->)
    Hne Hfl -> Hall Hnov Hnext Heq.
  apply Forall_app in Hfs as [_ Hfs]. apply Forall_cons in Hfs as [Hfh' Hfs].
  apply Forall_app in Hfs as [Hfb' Hfa'].
  apply Forall_app in Hfl as [_ Hfl]. apply Forall_cons in Hfl as [Hfh Hfl].
  apply Forall_app in Hfl as [Hfb Hfa].
  apply join_lines_inj in Heq; try discriminate.
  - injection Heq as -> Heq.
    destruct (closingLine_short l after') as [Hl' Hpy'].
    destruct (closingLine_short l after) as [Hl Hpy].
    apply (block_text_inj l (indentOf hdr) (indentOf hdr)) in Heq;
      try assumption; try (now apply closingLine_stops); [|now auto].
    subst block'. apply Hne. rewrite <- Hsig'.
    unfold signatureOf. now apply signatureFrom_noValue.
  - constructor; [assumption|]. apply Forall_app. split; [assumption|].
    eapply sublist_noFeed; [apply closingLine_sublist | assumption].
  - constructor; [assumption|]. apply Forall_app. split; [assumption|].
    eapply sublist_noFeed; [apply closingLine_sublist | assumption].
Qed.

(** ** What a scan adds to the body *)

Lemma py_kept_from lines : forall st,
  exists kept,
    pyBodyLines (fold_left pyEnumStep lines st) = pyBodyLines st ++ kept
    /\ kept `sublist_of` lines.
Proof.
  induction lines as [|line lines IH]; intros st; cbn [fold_left].
  - exists []. now rewrite app_nil_r.
  - destruct (IH (pyEnumStep st line)) as (kept & -> & Hsub).
    assert (Hstep : pyBodyLines (pyEnumStep st line) = pyBodyLines st
                    \/ pyBodyLines (pyEnumStep st line) = pyBodyLines st ++ [line]).
    { unfold pyEnumStep. destruct (test pyEnumHeader (trim line)); [now left|].
      destruct (pyInEnum st), (pyCurrentEnum st); cbn [pyBodyLines]; try (now right).
      destruct (pyLeavesEnum (pyEnumIndent st) line); cbn [pyBodyLines]; [now right | now left]. }
    destruct Hstep as [-> | ->].
    + exists kept. split; [reflexivity | now apply sublist_cons].
    + exists (line :: kept). rewrite <- app_assoc. split; [reflexivity | now apply sublist_skip].
Qed.

Lemma ts_kept_from lines : forall st,
  exists kept,
    tsBodyLines (fold_left tsEnumStep lines st) = tsBodyLines st ++ kept
    /\ kept `sublist_of` lines.
Proof.
  induction lines as [|line lines IH]; intros st; cbn [fold_left].
  - exists []. now rewrite app_nil_r.
  - destruct (IH (tsEnumStep st line)) as (kept & -> & Hsub).
    assert (Hstep : tsBodyLines (tsEnumStep st line) = tsBodyLines st
                    \/ tsBodyLines (tsEnumStep st line) = tsBodyLines st ++ [line]).
    { unfold tsEnumStep. destruct (test tsEnumHeader (trim line)); [now left|].
      destruct (tsCurrentEnum st); cbn [tsBodyLines]; [|now right].
      destruct (eqs (trim line) (js "}")); cbn [tsBodyLines]; now left. }
    destruct Hstep as [-> | ->].
    + exists kept. split; [reflexivity | now apply sublist_cons].
    + exists (line :: kept). rewrite <- app_assoc. split; [reflexivity | now apply sublist_skip].
Qed.

(** The lines after a block that can still reach the body: in the
    structural dialect the line that ends the block never does. *)
Lemma block_lines_leave_the_body (l : language) (bodyText : jsstring)
    (before : list jsstring) (hdr : jsstring) (block after : list jsstring) :
  splitLines bodyText = before ++ hdr :: block ++ after ->
  isEnumHeader l hdr = true ->
  Forall (fun line => continuesBlock l (indentOf hdr) line = true) block ->
  match after with [] => True | next :: _ => continuesBlock l (indentOf hdr) next = false end ->
  exists keptBefore keptAfter,
    bodyWithoutEnums (extractEnums l bodyText) = trim (join nl (keptBefore ++ keptAfter))
    /\ keptBefore `sublist_of` before
    /\ keptAfter `sublist_of` match l with pydantic => after | typescript => tail after end.
Proof.
  intros Hlines Hh Hall Hnext. destruct l; cbn [extractEnums isEnumHeader continuesBlock] in *.
  - unfold extractPythonEnums, pyEnumLines, pyEnumFinish. cbn [bodyWithoutEnums].
    rewrite Hlines, fold_left_app.
    change (hdr :: block ++ after) with ((hdr :: block) ++ after).
    rewrite fold_left_app.
    destruct (py_kept_from before pyEnumStart) as (keptB & HB & HsubB).
    rewrite (py_block_open _ hdr block Hh Hall).
    match goal with
    | |- context [fold_left pyEnumStep after ?st] =>
        destruct (py_kept_from after st) as (keptA & HA & HsubA)
    end.
    rewrite HA. cbn [pyBodyLines]. rewrite HB. cbn [pyBodyLines pyEnumStart app].
    eauto.
  - unfold extractTypeScriptEnums, tsEnumLines, tsEnumFinish. cbn [bodyWithoutEnums].
    rewrite Hlines, fold_left_app.
    change (hdr :: block ++ after) with ((hdr :: block) ++ after).
    rewrite fold_left_app.
    destruct (ts_kept_from before tsEnumStart) as (keptB & HB & HsubB).
    rewrite (ts_block_open _ hdr block Hh Hall).
    destruct after as [|next rest].
    + exists keptB, []. cbn [fold_left tsBodyLines tail]. rewrite HB.
      cbn [tsBodyLines tsEnumStart app]. rewrite app_nil_r. auto using sublist_nil_l.
    + cbn [fold_left tail].
      match goal with
      | |- context [fold_left tsEnumStep rest (tsEnumStep ?st next)] =>
          destruct (ts_kept_from rest (tsEnumStep st next)) as (keptA & HA & HsubA);
          assert (Hsame : tsBodyLines (tsEnumStep st next) = tsBodyLines st)
      end.
      { unfold tsContinues in Hnext. destruct (isTsHeader next) eqn:Hn.
        - now rewrite tsEnumStep_header.
        - cbn [negb andb] in Hnext. apply negb_false_iff in Hnext.
          rewrite tsEnumStep_close by (unfold tsCloses; now rewrite Hn, Hnext).
          reflexivity. }
      rewrite HA, Hsame. cbn [tsBodyLines]. rewrite HB. cbn [tsBodyLines tsEnumStart app].
      eauto.
Qed.

(** ** The registry of a batch and the sections of the output *)

Lemma firstDefinition_spec (l : language) (sig def : jsstring)
    (results : list (jsstring * (thrown + jsstring))) :
  firstDefinition l sig results = Some def ->
  exists i result,
    results !! i = Some result
    /\ mapGet sig (enumsOf l result.2) = Some def
    /\ forall j earlier, j < i -> results !! j = Some earlier ->
         mapGet sig (enumsOf l earlier.2) = None.
Proof.
  induction results as [|r results IH]; [discriminate|]. cbn [firstDefinition].
  destruct (mapGet sig (enumsOf l r.2)) as [d|] eqn:Hr.
  - intros [= ->]. exists 0, r. split; [reflexivity|]. split; [assumption|]. intros; lia.
  - intros Hrest. destruct (IH Hrest) as (i & result & Hi & Hget & Hearlier).
    exists (S i), result. split; [exact Hi|]. split; [assumption|].
    intros [|j] earlier Hj Hlook.
    + injection Hlook as <-. assumption.
    + apply (Hearlier j); [lia | exact Hlook].
Qed.

(** What the registry of a batch holds under a signature: the text of a
    block with that signature, which is not empty, from the first binding
    that converted to code with such a block. *)
Lemma batch_registry_entry (l : language) (sig def : jsstring)
    (results : list (jsstring * (thrown + jsstring))) :
  mapGet sig (allEnums (batchOf l results batchStart)) = Some def ->
  sig <> []
  /\ exists i name output,
       results !! i = Some (name, inr output)
       /\ mapGet sig (enums (extractEnums l (body (extractImports l output)))) = Some def
       /\ definedIn l (splitLines (body (extractImports l output))) sig def
       /\ forall j earlier output', j < i -> results !! j = Some earlier ->
            earlier.2 = inr output' ->
            ¬ hasEnumBlock l (body (extractImports l output')) sig.
Proof.
  rewrite batchOf_lookup. cbn [batchStart allEnums mapGet List.find fmap option_fmap option_map].
  intros Hfirst. apply firstDefinition_spec in Hfirst as (i & [name outcome] & Hi & Hget & Hearlier).
  destruct outcome as [e|output]; [discriminate Hget|]. cbn [enumsOf snd] in Hget.
  destruct (registered_definition l _ sig def Hget) as [Hne Hdef].
  split; [assumption|]. exists i, name, output.
  split; [assumption|]. split; [assumption|]. split; [assumption|].
  intros j earlier output' Hj Hlook Hout Hblock.
  specialize (Hearlier j earlier Hj Hlook). rewrite Hout in Hearlier. cbn [enumsOf] in Hearlier.
  apply mapHas_false_get in Hearlier.
  rewrite (block_registered l _ sig Hblock Hne) in Hearlier. discriminate.
Qed.



Section Sections.
Context `{Delegate}.
Variable env : Env.

(** The output of a run whose setup succeeds, section by section: the
    imports, the definitions of the registry, the body slots, the notice. *)
Lemma convert_sections root code l v w transpiled :
  quiet env ->
  findNodeModulesRootIn env (fs w) = inr root ->
  length (exported (detectAllZodSchemas code)) <> 0 ->
  length (exported (detectAllZodSchemas code)) <= 10 ->
  existsSync (fs w) (zodVersionPathOf root v) = true ->
  transpileModule code = inr transpiled ->
  exists importsPart w',
    convertZodSchema env code l v w
    = (inr (ROutput
         (importsPart
          ++ (if (0 <? length (allEnums (batchOf l
                   (outcomesOf (tempFileOf env) l (exported (detectAllZodSchemas code))
                      (prepared env root v transpiled (fs w))) batchStart)))%nat
              then join (nl ++ nl)
                     (mapValues (allEnums (batchOf l
                        (outcomesOf (tempFileOf env) l (exported (detectAllZodSchemas code))
                           (prepared env root v transpiled (fs w))) batchStart)))
                   ++ nl ++ nl
              else [])
          ++ join (nl ++ nl)
               (List.map (slotOf l)
                  (outcomesOf (tempFileOf env) l (exported (detectAllZodSchemas code))
                     (prepared env root v transpiled (fs w))))
          ++ unhandledComment l (nonExported (detectAllZodSchemas code)))), w').
Proof.
  intros Hquiet Hroot Hn0 Hn10 Hx Ht.
  destruct (convert_output env root code l v w transpiled Hquiet Hroot Hn0 Hn10 Hx Ht)
    as (w' & w1 & before & Hrun & _).
  eexists _, w'. rewrite Hrun. unfold finalOutput, bodySection, enumSection.
  rewrite batchOf_slots. cbn [bodyOutputs batchStart app].
  rewrite !app_assoc. reflexivity.
Qed.
End Sections.

(** ** The error formatter, branch by branch *)











Section TopLevelErrors.
Context `{Delegate}.


End TopLevelErrors.


(** ** A failure whose message has two lines *)

(** C3.  The fallback branch of [formatConversionError] puts the comment
    mark before the message as a whole.  For a failure whose message has two
    lines the diagnostic therefore has two lines, and only the first one is
    a comment: in the output of the batch the second line of the message
    stands as a line of code between the bodies of the other bindings. *)
Theorem two_line_failure_leaves_a_live_line :
  splitLines
    (formatConversionError (js "Broken")
       (newError (js "Unexpected token" ++ nl ++ js "import os")) pydantic)
  = [js "# Error in schema 'Broken': Unexpected token"; js "import os"]
  /\ (@convertZodSchema Demo.delegateTwoLines Demo.env1 Demo.threeExports pydantic V4
        Demo.boot).1
     = inr (ROutput (Demo.lines
         [js "from pydantic import BaseModel";
          js "";
          js "class User(BaseModel):";
          js "    id: int";
          js "";
          js "# Error in schema 'Broken': Unexpected token";
          js "import os";
          js "";
          js "class Team(BaseModel):";
          js "    id: int"])).
Proof. split; vm_compute; reflexivity. Qed.

(** ** One definition for a signature *)

Section OneDefinition.
Context `{Delegate}.
Variable env : Env.

End OneDefinition.


(** ** Blocks without a string-valued member *)

(** A block without values in a body: nothing is stored under its (empty)
    signature, no stored definition is its text, and none of its lines is
    left in the body. *)
Lemma valueless_block_extracted (l : language) (bodyText : jsstring)
    (before : list jsstring) (hdr : jsstring) (block after : list jsstring) :
  splitLines bodyText = before ++ hdr :: block ++ after ->
  isEnumHeader l hdr = true ->
  Forall (fun line => continuesBlock l (indentOf hdr) line = true) block ->
  Forall (noValue (valueOf l)) block ->
  match after with [] => True | next :: _ => continuesBlock l (indentOf hdr) next = false end ->
  signatureOf (valueOf l) block = []
  /\ mapGet [] (enums (extractEnums l bodyText)) = None
  /\ (forall sig def,
        mapGet sig (enums (extractEnums l bodyText)) = Some def ->
        def <> join nl (hdr :: block ++ closingLine l after))
  /\ exists keptBefore keptAfter,
       bodyWithoutEnums (extractEnums l bodyText) = trim (join nl (keptBefore ++ keptAfter))
       /\ keptBefore `sublist_of` before
       /\ keptAfter `sublist_of` match l with pydantic => after | typescript => tail after end.
Proof.
  intros Hlines Hh Hall Hnov Hnext.
  split; [unfold signatureOf; now apply signatureFrom_noValue|].
  split.
  { destruct (mapGet [] (enums (extractEnums l bodyText))) as [def|] eqn:Hget; [|reflexivity].
    now apply registered_definition in Hget as [Hne _]. }
  split.
  { intros sig def Hget. apply registered_definition in Hget as [Hne Hdef].
    apply (valueless_text_not_defined l (splitLines bodyText) (splitLines bodyText)
             sig def before); try assumption; apply splitOn_noFeed. }
  apply (block_lines_leave_the_body l bodyText before hdr block after); assumption.
Qed.

(** The same when no other line of the body is an enum header: the
    registry is empty and the body is all the other lines. *)
Lemma valueless_block_alone (l : language) (bodyText : jsstring)
    (before : list jsstring) (hdr : jsstring) (block after : list jsstring) :
  splitLines bodyText = before ++ hdr :: block ++ after ->
  isEnumHeader l hdr = true ->
  Forall (fun line => continuesBlock l (indentOf hdr) line = true) block ->
  Forall (noValue (valueOf l)) block ->
  match after with [] => True | next :: _ => continuesBlock l (indentOf hdr) next = false end ->
  Forall (fun line => isEnumHeader l line = false) before ->
  Forall (fun line => isEnumHeader l line = false) after ->
  extractEnums l bodyText
  = {| enums := [];
       bodyWithoutEnums :=
         trim (join nl (before ++ match l with pydantic => after | typescript => tail after end)) |}.
Proof.
  intros Hlines Hh Hall Hnov Hnext Hbefore Hafter.
  assert (Hsig : forall valueRegex, Forall (noValue valueRegex) block ->
            signatureOf valueRegex block = []).
  { intros valueRegex Hn. unfold signatureOf. now apply signatureFrom_noValue. }
  destruct l; cbn [extractEnums isEnumHeader continuesBlock valueOf] in *.
  - unfold extractPythonEnums, pyEnumLines. rewrite Hlines, fold_left_app.
    change (hdr :: block ++ after) with ((hdr :: block) ++ after).
    rewrite fold_left_app. unfold pyEnumStart.
    rewrite py_plain_run by assumption.
    rewrite (py_block_open _ hdr block Hh Hall). rewrite Hsig by assumption.
    unfold pyFlushed. cbn [pyEnumMap pyBodyLines pyCurrentEnum pyEnumSignature app].
    destruct after as [|next rest].
    + cbn [fold_left]. unfold pyEnumFinish.
      cbn [pyEnumMap pyBodyLines pyCurrentEnum pyEnumSignature].
      unfold saveEnum. cbn [nonEmpty]. rewrite ?app_nil_r. reflexivity.
    + apply Forall_cons in Hafter as [Hn Hrest]. cbn [fold_left].
      unfold pyContinues in Hnext. rewrite Hn in Hnext. cbn [negb andb] in Hnext.
      apply negb_false_iff in Hnext.
      rewrite pyEnumStep_close by (unfold pyCloses; now rewrite Hn, Hnext).
      rewrite py_plain_run by assumption. unfold pyEnumFinish.
      cbn [pyEnumMap pyBodyLines pyCurrentEnum pyEnumSignature].
      unfold saveEnum. cbn [nonEmpty]. rewrite <- app_assoc. reflexivity.
  - unfold extractTypeScriptEnums, tsEnumLines. rewrite Hlines, fold_left_app.
    change (hdr :: block ++ after) with ((hdr :: block) ++ after).
    rewrite fold_left_app. unfold tsEnumStart.
    rewrite ts_plain_run by assumption.
    rewrite (ts_block_open _ hdr block Hh Hall). rewrite Hsig by assumption.
    unfold tsFlushed. cbn [tsEnumMap tsBodyLines tsCurrentEnum tsEnumSignature app].
    destruct after as [|next rest].
    + cbn [fold_left tail]. unfold tsEnumFinish.
      cbn [tsEnumMap tsBodyLines tsCurrentEnum tsEnumSignature].
      unfold saveEnum. cbn [nonEmpty]. rewrite ?app_nil_r. reflexivity.
    + apply Forall_cons in Hafter as [Hn Hrest]. cbn [fold_left tail].
      unfold tsContinues in Hnext. rewrite Hn in Hnext. cbn [negb andb] in Hnext.
      apply negb_false_iff in Hnext.
      rewrite tsEnumStep_close by (unfold tsCloses; now rewrite Hn, Hnext).
      rewrite ts_plain_run by assumption. unfold tsEnumFinish.
      cbn [tsEnumMap tsBodyLines tsCurrentEnum tsEnumSignature].
      unfold saveEnum. cbn [nonEmpty]. rewrite ?app_nil_r. reflexivity.
Qed.

Section Dropped.
Context `{Delegate}.

(** C10.  A body has an enum block: a header line, the lines that continue
    it, and then the end of the body or a line that does not continue it.
    When none of the block's lines carries a string value, the block's
    signature is empty and the extractor of either dialect stores nothing
    under it, no definition in the registry it returns is the text of the
    block, and the body it returns is made of lines from before and from
    after the block only.  When the block is the only one of the body, the
    registry is empty and the body is exactly the other lines (without the
    closing brace, in the structural dialect).  In a run whose setup
    succeeds, for a binding that converted to code with such a block, the
    output is the imports, the definitions of the registry, the body slots
    and the notice; no definition of the registry is the text of the block,
    and the slot of the binding is made of lines from before and after the
    block: the block is in no part of the output. *)
Theorem valueless_block_is_dropped :
  (forall l bodyText before hdr block after,
     splitLines bodyText = before ++ hdr :: block ++ after ->
     isEnumHeader l hdr = true ->
     Forall (fun line => continuesBlock l (indentOf hdr) line = true) block ->
     Forall (noValue (valueOf l)) block ->
     match after with [] => True | next :: _ => continuesBlock l (indentOf hdr) next = false end ->
     signatureOf (valueOf l) block = []
     /\ mapGet [] (enums (extractEnums l bodyText)) = None
     /\ (forall sig def,
           mapGet sig (enums (extractEnums l bodyText)) = Some def ->
           def <> join nl (hdr :: block ++ closingLine l after))
     /\ exists keptBefore keptAfter,
          bodyWithoutEnums (extractEnums l bodyText)
          = trim (join nl (keptBefore ++ keptAfter))
          /\ keptBefore `sublist_of` before
          /\ keptAfter `sublist_of`
               match l with pydantic => after | typescript => tail after end)
  /\ (forall l bodyText before hdr block after,
        splitLines bodyText = before ++ hdr :: block ++ after ->
        isEnumHeader l hdr = true ->
        Forall (fun line => continuesBlock l (indentOf hdr) line = true) block ->
        Forall (noValue (valueOf l)) block ->
        match after with
        | [] => True
        | next :: _ => continuesBlock l (indentOf hdr) next = false
        end ->
        Forall (fun line => isEnumHeader l line = false) before ->
        Forall (fun line => isEnumHeader l line = false) after ->
        extractEnums l bodyText
        = {| enums := [];
             bodyWithoutEnums :=
               trim (join nl (before ++ match l with
                                        | pydantic => after
                                        | typescript => tail after
                                        end)) |})
  /\ (forall env root code l v w transpiled i name output before hdr block after,
        let results :=
          outcomesOf (tempFileOf env) l (exported (detectAllZodSchemas code))
            (prepared env root v transpiled (fs w)) in
        quiet env ->
        findNodeModulesRootIn env (fs w) = inr root ->
        length (exported (detectAllZodSchemas code)) <> 0 ->
        length (exported (detectAllZodSchemas code)) <= 10 ->
        existsSync (fs w) (zodVersionPathOf root v) = true ->
        transpileModule code = inr transpiled ->
        results !! i = Some (name, inr output) ->
        splitLines (body (extractImports l output)) = before ++ hdr :: block ++ after ->
        isEnumHeader l hdr = true ->
        Forall (fun line => continuesBlock l (indentOf hdr) line = true) block ->
        Forall (noValue (valueOf l)) block ->
        match after with
        | [] => True
        | next :: _ => continuesBlock l (indentOf hdr) next = false
        end ->
        exists registry importsPart slots keptBefore keptAfter w',
          convertZodSchema env code l v w
          = (inr (ROutput
               (importsPart
                ++ (if (0 <? length registry)%nat
                    then join (nl ++ nl) (mapValues registry) ++ nl ++ nl
                    else [])
                ++ join (nl ++ nl) slots
                ++ unhandledComment l (nonExported (detectAllZodSchemas code)))), w')
          /\ (forall sig def,
                mapGet sig registry = Some def ->
                sig <> [] /\ def <> join nl (hdr :: block ++ closingLine l after))
          /\ length slots = length results
          /\ slots !! i = Some (trim (join nl (keptBefore ++ keptAfter)))
          /\ keptBefore `sublist_of` before
          /\ keptAfter `sublist_of`
               match l with pydantic => after | typescript => tail after end).
Proof.
  split; [exact valueless_block_extracted|].
  split; [exact valueless_block_alone|].
  intros env root code l v w transpiled i name output before hdr block after results
    Hquiet Hroot Hn0 Hn10 Hx Ht Hi Hlines Hh Hall Hnov Hnext.
  destruct (convert_sections env root code l v w transpiled Hquiet Hroot Hn0 Hn10 Hx Ht)
    as (importsPart & w' & Hrun).
  fold results in Hrun.
  destruct (block_lines_leave_the_body l _ before hdr block after Hlines Hh Hall Hnext)
    as (keptBefore & keptAfter & Hbody & HsubB & HsubA).
  exists (allEnums (batchOf l results batchStart)), importsPart,
         (List.map (slotOf l) results), keptBefore, keptAfter, w'.
  split; [exact Hrun|]. split; [|split; [|split; [|split; assumption]]].
  - intros sig def Hget.
    apply batch_registry_entry in Hget as (Hne & j & name' & output' & _ & _ & Hdef & _).
    split; [assumption|].
    apply (valueless_text_not_defined l (splitLines (body (extractImports l output)))
             (splitLines (body (extractImports l output'))) sig def before);
      try assumption; apply splitOn_noFeed.
  - apply length_map.
  - rewrite list_lookup_fmap, Hi. cbn [fmap option_fmap option_map]. unfold slotOf. cbn [snd].
    now rewrite Hbody.
Qed.
End Dropped.

(** C10, on a class block whose only content is a [pass] line, on a
    structural block without members, and on a run with two bindings whose
    code has such a class block. *)
Lemma valueless_block_is_dropped_witness :
  extractEnums pydantic
    (Demo.lines [js "class VoidEnum(str, Enum):"; js "    pass"; js "";
                 js "class Void(BaseModel):"; js "    value: VoidEnum"])
  = {| enums := [];
       bodyWithoutEnums :=
         trim (join nl ([] ++ [js "class Void(BaseModel):"; js "    value: VoidEnum"])) |}
  /\ extractEnums typescript
       (Demo.lines [js "const a = 1;"; js "enum Empty {"; js "}"; js "const b = 2;"])
     = {| enums := [];
          bodyWithoutEnums :=
            trim (join nl ([js "const a = 1;"] ++ tail [js "}"; js "const b = 2;"])) |}
  /\ exists registry importsPart slots keptBefore keptAfter w',
       @convertZodSchema Demo.delegate Demo.env1 Demo.twoVoids pydantic V4 Demo.boot
       = (inr (ROutput
            (importsPart
             ++ (if (0 <? length registry)%nat
                 then join (nl ++ nl) (mapValues registry) ++ nl ++ nl
                 else [])
             ++ join (nl ++ nl) slots
             ++ unhandledComment pydantic (nonExported (detectAllZodSchemas Demo.twoVoids)))),
          w')
       /\ (forall sig def,
             mapGet sig registry = Some def ->
             sig <> []
             /\ def <> join nl (js "class VoidEnum(str, Enum):" :: [js "    pass"; js ""]
                                ++ closingLine pydantic
                                     [js "class Void(BaseModel):"; js "    value: VoidEnum"]))
       /\ length slots
          = length (@outcomesOf Demo.delegate (tempFileOf Demo.env1) pydantic
                      (exported (detectAllZodSchemas Demo.twoVoids))
                      (prepared Demo.env1 [js "app"] V4 Demo.twoVoids (fs Demo.boot)))
       /\ slots !! 0 = Some (trim (join nl (keptBefore ++ keptAfter)))
       /\ keptBefore `sublist_of` []
       /\ keptAfter `sublist_of` [js "class Void(BaseModel):"; js "    value: VoidEnum"].
Proof.
  destruct (@valueless_block_is_dropped Demo.delegate) as (_ & Halone & Hrun).
  split; [|split].
  - apply (Halone pydantic _ [] (js "class VoidEnum(str, Enum):") [js "    pass"; js ""]
             [js "class Void(BaseModel):"; js "    value: VoidEnum"]).
    + vm_compute. reflexivity.
    + vm_compute. reflexivity.
    + repeat constructor.
    + repeat constructor.
    + vm_compute. reflexivity.
    + constructor.
    + repeat constructor.
  - apply (Halone typescript _ [js "const a = 1;"] (js "enum Empty {") []
             [js "}"; js "const b = 2;"]).
    + vm_compute. reflexivity.
    + vm_compute. reflexivity.
    + constructor.
    + constructor.
    + vm_compute. reflexivity.
    + repeat constructor.
    + repeat constructor.
  - apply (Hrun Demo.env1 [js "app"] Demo.twoVoids pydantic V4 Demo.boot Demo.twoVoids
             0 (js "Void") (Demo.pydanticCode (js "Void")) []
             (js "class VoidEnum(str, Enum):") [js "    pass"; js ""]
             [js "class Void(BaseModel):"; js "    value: VoidEnum"]).
    + apply demo_quiet.
    + apply demo_root.
    + vm_compute. discriminate.
    + vm_compute. lia.
    + apply demo_installed_v4.
    + reflexivity.
    + vm_compute. reflexivity.
    + vm_compute. reflexivity.
    + vm_compute. reflexivity.
    + repeat constructor.
    + repeat constructor.
    + vm_compute. reflexivity.
Defined.

